(** * az-lang: a shallow embedding of the parser, the evaluator and the
    request dispatcher, with the properties checked against them.

    The development follows the layout of the repository:
    - [token]   : token kinds and the number-word tables (token/token.go);
    - [ast]     : statement and expression nodes (ast/ast.go);
    - [parser]  : the recursive-descent parser (parser/parser.go);
    - [object]  : runtime values and environments (object/object.go);
    - [interpreter] : the tree-walking evaluator and the HTTP dispatcher
                  (interpreter/interpreter.go).

    Go's [int64] is a [Z] with its wrap-around written out ([wrap64]); Go
    strings are byte strings ([string]); maps are [gmap]s; pointers to
    mutable objects (environments, lists) are addresses into a store. *)

From Stdlib Require Import ZArith Ascii String SpecFloat.
From stdpp Require Import gmap strings list fin_maps pretty.

Local Open Scope Z_scope.

(** ** 64-bit signed integers *)

Definition MinInt64 : Z := - 2 ^ 63.
Definition MaxInt64 : Z := 2 ^ 63 - 1.

Definition in_int64 (z : Z) : Prop := MinInt64 <= z <= MaxInt64.

(** Two's-complement wrap-around of an exact result into [int64]. *)
Definition wrap64 (z : Z) : Z := (z + 2 ^ 63) mod 2 ^ 64 - 2 ^ 63.

Definition add64 (a b : Z) : Z := wrap64 (a + b).
Definition sub64 (a b : Z) : Z := wrap64 (a - b).
Definition mul64 (a b : Z) : Z := wrap64 (a * b).
(** Go's [/] truncates toward zero; [MinInt64 / -1] overflows and wraps. *)
Definition quo64 (a b : Z) : Z := wrap64 (Z.quot a b).
Definition neg64 (a : Z) : Z := wrap64 (- a).

Lemma wrap64_id z : in_int64 z -> wrap64 z = z.
Proof.
  unfold in_int64, wrap64, MinInt64, MaxInt64. intros H.
  rewrite Z.mod_small; lia.
Qed.

Lemma wrap64_range z : in_int64 (wrap64 z).
Proof.
  unfold in_int64, wrap64, MinInt64, MaxInt64.
  pose proof (Z.mod_pos_bound (z + 2 ^ 63) (2 ^ 64) ltac:(lia)). lia.
Qed.

(** The quote character, for messages that quote a literal. *)
Definition dquote : string := String (ascii_of_nat 34) EmptyString.

(** ** Tokens (token/token.go) *)

Module token.

Inductive TokenType : Set :=
| ILLEGAL | EOF
| IDENT | NUMBER | STRING
| SET | TO
| PLUS | TIMES | DIVIDED | MINUS
| INCREASE | DECREASE | BY
| IF | THEN | OTHERWISE | EQUALS | IS | GREATER | LESS | THAN
| AND | OR | NOT
| WHILE | DO | FOR | EACH | IN
| DONE
| RETURN | CALL | WITH
| SAY | ASK
| A | LIST | OF | LENGTH | APPEND | GET | ITEM | FROM
| INTO
| FETCH | SEND | PUT | DELETE | BODY | STATUS | HEADER | HEADERS
| PARSE | JSON | FIELD | ENCODE | AS
| SERVE | ON | WHEN | REQUEST | AT | USING | REPLY | ROUTE | BACKGROUND
| STOP | SERVER | QUERY | METHOD | PATH
| ZERO | ONE | TWO | THREE | FOUR | FIVE | SIX | SEVEN | EIGHT | NINE
| TEN | ELEVEN | TWELVE | THIRTEEN | FOURTEEN | FIFTEEN | SIXTEEN
| SEVENTEEN | EIGHTEEN | NINETEEN
| TWENTY | THIRTY | FORTY | FIFTY | SIXTY | SEVENTY | EIGHTY | NINETY
| HUNDRED | THOUSAND | MILLION.

Record Token : Set := {
  Typ : TokenType;
  Literal : string;
  Line : Z;
  Column : Z
}.

Definition IsNumberWord (t : TokenType) : bool :=
  match t with
  | ZERO | ONE | TWO | THREE | FOUR | FIVE | SIX | SEVEN | EIGHT | NINE
  | TEN | ELEVEN | TWELVE | THIRTEEN | FOURTEEN | FIFTEEN | SIXTEEN
  | SEVENTEEN | EIGHTEEN | NINETEEN | TWENTY | THIRTY | FORTY | FIFTY
  | SIXTY | SEVENTY | EIGHTY | NINETY | HUNDRED | THOUSAND | MILLION => true
  | _ => false
  end.

Definition NumberWordValue (t : TokenType) : Z :=
  match t with
  | ZERO => 0 | ONE => 1 | TWO => 2 | THREE => 3 | FOUR => 4
  | FIVE => 5 | SIX => 6 | SEVEN => 7 | EIGHT => 8 | NINE => 9
  | TEN => 10 | ELEVEN => 11 | TWELVE => 12 | THIRTEEN => 13
  | FOURTEEN => 14 | FIFTEEN => 15 | SIXTEEN => 16 | SEVENTEEN => 17
  | EIGHTEEN => 18 | NINETEEN => 19
  | TWENTY => 20 | THIRTY => 30 | FORTY => 40 | FIFTY => 50
  | SIXTY => 60 | SEVENTY => 70 | EIGHTY => 80 | NINETY => 90
  | HUNDRED => 100 | THOUSAND => 1000 | MILLION => 1000000
  | _ => 0
  end.

Definition IsMultiplier (t : TokenType) : bool :=
  match t with
  | HUNDRED | THOUSAND | MILLION => true
  | _ => false
  end.

Definition IsArithmeticOperator (t : TokenType) : bool :=
  match t with
  | PLUS | MINUS | TIMES | DIVIDED => true
  | _ => false
  end.

(** Token kinds are compared through a numbering of the constants. *)
Definition code (t : TokenType) : positive :=
  match t with
  | ILLEGAL => 1 | EOF => 2 | IDENT => 3 | NUMBER => 4 | STRING => 5
  | SET => 6 | TO => 7 | PLUS => 8 | TIMES => 9 | DIVIDED => 10
  | MINUS => 11 | INCREASE => 12 | DECREASE => 13 | BY => 14 | IF => 15
  | THEN => 16 | OTHERWISE => 17 | EQUALS => 18 | IS => 19 | GREATER => 20
  | LESS => 21 | THAN => 22 | AND => 23 | OR => 24 | NOT => 25
  | WHILE => 26 | DO => 27 | FOR => 28 | EACH => 29 | IN => 30
  | DONE => 31 | RETURN => 32 | CALL => 33 | WITH => 34 | SAY => 35
  | ASK => 36 | A => 37 | LIST => 38 | OF => 39 | LENGTH => 40
  | APPEND => 41 | GET => 42 | ITEM => 43 | FROM => 44 | INTO => 45
  | FETCH => 46 | SEND => 47 | PUT => 48 | DELETE => 49 | BODY => 50
  | STATUS => 51 | HEADER => 52 | HEADERS => 53 | PARSE => 54 | JSON => 55
  | FIELD => 56 | ENCODE => 57 | AS => 58 | SERVE => 59 | ON => 60
  | WHEN => 61 | REQUEST => 62 | AT => 63 | USING => 64 | REPLY => 65
  | ROUTE => 66 | BACKGROUND => 67 | STOP => 68 | SERVER => 69 | QUERY => 70
  | METHOD => 71 | PATH => 72
  | ZERO => 73 | ONE => 74 | TWO => 75 | THREE => 76 | FOUR => 77
  | FIVE => 78 | SIX => 79 | SEVEN => 80 | EIGHT => 81 | NINE => 82
  | TEN => 83 | ELEVEN => 84 | TWELVE => 85 | THIRTEEN => 86
  | FOURTEEN => 87 | FIFTEEN => 88 | SIXTEEN => 89 | SEVENTEEN => 90
  | EIGHTEEN => 91 | NINETEEN => 92 | TWENTY => 93 | THIRTY => 94
  | FORTY => 95 | FIFTY => 96 | SIXTY => 97 | SEVENTY => 98 | EIGHTY => 99
  | NINETY => 100 | HUNDRED => 101 | THOUSAND => 102 | MILLION => 103
  end.

Definition eqb (a b : TokenType) : bool := Pos.eqb (code a) (code b).

Lemma code_inj a b : code a = code b -> a = b.
Proof. destruct a; destruct b; simpl; intros H; try reflexivity; discriminate H. Qed.

Lemma eqb_eq a b : eqb a b = true <-> a = b.
Proof.
  unfold eqb. rewrite Pos.eqb_eq. split; [apply code_inj | congruence].
Qed.

Lemma eqb_refl a : eqb a a = true.
Proof. apply eqb_eq; reflexivity. Qed.

End token.

(** ** Syntax trees (ast/ast.go)

    A node keeps the fields the parser fills and the evaluator reads; the
    introducing token, kept by the source for [String()] only, is left out.
    An [*ast.Identifier] field is its [Value].  A Go interface value of type
    [ast.Expression] can be the nil interface ([ENil], what [parsePrimary]
    returns when no production applies) or a non-nil interface holding a nil
    pointer ([NilPtrExpression], what a production that gave up returns
    through [parsePrimary]); the same holds for statements. *)

Module ast.

#[local] Set Warnings "-register-all".

Inductive Expression : Type :=
| ENil
| NilPtrExpression
| Identifier (Value : string)
| IntegerLiteral (Value : Z)
| StringLiteral (Value : string)
| BooleanLiteral (Value : bool)
| ListLiteral (Elements : list Expression)
| ArithmeticExpression (Left : Expression) (Operator : string) (Right : Expression)
| ComparisonExpression (Left : Expression) (Operator : string) (Right : Expression)
| LogicalExpression (Left : Expression) (Operator : string) (Right : Expression)
| CallExpression (Function : string) (Arguments : list Expression)
| LengthExpression (List : Expression)
| IndexExpression (Index : Expression) (List : Expression)
| NegativeExpression (Value : Expression)
| BodyOfExpression (Response : Expression)
| StatusOfExpression (Response : Expression)
| HeaderFromExpression (HeaderName : Expression) (Response : Expression)
| FieldFromExpression (FieldName : Expression) (Source : Expression)
| MethodOfExpression (Request : Expression)
| PathOfExpression (Request : Expression)
| QueryFromExpression (QueryName : Expression) (Request : Expression).

Inductive Statement : Type :=
| NilPtrStatement
| SetStatement (Name : string) (Value : Expression)
| IncreaseStatement (Target : string) (Amount : Expression)
| DecreaseStatement (Target : string) (Amount : Expression)
| IfStatement (Condition : Expression) (Consequence : BlockStatement)
    (Alternative : option BlockStatement)
| WhileStatement (Condition : Expression) (Body : BlockStatement)
| ForStatement (Var : string) (Iterable : Expression) (Body : BlockStatement)
| FunctionDefinition (Name : string) (Parameters : list string) (Body : BlockStatement)
| ReturnStatement (ReturnValue : Expression)
| SayStatement (Value : Expression)
| AskStatement (Target : string)
| AppendStatement (Value : Expression) (List : string)
| FetchStatement (URL : Expression) (Headers : Expression) (Target : string)
| SendStatement (Body : Expression) (URL : Expression) (Headers : Expression)
    (Target : string)
| PutStatement (Body : Expression) (URL : Expression) (Headers : Expression)
    (Target : string)
| DeleteStatement (URL : Expression) (Headers : Expression) (Target : string)
| ParseJsonStatement (Source : Expression) (Target : string)
| EncodeJsonStatement (Source : Expression) (Target : string)
| ServeStatement (Port : Expression) (Background : bool)
| WhenRouteStatement (Method : string) (Path : Expression)
    (RequestVar : option string) (Body : BlockStatement)
| RouteToStatement (Path : Expression) (Handler : string)
| ReplyStatement (Body : Expression) (AsJson : bool) (StatusCode : Expression)
    (Headers : list (Expression * Expression))
| StopServerStatement (Port : Expression)
with BlockStatement : Type :=
| Block (Statements : list Statement).

Record Program : Type := { Statements : list Statement }.

Definition block_statements (b : BlockStatement) : list Statement :=
  match b with Block ss => ss end.

End ast.

(** ** The parser (parser/parser.go) *)

Module parser.

Import token ast.

(** Modelled from the spec: the lexer (lexer/lexer.go) hands out one token
    per call of [NextToken] and the sentinel [EOF] once the source is
    exhausted.  The parser only ever sees the lexer through [NextToken], so
    the lexer is the list of the tokens it has still to deliver. *)
Definition Lexer : Set := list Token.

Definition eofToken : Token :=
  {| Typ := EOF; Literal := EmptyString; Line := 0; Column := 0 |}.

Definition NextToken (lx : Lexer) : Token * Lexer :=
  match lx with
  | [] => (eofToken, [])
  | t :: rest => (t, rest)
  end.

(** A diagnostic, kept structured; the source formats it into
    [line N: expected next token to be X, got Y instead] and the like. *)
Inductive ParseError : Set :=
| ExpectedNext (line : Z) (expected got : TokenType)
| NotInteger (literal : string)
| ExpectedRouteMethod (line : Z) (got : TokenType)
| ExpectedAt (line : Z) (got : TokenType).

Record Parser : Set := {
  l : Lexer;
  curToken : Token;
  peekToken : Token;
  errors : list ParseError
}.

(** Parser actions thread the parser; [None] is an exhausted recursion
    budget, never a parse failure (those are diagnostics and nil nodes). *)
Definition P (A : Type) : Type := Parser -> option (A * Parser).

Definition ret {A} (a : A) : P A := fun p => Some (a, p).
Definition bind {A B} (m : P A) (k : A -> P B) : P B :=
  fun p => match m p with
           | Some (a, p') => k a p'
           | None => None
           end.
Definition out_of_fuel {A} : P A := fun _ => None.
Definition get : P Parser := fun p => Some (p, p).

Declare Scope parser_scope.
Notation "x ← y ; z" := (bind y (fun x => z))
  (at level 20, y at level 100, z at level 200, only parsing) : parser_scope.
Notation "x ;; z" := (bind x (fun _ => z))
  (at level 100, z at level 200, only parsing, right associativity) : parser_scope.
Local Open Scope parser_scope.

Definition nextToken : P unit := fun p =>
  let (t, lx) := NextToken (l p) in
  Some (tt, {| l := lx; curToken := peekToken p; peekToken := t;
               errors := errors p |}).

Definition New (lx : Lexer) : Parser :=
  let p := {| l := lx; curToken := eofToken; peekToken := eofToken;
              errors := [] |} in
  match (nextToken ;; nextToken) p with
  | Some (_, p') => p'
  | None => p
  end.

Definition curTokenIs (t : TokenType) : P bool :=
  fun p => Some (eqb (Typ (curToken p)) t, p).

Definition peekTokenIs (t : TokenType) : P bool :=
  fun p => Some (eqb (Typ (peekToken p)) t, p).

Definition addError (e : ParseError) : P unit := fun p =>
  Some (tt, {| l := l p; curToken := curToken p; peekToken := peekToken p;
               errors := errors p ++ [e] |}).

Definition peekError (t : TokenType) : P unit :=
  p ← get;
  addError (ExpectedNext (Line (peekToken p)) t (Typ (peekToken p))).

Definition expectPeek (t : TokenType) : P bool :=
  b ← peekTokenIs t;
  if b then nextToken ;; ret true
  else peekError t ;; ret false.

(** [strconv.ParseInt(s, 10, 64)]: an optional sign, then one or more
    decimal digits, and a value that fits [int64]. *)
Definition digit_value (c : ascii) : option Z :=
  let n := Z.of_nat (nat_of_ascii c) in
  if (48 <=? n) && (n <=? 57) then Some (n - 48) else None.

Fixpoint digits_value (acc : Z) (s : string) : option Z :=
  match s with
  | EmptyString => Some acc
  | String c s' =>
      match digit_value c with
      | Some d => digits_value (10 * acc + d) s'
      | None => None
      end
  end.

Definition ParseInt (s : string) : option Z :=
  let unsigned (neg : bool) (ds : string) :=
    match ds with
    | EmptyString => None
    | _ => match digits_value 0 ds with
           | Some v => let z := if neg then - v else v in
                       if (MinInt64 <=? z) && (z <=? MaxInt64) then Some z
                       else None
           | None => None
           end
    end in
  match s with
  | String "+"%char ds => unsigned false ds
  | String "-"%char ds => unsigned true ds
  | _ => unsigned false s
  end.

(** *** Compound numbers *)

Fixpoint parseCompoundNumber_loop (fuel : nat) (total current : Z) : P Z :=
  match fuel with
  | O => out_of_fuel
  | S fuel' =>
      p ← get;
      let ty := Typ (curToken p) in
      if IsNumberWord ty then
        let wordValue := NumberWordValue ty in
        let '(total, current) :=
          if IsMultiplier ty then
            let current := if current =? 0 then 1 else current in
            if eqb ty MILLION then (add64 total (mul64 current wordValue), 0)
            else if eqb ty THOUSAND then (add64 total (mul64 current wordValue), 0)
            else if eqb ty HUNDRED then (total, mul64 current wordValue)
            else (total, current)
          else (total, add64 current wordValue) in
        if negb (IsNumberWord (Typ (peekToken p))) then
          ret (add64 total current)
        else
          nextToken ;; parseCompoundNumber_loop fuel' total current
      else ret (add64 total current)
  end.

Definition parseCompoundNumber (fuel : nat) : P Z :=
  parseCompoundNumber_loop fuel 0 0.

Definition parseNumberWord (fuel : nat) : P Expression :=
  value ← parseCompoundNumber fuel;
  ret (IntegerLiteral value).

(** *** Primary expressions.  [parsePrimary] is the recursive call. *)

Section Primary.

Variable fuel : nat.
Variable parsePrimary : P Expression.

(** The [for p.peekTokenIs(token.AND)] loop of a call's arguments and of a
    list literal's elements. *)
Fixpoint parseAndPrimaries (n : nat) (acc : list Expression) : P (list Expression) :=
  match n with
  | O => out_of_fuel
  | S n' =>
      b ← peekTokenIs AND;
      if b then
        nextToken ;; nextToken ;;
        arg ← parsePrimary;
        parseAndPrimaries n' (acc ++ [arg])
      else ret acc
  end.

Definition parseCallExpression (fn : string) : P Expression :=
  nextToken ;; nextToken ;;
  arg ← parsePrimary;
  args ← parseAndPrimaries fuel [arg];
  ret (CallExpression fn args).

Definition parseListLiteral : P Expression :=
  ok ← expectPeek LIST;
  if negb ok then ret NilPtrExpression else
  ok ← expectPeek OF;
  if negb ok then ret NilPtrExpression else
  nextToken ;;
  elem ← parsePrimary;
  elems ← parseAndPrimaries fuel [elem];
  ret (ListLiteral elems).

Definition parseLengthExpression : P Expression :=
  nextToken ;; nextToken ;;
  e ← parsePrimary;
  ret (LengthExpression e).

Definition parseIndexExpression : P Expression :=
  nextToken ;;
  index ← parsePrimary;
  ok ← expectPeek FROM;
  if negb ok then ret NilPtrExpression else
  nextToken ;;
  lst ← parsePrimary;
  ret (IndexExpression index lst).

Definition parseBodyOfExpression : P Expression :=
  nextToken ;; nextToken ;;
  e ← parsePrimary;
  ret (BodyOfExpression e).

Definition parseStatusOfExpression : P Expression :=
  nextToken ;; nextToken ;;
  e ← parsePrimary;
  ret (StatusOfExpression e).

Definition parseHeaderFromExpression : P Expression :=
  nextToken ;;
  name ← parsePrimary;
  ok ← expectPeek FROM;
  if negb ok then ret NilPtrExpression else
  nextToken ;;
  resp ← parsePrimary;
  ret (HeaderFromExpression name resp).

Definition parseFieldFromExpression : P Expression :=
  nextToken ;;
  name ← parsePrimary;
  ok ← expectPeek FROM;
  if negb ok then ret NilPtrExpression else
  nextToken ;;
  src ← parsePrimary;
  ret (FieldFromExpression name src).

Definition parseMethodOfExpression : P Expression :=
  nextToken ;; nextToken ;;
  e ← parsePrimary;
  ret (MethodOfExpression e).

Definition parsePathOfExpression : P Expression :=
  nextToken ;; nextToken ;;
  e ← parsePrimary;
  ret (PathOfExpression e).

Definition parseQueryFromExpression : P Expression :=
  nextToken ;;
  name ← parsePrimary;
  ok ← expectPeek FROM;
  if negb ok then ret NilPtrExpression else
  nextToken ;;
  req ← parsePrimary;
  ret (QueryFromExpression name req).

Definition parsePrimary_body : P Expression :=
  p ← get;
  let cur := Typ (curToken p) in
  let peek := Typ (peekToken p) in
  if eqb cur MINUS then
    nextToken ;;
    value ← parsePrimary;
    ret (NegativeExpression value)
  else if eqb cur STRING then ret (StringLiteral (Literal (curToken p)))
  else if eqb cur A && eqb peek LIST then parseListLiteral
  else if eqb cur LENGTH && eqb peek OF then parseLengthExpression
  else if eqb cur ITEM then parseIndexExpression
  else if eqb cur BODY && eqb peek OF then parseBodyOfExpression
  else if eqb cur STATUS && eqb peek OF then parseStatusOfExpression
  else if eqb cur HEADER then parseHeaderFromExpression
  else if eqb cur FIELD then parseFieldFromExpression
  else if eqb cur METHOD && eqb peek OF then parseMethodOfExpression
  else if eqb cur PATH && eqb peek OF then parsePathOfExpression
  else if eqb cur QUERY then parseQueryFromExpression
  else if IsNumberWord cur then parseNumberWord fuel
  else if eqb cur NUMBER then
    match ParseInt (Literal (curToken p)) with
    | Some value => ret (IntegerLiteral value)
    | None => addError (NotInteger (Literal (curToken p))) ;; ret ENil
    end
  else if eqb cur IDENT then
    if eqb peek WITH then parseCallExpression (Literal (curToken p))
    else ret (Identifier (Literal (curToken p)))
  else ret ENil.

End Primary.

Fixpoint parsePrimary (fuel : nat) : P Expression :=
  match fuel with
  | O => out_of_fuel
  | S fuel' => parsePrimary_body fuel' (parsePrimary fuel')
  end.

(** *** Binary operators, by precedence *)

(** The loop of [parseTerm]: [times] and [divided by] chains. *)
Fixpoint parseTerm_loop (fuel n : nat) (left : Expression) : P Expression :=
  match n with
  | O => out_of_fuel
  | S n' =>
      p ← get;
      let peek := Typ (peekToken p) in
      if eqb peek TIMES || eqb peek DIVIDED then
        nextToken ;;
        p ← get;
        let op := Literal (curToken p) in
        ok ← (if String.eqb op "divided" then expectPeek BY else ret true);
        if negb ok then ret ENil else
        nextToken ;;
        right ← parsePrimary fuel;
        parseTerm_loop fuel n' (ArithmeticExpression left op right)
      else ret left
  end.

Definition parseTerm (fuel : nat) : P Expression :=
  left ← parsePrimary fuel;
  parseTerm_loop fuel fuel left.

(** The loop of [parseArithmeticExpression]: [plus] and [minus] chains. *)
Fixpoint parseArithmeticExpression_loop (fuel n : nat) (left : Expression)
  : P Expression :=
  match n with
  | O => out_of_fuel
  | S n' =>
      p ← get;
      let peek := Typ (peekToken p) in
      if eqb peek PLUS || eqb peek MINUS then
        nextToken ;;
        p ← get;
        let op := Literal (curToken p) in
        nextToken ;;
        right ← parseTerm fuel;
        parseArithmeticExpression_loop fuel n' (ArithmeticExpression left op right)
      else ret left
  end.

Definition parseArithmeticExpression (fuel : nat) : P Expression :=
  left ← parseTerm fuel;
  parseArithmeticExpression_loop fuel fuel left.

(** [parseExpression] is the entry point every statement other than [if]
    and [while] uses for its operands. *)
Definition parseExpression (fuel : nat) : P Expression :=
  parseArithmeticExpression fuel.

Definition parseComparison (fuel : nat) : P Expression :=
  left ← parseArithmeticExpression fuel;
  isEquals ← peekTokenIs EQUALS;
  if isEquals then
    nextToken ;; nextToken ;;
    right ← parseArithmeticExpression fuel;
    ret (ComparisonExpression left "equals" right)
  else
    isIs ← peekTokenIs IS;
    if isIs then
      nextToken ;;
      isGreater ← peekTokenIs GREATER;
      if isGreater then
        nextToken ;;
        ok ← expectPeek THAN;
        if negb ok then ret ENil else
        nextToken ;;
        right ← parseArithmeticExpression fuel;
        ret (ComparisonExpression left "greater" right)
      else
        isLess ← peekTokenIs LESS;
        if isLess then
          nextToken ;;
          ok ← expectPeek THAN;
          if negb ok then ret ENil else
          nextToken ;;
          right ← parseArithmeticExpression fuel;
          ret (ComparisonExpression left "less" right)
        else ret left
    else ret left.

Fixpoint parseLogicalNot (fuel : nat) : P Expression :=
  match fuel with
  | O => out_of_fuel
  | S fuel' =>
      isNot ← curTokenIs NOT;
      if isNot then
        nextToken ;;
        right ← parseLogicalNot fuel';
        ret (LogicalExpression ENil "not" right)
      else parseComparison fuel'
  end.

Fixpoint parseLogicalAnd_loop (fuel n : nat) (left : Expression) : P Expression :=
  match n with
  | O => out_of_fuel
  | S n' =>
      isAnd ← peekTokenIs AND;
      if isAnd then
        nextToken ;; nextToken ;;
        right ← parseLogicalNot fuel;
        parseLogicalAnd_loop fuel n' (LogicalExpression left "and" right)
      else ret left
  end.

Definition parseLogicalAnd (fuel : nat) : P Expression :=
  left ← parseLogicalNot fuel;
  parseLogicalAnd_loop fuel fuel left.

Fixpoint parseLogicalOr_loop (fuel n : nat) (left : Expression) : P Expression :=
  match n with
  | O => out_of_fuel
  | S n' =>
      isOr ← peekTokenIs OR;
      if isOr then
        nextToken ;; nextToken ;;
        right ← parseLogicalAnd fuel;
        parseLogicalOr_loop fuel n' (LogicalExpression left "or" right)
      else ret left
  end.

Definition parseLogicalOr (fuel : nat) : P Expression :=
  left ← parseLogicalAnd fuel;
  parseLogicalOr_loop fuel fuel left.

(** [parseCondition] parses comparison and logical expressions; only
    [parseIfStatement] and [parseWhileStatement] call it. *)
Definition parseCondition (fuel : nat) : P Expression :=
  parseLogicalOr fuel.

(** *** Statements.  [parseStatement] is the recursive call; it yields
    [None] for the nil interface (no statement starts at this token). *)

Section Statements.

Variable fuel : nat.
Variable parseStatement : P (option Statement).

Fixpoint parseBlockStatement_loop (n : nat) (acc : list Statement)
  : P (list Statement) :=
  match n with
  | O => out_of_fuel
  | S n' =>
      p ← get;
      let cur := Typ (curToken p) in
      if negb (eqb cur DONE) && negb (eqb cur OTHERWISE) && negb (eqb cur EOF) then
        stmt ← parseStatement;
        let acc := match stmt with Some s => acc ++ [s] | None => acc end in
        nextToken ;;
        parseBlockStatement_loop n' acc
      else ret acc
  end.

Definition parseBlockStatement : P BlockStatement :=
  stmts ← parseBlockStatement_loop fuel [];
  ret (Block stmts).

Definition parseSetStatement : P Statement :=
  ok ← expectPeek IDENT;
  if negb ok then ret NilPtrStatement else
  p ← get;
  let name := Literal (curToken p) in
  ok ← expectPeek TO;
  if negb ok then ret NilPtrStatement else
  nextToken ;;
  value ← parseExpression fuel;
  ret (SetStatement name value).

Definition parseIncreaseStatement : P Statement :=
  ok ← expectPeek IDENT;
  if negb ok then ret NilPtrStatement else
  p ← get;
  let target := Literal (curToken p) in
  ok ← expectPeek BY;
  if negb ok then ret NilPtrStatement else
  nextToken ;;
  amount ← parseExpression fuel;
  ret (IncreaseStatement target amount).

Definition parseDecreaseStatement : P Statement :=
  ok ← expectPeek IDENT;
  if negb ok then ret NilPtrStatement else
  p ← get;
  let target := Literal (curToken p) in
  ok ← expectPeek BY;
  if negb ok then ret NilPtrStatement else
  nextToken ;;
  amount ← parseExpression fuel;
  ret (DecreaseStatement target amount).

Definition parseIfStatement : P Statement :=
  nextToken ;;
  condition ← parseCondition fuel;
  ok ← expectPeek THEN;
  if negb ok then ret NilPtrStatement else
  nextToken ;;
  consequence ← parseBlockStatement;
  hasElse ← peekTokenIs OTHERWISE;
  if hasElse then
    nextToken ;; nextToken ;;
    alternative ← parseBlockStatement;
    ret (IfStatement condition consequence (Some alternative))
  else ret (IfStatement condition consequence None).

Definition parseWhileStatement : P Statement :=
  nextToken ;;
  condition ← parseCondition fuel;
  ok ← expectPeek DO;
  if negb ok then ret NilPtrStatement else
  nextToken ;;
  body ← parseBlockStatement;
  ret (WhileStatement condition body).

Definition parseForStatement : P Statement :=
  ok ← expectPeek EACH;
  if negb ok then ret NilPtrStatement else
  ok ← expectPeek IDENT;
  if negb ok then ret NilPtrStatement else
  p ← get;
  let variable := Literal (curToken p) in
  ok ← expectPeek IN;
  if negb ok then ret NilPtrStatement else
  nextToken ;;
  iterable ← parsePrimary fuel;
  ok ← expectPeek DO;
  if negb ok then ret NilPtrStatement else
  nextToken ;;
  body ← parseBlockStatement;
  ret (ForStatement variable iterable body).

(** The [for p.peekTokenIs(token.AND)] loop of a parameter list. *)
Fixpoint parseParameters_loop (n : nat) (acc : list string) : P (list string) :=
  match n with
  | O => out_of_fuel
  | S n' =>
      isAnd ← peekTokenIs AND;
      if isAnd then
        nextToken ;; nextToken ;;
        p ← get;
        parseParameters_loop n' (acc ++ [Literal (curToken p)])
      else ret acc
  end.

Definition parseFunctionDefinition : P Statement :=
  ok ← expectPeek IDENT;
  if negb ok then ret NilPtrStatement else
  p ← get;
  let name := Literal (curToken p) in
  hasParams ← peekTokenIs WITH;
  params ← (if hasParams then
              nextToken ;; nextToken ;;
              p ← get;
              parseParameters_loop fuel [Literal (curToken p)]
            else ret []);
  nextToken ;;
  body ← parseBlockStatement;
  ret (FunctionDefinition name params body).

Definition parseReturnStatement : P Statement :=
  nextToken ;;
  p ← get;
  let cur := Typ (curToken p) in
  if negb (eqb cur DONE) && negb (eqb cur EOF) then
    value ← parseExpression fuel;
    ret (ReturnStatement value)
  else ret (ReturnStatement ENil).

Definition parseSayStatement : P Statement :=
  nextToken ;;
  value ← parseExpression fuel;
  ret (SayStatement value).

Definition parseAskStatement : P Statement :=
  ok ← expectPeek INTO;
  if negb ok then ret NilPtrStatement else
  ok ← expectPeek IDENT;
  if negb ok then ret NilPtrStatement else
  p ← get;
  ret (AskStatement (Literal (curToken p))).

Definition parseAppendStatement : P Statement :=
  nextToken ;;
  value ← parseExpression fuel;
  ok ← expectPeek TO;
  if negb ok then ret NilPtrStatement else
  ok ← expectPeek IDENT;
  if negb ok then ret NilPtrStatement else
  p ← get;
  ret (AppendStatement value (Literal (curToken p))).

(** The optional [with headers] clause of the client verbs. *)
Definition parseOptionalHeaders : P Expression :=
  hasHeaders ← peekTokenIs WITH;
  if hasHeaders then
    nextToken ;; nextToken ;;
    parseExpression fuel
  else ret ENil.

(** The closing [into target] of the client verbs and the JSON statements. *)
Definition parseIntoTarget : P (option string) :=
  ok ← expectPeek INTO;
  if negb ok then ret None else
  ok ← expectPeek IDENT;
  if negb ok then ret None else
  p ← get;
  ret (Some (Literal (curToken p))).

Definition parseFetchStatement : P Statement :=
  ok ← expectPeek FROM;
  if negb ok then ret NilPtrStatement else
  nextToken ;;
  url ← parseExpression fuel;
  headers ← parseOptionalHeaders;
  target ← parseIntoTarget;
  match target with
  | Some t => ret (FetchStatement url headers t)
  | None => ret NilPtrStatement
  end.

Definition parseSendStatement : P Statement :=
  nextToken ;;
  body ← parseExpression fuel;
  ok ← expectPeek TO;
  if negb ok then ret NilPtrStatement else
  nextToken ;;
  url ← parseExpression fuel;
  headers ← parseOptionalHeaders;
  target ← parseIntoTarget;
  match target with
  | Some t => ret (SendStatement body url headers t)
  | None => ret NilPtrStatement
  end.

Definition parsePutStatement : P Statement :=
  nextToken ;;
  body ← parseExpression fuel;
  ok ← expectPeek TO;
  if negb ok then ret NilPtrStatement else
  nextToken ;;
  url ← parseExpression fuel;
  headers ← parseOptionalHeaders;
  target ← parseIntoTarget;
  match target with
  | Some t => ret (PutStatement body url headers t)
  | None => ret NilPtrStatement
  end.

Definition parseDeleteStatement : P Statement :=
  ok ← expectPeek FROM;
  if negb ok then ret NilPtrStatement else
  nextToken ;;
  url ← parseExpression fuel;
  headers ← parseOptionalHeaders;
  target ← parseIntoTarget;
  match target with
  | Some t => ret (DeleteStatement url headers t)
  | None => ret NilPtrStatement
  end.

(** The [as json into target] tail shared by [parse] and [encode]. *)
Definition parseAsJsonInto : P (option string) :=
  ok ← expectPeek AS;
  if negb ok then ret None else
  ok ← expectPeek JSON;
  if negb ok then ret None else
  parseIntoTarget.

Definition parseParseJsonStatement : P Statement :=
  nextToken ;;
  source ← parseExpression fuel;
  target ← parseAsJsonInto;
  match target with
  | Some t => ret (ParseJsonStatement source t)
  | None => ret NilPtrStatement
  end.

Definition parseEncodeJsonStatement : P Statement :=
  nextToken ;;
  source ← parseExpression fuel;
  target ← parseAsJsonInto;
  match target with
  | Some t => ret (EncodeJsonStatement source t)
  | None => ret NilPtrStatement
  end.

Definition parseServeStatement : P Statement :=
  ok ← expectPeek ON;
  if negb ok then ret NilPtrStatement else
  nextToken ;;
  port ← parseExpression fuel;
  hasIn ← peekTokenIs IN;
  if hasIn then
    nextToken ;;
    hasBackground ← peekTokenIs BACKGROUND;
    if hasBackground then nextToken ;; ret (ServeStatement port true)
    else ret (ServeStatement port false)
  else ret (ServeStatement port false).

Definition routeMethod (t : TokenType) : option string :=
  match t with
  | REQUEST => Some EmptyString
  | GET => Some "GET"%string
  | SEND => Some "POST"%string
  | PUT => Some "PUT"%string
  | DELETE => Some "DELETE"%string
  | FETCH => Some "GET"%string
  | _ => None
  end.

Definition parseWhenRouteStatement : P Statement :=
  nextToken ;;
  p ← get;
  match routeMethod (Typ (curToken p)) with
  | None =>
      addError (ExpectedRouteMethod (Line (curToken p)) (Typ (curToken p))) ;;
      ret NilPtrStatement
  | Some method =>
      nextToken ;;
      p ← get;
      if negb (eqb (Typ (curToken p)) AT) then
        addError (ExpectedAt (Line (curToken p)) (Typ (curToken p))) ;;
        ret NilPtrStatement
      else
        nextToken ;;
        path ← parseExpression fuel;
        hasUsing ← peekTokenIs USING;
        reqVar ← (if hasUsing then
                    nextToken ;;
                    ok ← expectPeek IDENT;
                    if negb ok then ret None else
                    p ← get;
                    ret (Some (Some (Literal (curToken p))))
                  else ret (Some None));
        match reqVar with
        | None => ret NilPtrStatement
        | Some requestVar =>
            ok ← expectPeek DO;
            if negb ok then ret NilPtrStatement else
            nextToken ;;
            body ← parseBlockStatement;
            ret (WhenRouteStatement method path requestVar body)
        end
  end.

Definition parseRouteToStatement : P Statement :=
  nextToken ;;
  path ← parseExpression fuel;
  ok ← expectPeek TO;
  if negb ok then ret NilPtrStatement else
  ok ← expectPeek IDENT;
  if negb ok then ret NilPtrStatement else
  p ← get;
  ret (RouteToStatement path (Literal (curToken p))).

(** The modifier loop of [reply]: [with status N] and
    [with header X as Y]; [None] is the nil statement. *)
Fixpoint parseReplyModifiers (n : nat) (status : Expression)
  (headers : list (Expression * Expression))
  : P (option (Expression * list (Expression * Expression))) :=
  match n with
  | O => out_of_fuel
  | S n' =>
      hasWith ← peekTokenIs WITH;
      if hasWith then
        nextToken ;; nextToken ;;
        p ← get;
        let cur := Typ (curToken p) in
        if eqb cur STATUS then
          nextToken ;;
          status ← parseExpression fuel;
          parseReplyModifiers n' status headers
        else if eqb cur HEADER then
          nextToken ;;
          headerName ← parseExpression fuel;
          ok ← expectPeek AS;
          if negb ok then ret None else
          nextToken ;;
          headerValue ← parseExpression fuel;
          parseReplyModifiers n' status (headers ++ [(headerName, headerValue)])
        else parseReplyModifiers n' status headers
      else ret (Some (status, headers))
  end.

Definition parseReplyStatement : P Statement :=
  ok ← expectPeek WITH;
  if negb ok then ret NilPtrStatement else
  nextToken ;;
  body ← parseExpression fuel;
  hasAs ← peekTokenIs AS;
  asJson ← (if hasAs then
              nextToken ;;
              hasJson ← peekTokenIs JSON;
              if hasJson then nextToken ;; ret true else ret false
            else ret false);
  mods ← parseReplyModifiers fuel ENil [];
  match mods with
  | Some (status, headers) => ret (ReplyStatement body asJson status headers)
  | None => ret NilPtrStatement
  end.

Definition parseStopServerStatement : P Statement :=
  ok ← expectPeek SERVER;
  if negb ok then ret NilPtrStatement else
  hasOn ← peekTokenIs ON;
  if hasOn then
    nextToken ;; nextToken ;;
    port ← parseExpression fuel;
    ret (StopServerStatement port)
  else ret (StopServerStatement ENil).

Definition some_statement (m : P Statement) : P (option Statement) :=
  s ← m; ret (Some s).

Definition parseStatement_body : P (option Statement) :=
  p ← get;
  match Typ (curToken p) with
  | SET => some_statement parseSetStatement
  | INCREASE => some_statement parseIncreaseStatement
  | DECREASE => some_statement parseDecreaseStatement
  | IF => some_statement parseIfStatement
  | WHILE => some_statement parseWhileStatement
  | FOR => some_statement parseForStatement
  | TO => some_statement parseFunctionDefinition
  | RETURN => some_statement parseReturnStatement
  | SAY => some_statement parseSayStatement
  | ASK => some_statement parseAskStatement
  | APPEND => some_statement parseAppendStatement
  | FETCH => some_statement parseFetchStatement
  | SEND => some_statement parseSendStatement
  | PUT => some_statement parsePutStatement
  | DELETE => some_statement parseDeleteStatement
  | PARSE => some_statement parseParseJsonStatement
  | ENCODE => some_statement parseEncodeJsonStatement
  | SERVE => some_statement parseServeStatement
  | WHEN => some_statement parseWhenRouteStatement
  | ROUTE => some_statement parseRouteToStatement
  | REPLY => some_statement parseReplyStatement
  | STOP => some_statement parseStopServerStatement
  | _ => ret None
  end.

End Statements.

Fixpoint parseStatement (fuel : nat) : P (option Statement) :=
  match fuel with
  | O => out_of_fuel
  | S fuel' => parseStatement_body fuel' (parseStatement fuel')
  end.

Fixpoint ParseProgram_loop (fuel n : nat) (acc : list Statement)
  : P (list Statement) :=
  match n with
  | O => out_of_fuel
  | S n' =>
      atEnd ← curTokenIs EOF;
      if atEnd then ret acc else
      stmt ← parseStatement fuel;
      let acc := match stmt with Some s => acc ++ [s] | None => acc end in
      nextToken ;;
      ParseProgram_loop fuel n' acc
  end.

Definition ParseProgram (fuel : nat) : P Program :=
  stmts ← ParseProgram_loop fuel fuel [];
  ret {| Statements := stmts |}.

(** *** The compound-number recipe, as the specification words it

    Two accumulators [total] and [current]; a multiplier seen with
    [current = 0] first takes [current] as [1]; [hundred] multiplies
    [current]; [thousand] and [million] flush [current * value] into [total]
    and reset [current]; any other word adds its value to [current].  The
    arithmetic is the host's [int64] arithmetic. *)

Definition compound_step (acc : Z * Z) (t : TokenType) : Z * Z :=
  let '(total, current) := acc in
  if IsMultiplier t then
    let current := if current =? 0 then 1 else current in
    match t with
    | HUNDRED => (total, mul64 current 100)
    | _ => (add64 total (mul64 current (NumberWordValue t)), 0)
    end
  else (total, add64 current (NumberWordValue t)).

Definition compound_value (ws : list TokenType) : Z :=
  let '(total, current) := fold_left compound_step ws (0, 0) in
  add64 total current.

(** *** Which operators an expression uses

    [arith_only e] holds when no comparison and no logical operator occurs
    anywhere in [e]; [operands_arith s] holds when every operand of [s] other
    than the condition of an [if] or a [while] is such an expression, in [s]
    and in the statements of its blocks. *)

Fixpoint arith_only (e : Expression) : bool :=
  match e with
  | ENil | NilPtrExpression | Identifier _ | IntegerLiteral _
  | StringLiteral _ | BooleanLiteral _ => true
  | ListLiteral es => forallb arith_only es
  | ArithmeticExpression a _ b => arith_only a && arith_only b
  | ComparisonExpression _ _ _ => false
  | LogicalExpression _ _ _ => false
  | CallExpression _ args => forallb arith_only args
  | LengthExpression a => arith_only a
  | IndexExpression a b => arith_only a && arith_only b
  | NegativeExpression a => arith_only a
  | BodyOfExpression a => arith_only a
  | StatusOfExpression a => arith_only a
  | HeaderFromExpression a b => arith_only a && arith_only b
  | FieldFromExpression a b => arith_only a && arith_only b
  | MethodOfExpression a => arith_only a
  | PathOfExpression a => arith_only a
  | QueryFromExpression a b => arith_only a && arith_only b
  end.

Definition header_pair_arith (h : Expression * Expression) : bool :=
  arith_only (fst h) && arith_only (snd h).

Fixpoint operands_arith (s : Statement) : bool :=
  let block_ok (b : BlockStatement) :=
    match b with Block ss => forallb operands_arith ss end in
  match s with
  | NilPtrStatement => true
  | SetStatement _ v => arith_only v
  | IncreaseStatement _ a => arith_only a
  | DecreaseStatement _ a => arith_only a
  | IfStatement _ c alt =>
      block_ok c && match alt with Some b => block_ok b | None => true end
  | WhileStatement _ b => block_ok b
  | ForStatement _ it b => arith_only it && block_ok b
  | FunctionDefinition _ _ b => block_ok b
  | ReturnStatement v => arith_only v
  | SayStatement v => arith_only v
  | AskStatement _ => true
  | AppendStatement v _ => arith_only v
  | FetchStatement u h _ => arith_only u && arith_only h
  | SendStatement b u h _ => arith_only b && arith_only u && arith_only h
  | PutStatement b u h _ => arith_only b && arith_only u && arith_only h
  | DeleteStatement u h _ => arith_only u && arith_only h
  | ParseJsonStatement src _ => arith_only src
  | EncodeJsonStatement src _ => arith_only src
  | ServeStatement port _ => arith_only port
  | WhenRouteStatement _ path _ b => arith_only path && block_ok b
  | RouteToStatement path _ => arith_only path
  | ReplyStatement b _ st hs =>
      arith_only b && arith_only st && forallb header_pair_arith hs
  | StopServerStatement port => arith_only port
  end.

Definition block_operands_arith (b : BlockStatement) : bool :=
  forallb operands_arith (block_statements b).

(** The tokens a parser is about to see: its two lookahead tokens, what the
    lexer still holds, and the [EOF] the lexer answers once exhausted. *)
Definition upcoming (p : Parser) : list Token :=
  curToken p :: peekToken p :: l p ++ [eofToken].

Definition is_number_word (t : Token) : Prop := IsNumberWord (Typ t) = true.

(** *** Predicates and sample inputs for the properties below *)

(** [yields Q m]: whatever the action [m] returns satisfies [Q]. *)

Definition yields {A} (Q : A -> Prop) (m : P A) : Prop :=
  forall p a p', m p = Some (a, p') -> Q a.

Definition arith (e : Expression) : Prop := arith_only e = true.
Definition ariths (es : list Expression) : Prop := forallb arith_only es = true.
Definition stmt_ok (s : Statement) : Prop := operands_arith s = true.
Definition stmts_ok (ss : list Statement) : Prop := forallb operands_arith ss = true.
Definition block_ok (b : BlockStatement) : Prop := block_operands_arith b = true.
Definition opt_stmt_ok (o : option Statement) : Prop :=
  match o with Some s => stmt_ok s | None => True end.

Definition reply_mods_ok
  (r : option (Expression * list (Expression * Expression))) : Prop :=
  match r with
  | Some (st, hs) => arith st /\ forallb header_pair_arith hs = true
  | None => True
  end.

(** A number word as the lexer would deliver it. *)
Definition word (t : TokenType) (lit : string) : Token :=
  {| Typ := t; Literal := lit; Line := 1; Column := 1 |}.

Definition one_million_one : list Token :=
  [word ONE "one"; word MILLION "million"; word ONE "one"].

(** The tokens of [set x to a equals b] and of its operand. *)
Definition a_equals_b : list Token :=
  [word IDENT "a"; word EQUALS "equals"; word IDENT "b"].

Definition set_x_to_a_equals_b : list Token :=
  [word SET "set"; word IDENT "x"; word TO "to"] ++ a_equals_b.

(** *** Further predicates and sample inputs *)

(** [no_nil_pointer e]: no node of [e] is a nil pointer behind a non-nil
    interface; the nil interface itself ([ENil]) is allowed. *)
Fixpoint no_nil_pointer (e : Expression) : bool :=
  match e with
  | NilPtrExpression => false
  | ENil | Identifier _ | IntegerLiteral _ | StringLiteral _ | BooleanLiteral _ => true
  | ListLiteral es => forallb no_nil_pointer es
  | ArithmeticExpression a _ b => no_nil_pointer a && no_nil_pointer b
  | ComparisonExpression a _ b => no_nil_pointer a && no_nil_pointer b
  | LogicalExpression a _ b => no_nil_pointer a && no_nil_pointer b
  | CallExpression _ args => forallb no_nil_pointer args
  | LengthExpression a => no_nil_pointer a
  | IndexExpression a b => no_nil_pointer a && no_nil_pointer b
  | NegativeExpression a => no_nil_pointer a
  | BodyOfExpression a => no_nil_pointer a
  | StatusOfExpression a => no_nil_pointer a
  | HeaderFromExpression a b => no_nil_pointer a && no_nil_pointer b
  | FieldFromExpression a b => no_nil_pointer a && no_nil_pointer b
  | MethodOfExpression a => no_nil_pointer a
  | PathOfExpression a => no_nil_pointer a
  | QueryFromExpression a b => no_nil_pointer a && no_nil_pointer b
  end.

Definition header_pair_no_nil (h : Expression * Expression) : bool :=
  no_nil_pointer (fst h) && no_nil_pointer (snd h).

Fixpoint statement_no_nil_pointer (s : Statement) : bool :=
  let block (b : BlockStatement) :=
    match b with Block ss => forallb statement_no_nil_pointer ss end in
  match s with
  | NilPtrStatement => false
  | SetStatement _ v => no_nil_pointer v
  | IncreaseStatement _ a => no_nil_pointer a
  | DecreaseStatement _ a => no_nil_pointer a
  | IfStatement c t alt =>
      no_nil_pointer c && block t
      && match alt with Some b => block b | None => true end
  | WhileStatement c b => no_nil_pointer c && block b
  | ForStatement _ it b => no_nil_pointer it && block b
  | FunctionDefinition _ _ b => block b
  | ReturnStatement v => no_nil_pointer v
  | SayStatement v => no_nil_pointer v
  | AskStatement _ => true
  | AppendStatement v _ => no_nil_pointer v
  | FetchStatement u h _ => no_nil_pointer u && no_nil_pointer h
  | SendStatement b u h _ => no_nil_pointer b && no_nil_pointer u && no_nil_pointer h
  | PutStatement b u h _ => no_nil_pointer b && no_nil_pointer u && no_nil_pointer h
  | DeleteStatement u h _ => no_nil_pointer u && no_nil_pointer h
  | ParseJsonStatement src _ => no_nil_pointer src
  | EncodeJsonStatement src _ => no_nil_pointer src
  | ServeStatement port _ => no_nil_pointer port
  | WhenRouteStatement _ path _ b => no_nil_pointer path && block b
  | RouteToStatement path _ => no_nil_pointer path
  | ReplyStatement b _ st hs =>
      no_nil_pointer b && no_nil_pointer st && forallb header_pair_no_nil hs
  | StopServerStatement port => no_nil_pointer port
  end.

(** [accumulates m]: the action [m] only ever adds diagnostics. *)
Definition accumulates {A} (m : P A) : Prop :=
  forall p a p', m p = Some (a, p') -> errors p `prefix_of` errors p'.

(** [clean Q m]: when the action [m] ends with no diagnostic on record,
    what it returns satisfies [Q]. *)
Definition clean {A} (Q : A -> Prop) (m : P A) : Prop :=
  forall p a p', m p = Some (a, p') -> errors p' = [] -> Q a.

Definition sound (e : Expression) : Prop := no_nil_pointer e = true.
Definition sounds (es : list Expression) : Prop := forallb no_nil_pointer es = true.
Definition stmt_sound (s : Statement) : Prop := statement_no_nil_pointer s = true.
Definition stmts_sound (ss : list Statement) : Prop :=
  forallb statement_no_nil_pointer ss = true.
Definition block_sound (b : BlockStatement) : Prop :=
  forallb statement_no_nil_pointer (block_statements b) = true.
Definition opt_stmt_sound (o : option Statement) : Prop :=
  match o with Some s => stmt_sound s | None => True end.
Definition reply_mods_sound
  (r : option (Expression * list (Expression * Expression))) : Prop :=
  match r with
  | Some (st, hs) => sound st /\ forallb header_pair_no_nil hs = true
  | None => False
  end.

(** The program and the parser a run of [ParseProgram] ends with. *)
Definition program_after (r : option (Program * Parser)) : Program :=
  match r with
  | Some (prog, _) => prog
  | None => {| Statements := [] |}
  end.

Definition parser_after (r : option (Program * Parser)) : Parser :=
  match r with
  | Some (_, p) => p
  | None => New []
  end.

(** The tokens of [set 1], where a number stands for the name, and of a
    [say] with no operand. *)
Definition set_one : list Token := [word SET "set"; word NUMBER "1"].

Definition say_nothing : list Token := [word SAY "say"].

(** *** What is left to read

    The lexer delivers [EOF] once its input is exhausted and nothing after
    it: [well_formed p] says that the tokens the parser holds and has still
    to get carry the type [EOF] only at their end.  [pending p] counts the
    tokens that are not [EOF] among them. *)
Definition at_end (p : Parser) : bool := eqb (Typ (curToken p)) EOF.

Definition pending (p : Parser) : nat :=
  (length (l p)
   + (if eqb (Typ (peekToken p)) EOF then 0 else 1)
   + (if at_end p then 0 else 1))%nat.

Definition well_formed (p : Parser) : Prop :=
  Forall (fun t => Typ t <> EOF) (l p)
  /\ (Typ (peekToken p) = EOF -> l p = [])
  /\ (Typ (curToken p) = EOF -> Typ (peekToken p) = EOF).

(** The parser after [nextToken], and after [addError]. *)
Definition advance (p : Parser) : Parser :=
  {| l := tail (l p); curToken := peekToken p;
     peekToken := default eofToken (head (l p)); errors := errors p |}.

Definition with_error (p : Parser) (e : ParseError) : Parser :=
  {| l := l p; curToken := curToken p; peekToken := peekToken p;
     errors := errors p ++ [e] |}.

(** [finishes m p Q]: from [p] the action [m] returns, with a result and
    a parser that satisfy [Q]. *)
Definition finishes {A} (m : P A) (p : Parser) (Q : A -> Parser -> Prop) : Prop :=
  exists a p', m p = Some (a, p') /\ Q a p'.

(** [onward p p']: [p'] is well formed and has no more left to read than
    [p]. *)
Definition onward (p p' : Parser) : Prop :=
  well_formed p' /\ (pending p' <= pending p)%nat.

(** [total k m]: from every well-formed parser with fewer than [k] tokens
    left, [m] returns, well formed and with no more left. *)
Definition total {A} (k : nat) (m : P A) : Prop :=
  forall p, well_formed p -> (pending p < k)%nat ->
    finishes m p (fun _ p' => onward p p').

(** The token types at which [parseStatement] starts a statement: the cases
    of its [switch]. *)
Definition starts_statement (t : TokenType) : bool :=
  match t with
  | SET | INCREASE | DECREASE | IF | WHILE | FOR | TO | RETURN | SAY | ASK
  | APPEND | FETCH | SEND | PUT | DELETE | PARSE | ENCODE | SERVE | WHEN
  | ROUTE | REPLY | STOP => true
  | _ => false
  end.

(** A call written as a statement: [greet with 1]. *)
Definition bare_call : list Token :=
  [word IDENT "greet"; word WITH "with"; word NUMBER "1"].

Definition no_statement_ahead (p : Parser) : Prop :=
  starts_statement (Typ (curToken p)) = false
  /\ starts_statement (Typ (peekToken p)) = false
  /\ Forall (fun t => starts_statement (Typ t) = false) (l p).

End parser.


(** * Runtime values (object/object.go) *)

Module object.

Import ast.

#[local] Set Warnings "-register-all".

(** The host's JSON model: what [encoding/json] decodes into an
    [interface{}] (nil, bool, float64, string, slice, map) together with
    the [int64] that [objectToInterface] puts there for an Integer.  A
    float64 is a binary64 value of the Standard Library's specification of
    IEEE 754. *)
Inductive iface : Type :=
| INil
| IBool (b : bool)
| IFloat64 (f : SpecFloat.spec_float)
| IInt64 (z : Z)
| IString (s : string)
| IArray (elems : list iface)
| IMap (fields : gmap string iface).

(** Environments and lists are reached through pointers in the source;
    here a pointer is an address into the store of the interpreter. *)
Abbreviation addr := nat (only parsing).

Definition ObjectType : Set := string.

Definition INTEGER_OBJ : ObjectType := "INTEGER".
Definition STRING_OBJ : ObjectType := "STRING".
Definition BOOLEAN_OBJ : ObjectType := "BOOLEAN".
Definition NULL_OBJ : ObjectType := "NULL".
Definition RETURN_VALUE_OBJ : ObjectType := "RETURN_VALUE".
Definition ERROR_OBJ : ObjectType := "ERROR".
Definition FUNCTION_OBJ : ObjectType := "FUNCTION".
Definition LIST_OBJ : ObjectType := "LIST".
Definition RESPONSE_OBJ : ObjectType := "RESPONSE".
Definition JSON_OBJ : ObjectType := "JSON".
Definition REQUEST_OBJ : ObjectType := "REQUEST".
Definition SERVER_OBJ : ObjectType := "SERVER".
Definition REPLY_VALUE_OBJ : ObjectType := "REPLY_VALUE".

(** A value of the interface [object.Object].  [GoNil] is the nil
    interface, which [Eval] returns for a nil node; calling a method on it
    panics.  A [List_] is the pointer to a list whose elements live in the
    store (appending mutates it for every holder of the pointer); a
    [Function] holds the pointer to the environment it captured. *)
Inductive Object : Type :=
| GoNil
| Integer (Value : Z)
| String_ (Value : string)
| Boolean (Value : bool)
| Null
| ReturnValue (Value : Object)
| Error (Message : string)
| Function (Parameters : list string) (Body : BlockStatement) (Env : addr)
| List_ (ref : addr)
| Response (StatusCode : Z) (Body : string) (Headers : gmap string string)
| Json (Value : iface)
| Request (Method Path Body : string) (Headers QueryParams : gmap string string)
| Server (Port : Z) (Running : bool)
| ReplyValue (Body : string) (StatusCode : Z) (Headers : gmap string string).

(** [Type()]; [None] on the nil interface, where the call panics. *)
Definition TypeOf (o : Object) : option ObjectType :=
  match o with
  | GoNil => None
  | Integer _ => Some INTEGER_OBJ
  | String_ _ => Some STRING_OBJ
  | Boolean _ => Some BOOLEAN_OBJ
  | Null => Some NULL_OBJ
  | ReturnValue _ => Some RETURN_VALUE_OBJ
  | Error _ => Some ERROR_OBJ
  | Function _ _ _ => Some FUNCTION_OBJ
  | List_ _ => Some LIST_OBJ
  | Response _ _ _ => Some RESPONSE_OBJ
  | Json _ => Some JSON_OBJ
  | Request _ _ _ _ _ => Some REQUEST_OBJ
  | Server _ _ => Some SERVER_OBJ
  | ReplyValue _ _ _ => Some REPLY_VALUE_OBJ
  end.

(** An environment: its own bindings and the pointer to the enclosing one. *)
Record Environment : Type := {
  store : gmap string Object;
  outer : option addr
}.

(** The environments allocated so far; an address is an index. *)
Abbreviation EnvHeap := (list Environment) (only parsing).

(** [NewEnvironment] and [NewEnclosedEnvironment]: a fresh frame at the
    next free address. *)
Definition NewEnclosedEnvironment (o : option addr) (h : EnvHeap) : addr * EnvHeap :=
  (length h, h ++ [{| store := ∅; outer := o |}]).

Definition NewEnvironment (h : EnvHeap) : addr * EnvHeap :=
  NewEnclosedEnvironment None h.

(** [Get] walks the chain of enclosing frames.  A frame only ever
    encloses a frame allocated before it ([NewEnclosedEnvironment] is given
    an environment that exists), so the walk goes down the addresses and
    ends.  An address outside the store is a nil pointer; so is, here, an
    enclosing address that is not older than its frame, which the source
    cannot build.  [None] is the panic of a nil dereference; [Some None] is
    [ok = false]. *)
Fixpoint Get_walk (n : nat) (h : EnvHeap) (e : addr) (name : string)
  : option (option Object) :=
  match h !! e with
  | None => None
  | Some fr =>
      match store fr !! name with
      | Some obj => Some (Some obj)
      | None =>
          match outer fr with
          | None => Some None
          | Some o =>
              match n with
              | S n' => if (o <? e)%nat then Get_walk n' h o name else None
              | O => None
              end
          end
      end
  end.

Definition Get (h : EnvHeap) (e : addr) (name : string) : option (option Object) :=
  Get_walk e h e name.

(** [Set] writes the innermost frame only. *)
Definition Set_ (h : EnvHeap) (e : addr) (name : string) (val : Object)
  : option EnvHeap :=
  match h !! e with
  | None => None
  | Some fr => Some (<[e := {| store := <[name := val]> (store fr);
                               outer := outer fr |}]> h)
  end.

End object.

(** * The evaluator (interpreter/interpreter.go) *)

Module interpreter.

Import ast object.

(** ** The store and the outside world *)

(** A registered server; the listener handle itself belongs to the host. *)
Record ServerInfo : Set := {
  Port : Z;
  Running : bool
}.

(** A function value as a route keeps it ([*object.Function]). *)
Record Fn : Type := {
  Parameters : list string;
  FnBody : BlockStatement;
  Env : addr
}.

Record RouteHandler : Type := {
  Method : string;
  Path : string;
  Body : option BlockStatement;
  RequestVar : string;
  HandlerEnv : addr;
  HandlerFn : option Fn
}.

(** Everything the evaluator can read or write: the environments and the
    lists behind their pointers, standard output and input, the server and
    route registries with the default port, and the number of exchanges
    had with the outside world so far. *)
Record State : Type := {
  envs : EnvHeap;
  lists : list (list Object);
  stdout : list string;
  stdin : list (string + string);
  serverRegistry : gmap Z ServerInfo;
  routeRegistry : gmap Z (list RouteHandler);
  defaultPort : Z;
  exchanges : nat
}.

(** What the source takes from libraries and from the network.  Each
    exchange with the world is told its number, so that the world may
    answer the same question differently each time.
    - [json_Unmarshal], [json_Marshal]: [encoding/json], an error message
      on the right;
    - [http_Do]: one request of the shared HTTP client, given the method,
      the URL, the body and the header lines of the request, answered by
      status, body and headers, or by a transport error;
    - [ListenAndServe]: the error a foreground listener ends with ([None]
      for [http.ErrServerClosed]); [Shutdown]: the error of a shutdown;
    - [quote]: the verb [%q] of [fmt];
    - [block_String]: [String()] of a block (ast/ast.go), used to print a
      function value. *)
Record Host : Type := {
  json_Unmarshal : string -> iface + string;
  json_Marshal : iface -> string + string;
  http_Do : nat -> string -> string -> string -> option (list string) ->
            (Z * string * gmap string string) + string;
  ListenAndServe : nat -> Z -> option string;
  Shutdown : nat -> Z -> option string;
  quote : string -> string;
  block_String : BlockStatement -> string
}.

(** ** The evaluation monad: a result and the new store, a Go panic, or an
    exhausted recursion budget (the evaluation runs longer than the budget
    allows, possibly forever). *)
Inductive Result (A : Type) : Type :=
| Done (a : A) (st : State)
| Panicked
| OutOfFuel.

Arguments Done {A} a st.
Arguments Panicked {A}.
Arguments OutOfFuel {A}.

Definition M (A : Type) : Type := State -> Result A.

Definition ret {A} (a : A) : M A := fun st => Done a st.
Definition bind {A B} (m : M A) (k : A -> M B) : M B :=
  fun st => match m st with
            | Done a st' => k a st'
            | Panicked => Panicked
            | OutOfFuel => OutOfFuel
            end.
Definition panic {A} : M A := fun _ => Panicked.
Definition out_of_fuel {A} : M A := fun _ => OutOfFuel.
Definition get : M State := fun st => Done st st.
Definition modify (f : State -> State) : M unit := fun st => Done tt (f st).

Declare Scope eval_scope.
Notation "x ← y ; z" := (bind y (fun x => z))
  (at level 20, y at level 100, z at level 200, only parsing) : eval_scope.
Notation "x ;; z" := (bind x (fun _ => z))
  (at level 100, z at level 200, only parsing, right associativity) : eval_scope.
Local Open Scope eval_scope.

Definition with_envs (st : State) (h : EnvHeap) : State :=
  {| envs := h; lists := lists st; stdout := stdout st; stdin := stdin st;
     serverRegistry := serverRegistry st; routeRegistry := routeRegistry st;
     defaultPort := defaultPort st; exchanges := exchanges st |}.

Definition with_lists (st : State) (ls : list (list Object)) : State :=
  {| envs := envs st; lists := ls; stdout := stdout st; stdin := stdin st;
     serverRegistry := serverRegistry st; routeRegistry := routeRegistry st;
     defaultPort := defaultPort st; exchanges := exchanges st |}.

Definition with_stdout (st : State) (out : list string) : State :=
  {| envs := envs st; lists := lists st; stdout := out; stdin := stdin st;
     serverRegistry := serverRegistry st; routeRegistry := routeRegistry st;
     defaultPort := defaultPort st; exchanges := exchanges st |}.

Definition with_stdin (st : State) (inp : list (string + string)) : State :=
  {| envs := envs st; lists := lists st; stdout := stdout st; stdin := inp;
     serverRegistry := serverRegistry st; routeRegistry := routeRegistry st;
     defaultPort := defaultPort st; exchanges := exchanges st |}.

Definition with_registry (st : State) (srv : gmap Z ServerInfo)
  (rts : gmap Z (list RouteHandler)) (dp : Z) : State :=
  {| envs := envs st; lists := lists st; stdout := stdout st; stdin := stdin st;
     serverRegistry := srv; routeRegistry := rts;
     defaultPort := dp; exchanges := exchanges st |}.

Definition with_exchanges (st : State) (n : nat) : State :=
  {| envs := envs st; lists := lists st; stdout := stdout st; stdin := stdin st;
     serverRegistry := serverRegistry st; routeRegistry := routeRegistry st;
     defaultPort := defaultPort st; exchanges := n |}.

(** [env.Get] and [env.Set] on the environment at address [e]; a nil
    pointer panics. *)
Definition env_Get (e : addr) (name : string) : M (option Object) :=
  fun st => match Get (envs st) e name with
            | Some r => Done r st
            | None => Panicked
            end.

Definition env_Set (e : addr) (name : string) (val : Object) : M unit :=
  fun st => match Set_ (envs st) e name val with
            | Some h => Done tt (with_envs st h)
            | None => Panicked
            end.

Definition new_env (o : option addr) : M addr :=
  fun st => let (a, h) := NewEnclosedEnvironment o (envs st) in
            Done a (with_envs st h).

(** A fresh list object, the elements behind a list pointer, and
    [list.Elements = append(list.Elements, value)]. *)
Definition new_list (elems : list Object) : M addr :=
  fun st => Done (length (lists st)) (with_lists st (lists st ++ [elems])).

Definition list_elements (a : addr) : M (list Object) :=
  fun st => match lists st !! a with
            | Some elems => Done elems st
            | None => Panicked
            end.

Definition list_append (a : addr) (val : Object) : M unit :=
  fun st => match lists st !! a with
            | Some elems => Done tt (with_lists st (<[a := elems ++ [val]]> (lists st)))
            | None => Panicked
            end.

(** [fmt.Println] and [fmt.Printf] write to standard output. *)
Definition print (s : string) : M unit :=
  fun st => Done tt (with_stdout st (stdout st ++ [s])).

(** One read of standard input: nothing left, a line, or an error. *)
Definition read_line : M (option (string + string)) :=
  fun st => match stdin st with
            | [] => Done None st
            | x :: rest => Done (Some x) (with_stdin st rest)
            end.

(** The number of the next exchange with the world. *)
Definition next_exchange : M nat :=
  fun st => Done (exchanges st) (with_exchanges st (S (exchanges st))).

(** [obj.Type()], a panic on the nil interface. *)
Definition type_of (o : Object) : M ObjectType :=
  match TypeOf o with
  | Some t => ret t
  | None => panic
  end.

Definition newline : string := String (ascii_of_nat 10) EmptyString.

Definition NULL : Object := Null.
Definition TRUE : Object := Boolean true.
Definition FALSE : Object := Boolean false.

Definition nativeBoolToBooleanObject (input : bool) : Object :=
  if input then TRUE else FALSE.

Definition isTruthy (obj : Object) : bool :=
  match obj with
  | Null => false
  | Boolean v => v
  | Integer v => negb (v =? 0)
  | _ => true
  end.

Definition isError (obj : Object) : bool :=
  match obj with
  | Error _ => true
  | _ => false
  end.

Definition newError (message : string) : Object := Error message.

Definition fmt_d (z : Z) : string := pretty z.
Definition fmt_t (b : bool) : string := if b then "true" else "false".

Fixpoint Join (elems : list string) (sep : string) : string :=
  match elems with
  | [] => ""
  | [x] => x
  | x :: rest => x +:+ sep +:+ Join rest sep
  end.

(** ** Textual forms and the JSON bridge *)

Section Helpers.

Variable host : Host.

(** [Inspect()]: the textual form of a value.  A list is printed from the
    elements its pointer leads to, so a list that contains itself prints
    forever; the recursion is therefore budgeted. *)
Fixpoint Inspect (fuel : nat) (obj : Object) : M string :=
  match fuel with
  | O => out_of_fuel
  | S fuel' =>
      match obj with
      | GoNil => panic
      | Integer v => ret (fmt_d v)
      | String_ v => ret v
      | Boolean v => ret (fmt_t v)
      | Null => ret "null"
      | ReturnValue v => Inspect fuel' v
      | Error m => ret ("ERROR: " +:+ m)
      | Function params body _ =>
          ret ("to function"
               +:+ (match params with
                    | [] => ""
                    | _ => " with " +:+ Join params " and "
                    end)
               +:+ " z" +:+ newline +:+ block_String host body)
      | List_ a =>
          elems ← list_elements a;
          let fix each (l : list Object) : M (list string) :=
            match l with
            | [] => ret []
            | e :: rest =>
                x ← Inspect fuel' e;
                xs ← each rest;
                ret (x :: xs)
            end in
          strs ← each elems;
          ret ("[" +:+ Join strs ", " +:+ "]")
      | Response status body _ =>
          ret ("Response{status: " +:+ fmt_d status +:+ ", body: "
               +:+ quote host body +:+ "}")
      | Json v =>
          match json_Marshal host v with
          | inl bytes => ret bytes
          | inr _ => ret "invalid json"
          end
      | Request method path _ _ _ =>
          ret ("Request{method: " +:+ method +:+ ", path: " +:+ path +:+ "}")
      | Server port running =>
          ret ("Server{port: " +:+ fmt_d port +:+ ", running: "
               +:+ fmt_t running +:+ "}")
      | ReplyValue body status _ =>
          ret ("Reply{status: " +:+ fmt_d status +:+ ", body: "
               +:+ quote host body +:+ "}")
      end
  end.

(** [int64(v)] for a float64 [v]: truncation toward zero; outside the
    range of [int64] the result is the one of the amd64 conversion. *)
Definition float64_to_int64 (f : spec_float) : Z :=
  match f with
  | S754_zero _ => 0
  | S754_finite neg m e =>
      let mag := if 0 <=? e then Z.pos m * 2 ^ e else Z.pos m / 2 ^ (- e) in
      let z := if neg then - mag else mag in
      if (MinInt64 <=? z) && (z <=? MaxInt64) then z else MinInt64
  | _ => MinInt64
  end.

(** [interfaceToObject]: a decoded JSON value as a language value; an
    array becomes a fresh list, an object stays wrapped. *)
Fixpoint interfaceToObject (val : iface) : M Object :=
  match val with
  | INil => ret NULL
  | IBool v => ret (nativeBoolToBooleanObject v)
  | IFloat64 v => ret (Integer (float64_to_int64 v))
  | IString v => ret (String_ v)
  | IArray v =>
      let fix each (l : list iface) : M (list Object) :=
        match l with
        | [] => ret []
        | e :: rest =>
            x ← interfaceToObject e;
            xs ← each rest;
            ret (x :: xs)
        end in
      elements ← each v;
      a ← new_list elements;
      ret (List_ a)
  | IMap v => ret (Json (IMap v))
  | IInt64 _ => ret NULL
  end.

(** [objectToInterface]: a language value in the host's JSON model. *)
Fixpoint objectToInterface (fuel : nat) (obj : Object) : M iface :=
  match fuel with
  | O => out_of_fuel
  | S fuel' =>
      match obj with
      | Integer v => ret (IInt64 v)
      | String_ v => ret (IString v)
      | Boolean v => ret (IBool v)
      | Null => ret INil
      | List_ a =>
          elems ← list_elements a;
          let fix each (l : list Object) : M (list iface) :=
            match l with
            | [] => ret []
            | e :: rest =>
                x ← objectToInterface fuel' e;
                xs ← each rest;
                ret (x :: xs)
            end in
          arr ← each elems;
          ret (IArray arr)
      | Json v => ret v
      | _ => ret INil
      end
  end.

(** [strings.Split(path, ".")]. *)
Fixpoint split_dots (cur : string) (path : string) : list string :=
  match path with
  | EmptyString => [cur]
  | String c rest =>
      if Ascii.eqb c "."%char then cur :: split_dots "" rest
      else split_dots (cur +:+ String c EmptyString) rest
  end.

Fixpoint getJsonField_walk (current : iface) (parts : list string) : option iface :=
  match parts with
  | [] => Some current
  | part :: rest =>
      match current with
      | IMap v =>
          match v !! part with
          | Some next => getJsonField_walk next rest
          | None => None
          end
      | _ => None
      end
  end.

Definition getJsonField (data : iface) (path : string) : M Object :=
  match getJsonField_walk data (split_dots "" path) with
  | Some current => interfaceToObject current
  | None => ret NULL
  end.

(** [string(s[i])] for a byte of a string: the UTF-8 form of the code
    point the byte names. *)
Definition string_of_byte (b : ascii) : string :=
  let n := nat_of_ascii b in
  if (n <? 128)%nat then String b EmptyString
  else String (ascii_of_nat (192 + n / 64))
         (String (ascii_of_nat (128 + n mod 64)) EmptyString).

(** The String elements of a header list, which [applyHeaders] hands to
    the request (the split at the colon is the host's). *)
Definition header_lines (elems : list Object) : list string :=
  omap (fun e => match e with String_ v => Some v | _ => None end) elems.

End Helpers.

(** ** Evaluation

    [Eval] dispatches on the kind of node; the functions below are its
    cases, written against the recursive call [Eval] and the budget [fuel]
    that is left for loops and for [Inspect]. *)

Inductive Node : Type :=
| NProgram (p : Program)
| NBlock (b : BlockStatement)
| NStatement (s : Statement)
| NExpression (e : Expression).

Coercion NExpression : Expression >-> Node.
Coercion NBlock : BlockStatement >-> Node.
Coercion NStatement : Statement >-> Node.

Section Cases.

Variable host : Host.
Variable fuel : nat.
Variable Eval : Node -> addr -> M Object.

Fixpoint evalStatements_program (stmts : list Statement) (env : addr)
  (result : Object) : M Object :=
  match stmts with
  | [] => ret result
  | statement :: rest =>
      result ← Eval statement env;
      match result with
      | ReturnValue v => ret v
      | Error _ => ret result
      | _ => evalStatements_program rest env result
      end
  end.

Definition evalProgram (program : Program) (env : addr) : M Object :=
  evalStatements_program (Statements program) env GoNil.

Fixpoint evalStatements_block (stmts : list Statement) (env : addr)
  (result : Object) : M Object :=
  match stmts with
  | [] => ret result
  | statement :: rest =>
      result ← Eval statement env;
      match result with
      | ReturnValue _ | Error _ => ret result
      | _ => evalStatements_block rest env result
      end
  end.

Definition evalBlockStatement (block : BlockStatement) (env : addr) : M Object :=
  evalStatements_block (block_statements block) env GoNil.

Definition evalSetStatement (name : string) (value : Expression) (env : addr)
  : M Object :=
  val ← Eval value env;
  if isError val then ret val else
  env_Set env name val ;;
  ret val.

Definition evalIncreaseStatement (target : string) (amount : Expression)
  (env : addr) : M Object :=
  currentVal ← env_Get env target;
  match currentVal with
  | None => ret (newError ("undefined variable: " +:+ target))
  | Some (Integer current) =>
      amount ← Eval amount env;
      if isError amount then ret amount else
      match amount with
      | Integer a =>
          let result := Integer (add64 current a) in
          env_Set env target result ;;
          ret result
      | _ =>
          t ← type_of amount;
          ret (newError ("increase amount must be an integer, got " +:+ t))
      end
  | Some other =>
      t ← type_of other;
      ret (newError ("increase requires an integer variable, got " +:+ t))
  end.

Definition evalDecreaseStatement (target : string) (amount : Expression)
  (env : addr) : M Object :=
  currentVal ← env_Get env target;
  match currentVal with
  | None => ret (newError ("undefined variable: " +:+ target))
  | Some (Integer current) =>
      amount ← Eval amount env;
      if isError amount then ret amount else
      match amount with
      | Integer a =>
          let result := Integer (sub64 current a) in
          env_Set env target result ;;
          ret result
      | _ =>
          t ← type_of amount;
          ret (newError ("decrease amount must be an integer, got " +:+ t))
      end
  | Some other =>
      t ← type_of other;
      ret (newError ("decrease requires an integer variable, got " +:+ t))
  end.

Definition evalArithmeticExpression (l : Expression) (operator : string)
  (r : Expression) (env : addr) : M Object :=
  left ← Eval l env;
  if isError left then ret left else
  right ← Eval r env;
  if isError right then ret right else
  let integers : M Object :=
    match left with
    | Integer leftVal =>
        match right with
        | Integer rightVal =>
            if String.eqb operator "plus" then ret (Integer (add64 leftVal rightVal))
            else if String.eqb operator "minus" then ret (Integer (sub64 leftVal rightVal))
            else if String.eqb operator "times" then ret (Integer (mul64 leftVal rightVal))
            else if String.eqb operator "divided" then
              if rightVal =? 0 then ret (newError "division by zero")
              else ret (Integer (quo64 leftVal rightVal))
            else ret (Integer 0)
        | _ =>
            t ← type_of right;
            ret (newError ("arithmetic operations require integers, got " +:+ t))
        end
    | _ =>
        t ← type_of left;
        ret (newError ("arithmetic operations require integers, got " +:+ t))
    end in
  if String.eqb operator "plus" then
    match left, right with
    | String_ leftVal, String_ rightVal => ret (String_ (leftVal +:+ rightVal))
    | String_ leftVal, _ =>
        rightVal ← Inspect host fuel right;
        ret (String_ (leftVal +:+ rightVal))
    | _, String_ rightVal =>
        leftVal ← Inspect host fuel left;
        ret (String_ (leftVal +:+ rightVal))
    | _, _ => integers
    end
  else integers.

Definition evalLogicalExpression (l : Expression) (operator : string)
  (r : Expression) (env : addr) : M Object :=
  if String.eqb operator "not" then
    right ← Eval r env;
    if isError right then ret right else
    ret (nativeBoolToBooleanObject (negb (isTruthy right)))
  else if String.eqb operator "and" then
    left ← Eval l env;
    if isError left then ret left else
    if negb (isTruthy left) then ret FALSE else
    right ← Eval r env;
    if isError right then ret right else
    ret (nativeBoolToBooleanObject (isTruthy right))
  else if String.eqb operator "or" then
    left ← Eval l env;
    if isError left then ret left else
    if isTruthy left then ret TRUE else
    right ← Eval r env;
    if isError right then ret right else
    ret (nativeBoolToBooleanObject (isTruthy right))
  else ret FALSE.

Definition evalIfStatement (condition : Expression) (consequence : BlockStatement)
  (alternative : option BlockStatement) (env : addr) : M Object :=
  condition ← Eval condition env;
  if isError condition then ret condition else
  if isTruthy condition then Eval consequence env
  else match alternative with
       | Some alt => Eval alt env
       | None => ret NULL
       end.

Fixpoint evalWhileStatement_loop (n : nat) (condition : Expression)
  (body : BlockStatement) (env : addr) (result : Object) : M Object :=
  match n with
  | O => out_of_fuel
  | S n' =>
      cond ← Eval condition env;
      if isError cond then ret cond else
      if negb (isTruthy cond) then ret result else
      result ← Eval body env;
      match result with
      | ReturnValue _ | Error _ => ret result
      | _ => evalWhileStatement_loop n' condition body env result
      end
  end.

Definition evalWhileStatement (condition : Expression) (body : BlockStatement)
  (env : addr) : M Object :=
  evalWhileStatement_loop fuel condition body env NULL.

(** The loop of [evalForStatement] over the elements the list had when the
    loop began. *)
Fixpoint evalForStatement_loop (elements : list Object) (variable : string)
  (body : BlockStatement) (env : addr) (result : Object) : M Object :=
  match elements with
  | [] => ret result
  | element :: rest =>
      env_Set env variable element ;;
      result ← Eval body env;
      match result with
      | ReturnValue _ | Error _ => ret result
      | _ => evalForStatement_loop rest variable body env result
      end
  end.

Definition evalForStatement (variable : string) (iterable : Expression)
  (body : BlockStatement) (env : addr) : M Object :=
  iterable ← Eval iterable env;
  if isError iterable then ret iterable else
  match iterable with
  | List_ a =>
      elements ← list_elements a;
      evalForStatement_loop elements variable body env NULL
  | _ =>
      t ← type_of iterable;
      ret (newError ("for each requires a list, got " +:+ t))
  end.

Definition evalFunctionDefinition (name : string) (parameters : list string)
  (body : BlockStatement) (env : addr) : M Object :=
  let fn := Function parameters body env in
  env_Set env name fn ;;
  ret fn.

(** The arguments of a call, left to right; the first error ends the
    evaluation and is the result ([inr]). *)
Fixpoint evalArguments (args : list Expression) (env : addr)
  (acc : list Object) : M (list Object + Object) :=
  match args with
  | [] => ret (inl acc)
  | arg :: rest =>
      evaluated ← Eval arg env;
      if isError evaluated then ret (inr evaluated)
      else evalArguments rest env (acc ++ [evaluated])
  end.

(** [for i, param := range fn.Parameters { if i < len(args) { Set } }]. *)
Fixpoint bindParameters (params : list string) (args : list Object)
  (extendedEnv : addr) : M unit :=
  match params, args with
  | param :: params', arg :: args' =>
      env_Set extendedEnv param arg ;;
      bindParameters params' args' extendedEnv
  | _, _ => ret tt
  end.

Definition unwrapReturnValue (result : Object) : Object :=
  match result with
  | ReturnValue v => v
  | _ => result
  end.

Definition evalCallExpression (function : string) (arguments : list Expression)
  (env : addr) : M Object :=
  fnObj ← env_Get env function;
  match fnObj with
  | None => ret (newError ("function not defined: " +:+ function))
  | Some (Function parameters body fnEnv) =>
      args ← evalArguments arguments env [];
      match args with
      | inr err => ret err
      | inl args =>
          extendedEnv ← new_env (Some fnEnv);
          bindParameters parameters args extendedEnv ;;
          result ← Eval body extendedEnv;
          ret (unwrapReturnValue result)
      end
  | Some _ => ret (newError (function +:+ " is not a function"))
  end.

Definition evalReturnStatement (returnValue : Expression) (env : addr) : M Object :=
  match returnValue with
  | ENil => ret (ReturnValue NULL)
  | _ =>
      val ← Eval returnValue env;
      if isError val then ret val else
      ret (ReturnValue val)
  end.

Definition evalSayStatement (value : Expression) (env : addr) : M Object :=
  val ← Eval value env;
  if isError val then ret val else
  text ← Inspect host fuel val;
  print (text +:+ newline) ;;
  ret NULL.

(** The last character of a string and the string without it. *)
Fixpoint last_char (s : string) : option ascii :=
  match s with
  | EmptyString => None
  | String c EmptyString => Some c
  | String _ rest => last_char rest
  end.

Fixpoint drop_last (s : string) : string :=
  match s with
  | EmptyString => EmptyString
  | String _ EmptyString => EmptyString
  | String c rest => String c (drop_last rest)
  end.

Definition trim_suffix_char (c : ascii) (s : string) : string :=
  match last_char s with
  | Some c' => if Ascii.eqb c' c then drop_last s else s
  | None => s
  end.

Definition evalAskStatement (target : string) (env : addr) : M Object :=
  line ← read_line;
  match line with
  | None => ret (newError "error reading input: EOF")
  | Some (inr err) => ret (newError ("error reading input: " +:+ err))
  | Some (inl input) =>
      let input := trim_suffix_char (ascii_of_nat 10) input in
      let input := trim_suffix_char (ascii_of_nat 13) input in
      let result := String_ input in
      env_Set env target result ;;
      ret result
  end.

Definition evalLengthExpression (lst : Expression) (env : addr) : M Object :=
  val ← Eval lst env;
  if isError val then ret val else
  match val with
  | List_ a =>
      elems ← list_elements a;
      ret (Integer (Z.of_nat (length elems)))
  | String_ v => ret (Integer (Z.of_nat (String.length v)))
  | _ =>
      t ← type_of val;
      ret (newError ("length requires a list or string, got " +:+ t))
  end.

Definition evalIndexExpression (index : Expression) (lst : Expression)
  (env : addr) : M Object :=
  index ← Eval index env;
  if isError index then ret index else
  list ← Eval lst env;
  if isError list then ret list else
  match index with
  | Integer idx =>
      match list with
      | List_ a =>
          elems ← list_elements a;
          let n := Z.of_nat (length elems) in
          if (idx <? 1) || (n <? idx) then
            ret (newError ("index out of bounds: " +:+ fmt_d idx
                           +:+ " (list has " +:+ fmt_d n +:+ " elements)"))
          else
            match elems !! Z.to_nat (idx - 1) with
            | Some elem => ret elem
            | None => panic
            end
      | String_ v =>
          let n := Z.of_nat (String.length v) in
          if (idx <? 1) || (n <? idx) then
            ret (newError ("index out of bounds: " +:+ fmt_d idx
                           +:+ " (string has " +:+ fmt_d n +:+ " characters)"))
          else
            match String.get (Z.to_nat (idx - 1)) v with
            | Some b => ret (String_ (string_of_byte b))
            | None => panic
            end
      | _ =>
          t ← type_of list;
          ret (newError ("indexing requires a list or string, got " +:+ t))
      end
  | _ =>
      t ← type_of index;
      ret (newError ("index must be an integer, got " +:+ t))
  end.

Definition evalAppendStatement (value : Expression) (lst : string) (env : addr)
  : M Object :=
  value ← Eval value env;
  if isError value then ret value else
  listObj ← env_Get env lst;
  match listObj with
  | None => ret (newError ("undefined variable: " +:+ lst))
  | Some (List_ a) =>
      list_append a value ;;
      ret NULL
  | Some other =>
      t ← type_of other;
      ret (newError ("append requires a list, got " +:+ t))
  end.

Definition evalIdentifier (name : string) (env : addr) : M Object :=
  if String.eqb name "null" then ret NULL
  else if String.eqb name "true" then ret TRUE
  else if String.eqb name "false" then ret FALSE
  else
    val ← env_Get env name;
    match val with
    | None => ret (newError ("undefined variable: " +:+ name))
    | Some v => ret v
    end.

Definition evalNegativeExpression (value : Expression) (env : addr) : M Object :=
  val ← Eval value env;
  if isError val then ret val else
  match val with
  | Integer v => ret (Integer (neg64 v))
  | _ =>
      t ← type_of val;
      ret (newError ("minus requires an integer, got " +:+ t))
  end.

Definition evalListLiteral (elements : list Expression) (env : addr) : M Object :=
  elems ← evalArguments elements env [];
  match elems with
  | inr err => ret err
  | inl elems =>
      a ← new_list elems;
      ret (List_ a)
  end.

Definition evalEquals (left right : Object) : M Object :=
  lt ← type_of left;
  rt ← type_of right;
  if String.eqb lt NULL_OBJ && String.eqb rt NULL_OBJ then ret TRUE
  else if String.eqb lt NULL_OBJ || String.eqb rt NULL_OBJ then ret FALSE
  else
    match left, right with
    | Integer l, Integer r => ret (nativeBoolToBooleanObject (l =? r))
    | String_ l, String_ r => ret (nativeBoolToBooleanObject (String.eqb l r))
    | Boolean l, Boolean r => ret (nativeBoolToBooleanObject (Bool.eqb l r))
    | _, _ => ret FALSE
    end.

Definition evalGreater (left right : Object) : M Object :=
  match left with
  | Integer l =>
      match right with
      | Integer r => ret (nativeBoolToBooleanObject (r <? l))
      | _ =>
          t ← type_of right;
          ret (newError ("comparison requires integers, got " +:+ t))
      end
  | _ =>
      t ← type_of left;
      ret (newError ("comparison requires integers, got " +:+ t))
  end.

Definition evalLess (left right : Object) : M Object :=
  match left with
  | Integer l =>
      match right with
      | Integer r => ret (nativeBoolToBooleanObject (l <? r))
      | _ =>
          t ← type_of right;
          ret (newError ("comparison requires integers, got " +:+ t))
      end
  | _ =>
      t ← type_of left;
      ret (newError ("comparison requires integers, got " +:+ t))
  end.

Definition evalComparisonExpression (l : Expression) (operator : string)
  (r : Expression) (env : addr) : M Object :=
  left ← Eval l env;
  if isError left then ret left else
  right ← Eval r env;
  if isError right then ret right else
  if String.eqb operator "equals" then evalEquals left right
  else if String.eqb operator "greater" then evalGreater left right
  else if String.eqb operator "less" then evalLess left right
  else ret FALSE.

(** *** The HTTP client verbs *)

(** The optional header list of a client verb: [inl None] when the clause
    is absent, [inl (Some lines)] for a list, [inr result] when the
    statement ends here with [result]. *)
Definition evalHeaders (headers : Expression) (env : addr)
  : M (option (list string) + Object) :=
  match headers with
  | ENil => ret (inl None)
  | _ =>
      headersObj ← Eval headers env;
      if isError headersObj then ret (inr headersObj) else
      match headersObj with
      | List_ a =>
          elems ← list_elements a;
          ret (inl (Some (header_lines elems)))
      | _ =>
          t ← type_of headersObj;
          ret (inr (newError ("headers must be a list, got " +:+ t)))
      end
  end.

(** [executeRequest]: one exchange through the shared client. *)
Definition executeRequest (method url body : string)
  (headers : option (list string)) : M (Object + string) :=
  n ← next_exchange;
  match http_Do host n method url body headers with
  | inl (status, respBody, respHeaders) =>
      ret (inl (Response status respBody respHeaders))
  | inr err => ret (inr err)
  end.

Definition evalFetchStatement (url headers : Expression) (target : string)
  (env : addr) : M Object :=
  url ← Eval url env;
  if isError url then ret url else
  match url with
  | String_ urlStr =>
      hs ← evalHeaders headers env;
      match hs with
      | inr result => ret result
      | inl hs =>
          r ← executeRequest "GET" urlStr "" hs;
          match r with
          | inr err => ret (newError ("fetch failed: " +:+ err))
          | inl response => env_Set env target response ;; ret response
          end
      end
  | _ =>
      t ← type_of url;
      ret (newError ("fetch URL must be a string, got " +:+ t))
  end.

(** [send] and [put] differ in the verb and in the wording of their
    errors only. *)
Definition evalBodyRequest (verb method : string) (body url headers : Expression)
  (target : string) (env : addr) : M Object :=
  body ← Eval body env;
  if isError body then ret body else
  match body with
  | String_ bodyStr =>
      url ← Eval url env;
      if isError url then ret url else
      match url with
      | String_ urlStr =>
          hs ← evalHeaders headers env;
          match hs with
          | inr result => ret result
          | inl hs =>
              r ← executeRequest method urlStr bodyStr hs;
              match r with
              | inr err => ret (newError (verb +:+ " failed: " +:+ err))
              | inl response => env_Set env target response ;; ret response
              end
          end
      | _ =>
          t ← type_of url;
          ret (newError (verb +:+ " URL must be a string, got " +:+ t))
      end
  | _ =>
      t ← type_of body;
      ret (newError (verb +:+ " body must be a string, got " +:+ t))
  end.

Definition evalSendStatement := evalBodyRequest "send" "POST".
Definition evalPutStatement := evalBodyRequest "put" "PUT".

Definition evalDeleteStatement (url headers : Expression) (target : string)
  (env : addr) : M Object :=
  url ← Eval url env;
  if isError url then ret url else
  match url with
  | String_ urlStr =>
      hs ← evalHeaders headers env;
      match hs with
      | inr result => ret result
      | inl hs =>
          r ← executeRequest "DELETE" urlStr "" hs;
          match r with
          | inr err => ret (newError ("delete failed: " +:+ err))
          | inl response => env_Set env target response ;; ret response
          end
      end
  | _ =>
      t ← type_of url;
      ret (newError ("delete URL must be a string, got " +:+ t))
  end.

Definition evalBodyOfExpression (response : Expression) (env : addr) : M Object :=
  respObj ← Eval response env;
  if isError respObj then ret respObj else
  match respObj with
  | Response _ body _ => ret (String_ body)
  | Request _ _ body _ _ => ret (String_ body)
  | _ =>
      t ← type_of respObj;
      ret (newError ("body of requires a response or request, got " +:+ t))
  end.

Definition evalStatusOfExpression (response : Expression) (env : addr) : M Object :=
  respObj ← Eval response env;
  if isError respObj then ret respObj else
  match respObj with
  | Response status _ _ => ret (Integer status)
  | _ =>
      t ← type_of respObj;
      ret (newError ("status of requires a response, got " +:+ t))
  end.

Definition evalHeaderFromExpression (headerName response : Expression)
  (env : addr) : M Object :=
  headerName ← Eval headerName env;
  if isError headerName then ret headerName else
  match headerName with
  | String_ name =>
      respObj ← Eval response env;
      if isError respObj then ret respObj else
      let lookup (headers : gmap string string) : M Object :=
        match headers !! name with
        | Some value => ret (String_ value)
        | None => ret NULL
        end in
      match respObj with
      | Response _ _ headers => lookup headers
      | Request _ _ _ headers _ => lookup headers
      | _ =>
          t ← type_of respObj;
          ret (newError ("header from requires a response or request, got " +:+ t))
      end
  | _ =>
      t ← type_of headerName;
      ret (newError ("header name must be a string, got " +:+ t))
  end.

(** *** JSON *)

Definition evalParseJsonStatement (source : Expression) (target : string)
  (env : addr) : M Object :=
  source ← Eval source env;
  if isError source then ret source else
  match source with
  | String_ sourceStr =>
      match json_Unmarshal host sourceStr with
      | inr err => ret (newError ("invalid JSON: " +:+ err))
      | inl result =>
          let jsonObj := Json result in
          env_Set env target jsonObj ;;
          ret jsonObj
      end
  | _ =>
      t ← type_of source;
      ret (newError ("parse json requires a string, got " +:+ t))
  end.

(** The elements of a list through [objectToInterface], in order. *)
Fixpoint elementsToInterface (elems : list Object) : M (list iface) :=
  match elems with
  | [] => ret []
  | e :: rest =>
      x ← objectToInterface fuel e;
      xs ← elementsToInterface rest;
      ret (x :: xs)
  end.

Definition evalEncodeJsonStatement (source : Expression) (target : string)
  (env : addr) : M Object :=
  source ← Eval source env;
  if isError source then ret source else
  value ← match source with
          | Json v => ret (inl v)
          | String_ v => ret (inl (IString v))
          | Integer v => ret (inl (IInt64 v))
          | Boolean v => ret (inl (IBool v))
          | List_ a =>
              elems ← list_elements a;
              arr ← elementsToInterface elems;
              ret (inl (IArray arr))
          | _ =>
              t ← type_of source;
              ret (inr (newError ("cannot encode " +:+ t +:+ " as json")))
          end;
  match value with
  | inr err => ret err
  | inl value =>
      match json_Marshal host value with
      | inr err => ret (newError ("json encoding failed: " +:+ err))
      | inl bytes =>
          let result := String_ bytes in
          env_Set env target result ;;
          ret result
      end
  end.

Definition evalFieldFromExpression (fieldName source : Expression) (env : addr)
  : M Object :=
  fieldName ← Eval fieldName env;
  if isError fieldName then ret fieldName else
  match fieldName with
  | String_ fieldStr =>
      source ← Eval source env;
      if isError source then ret source else
      match source with
      | Json v => getJsonField v fieldStr
      | _ =>
          t ← type_of source;
          ret (newError ("field from requires a json object, got " +:+ t))
      end
  | _ =>
      t ← type_of fieldName;
      ret (newError ("field name must be a string, got " +:+ t))
  end.

(** *** The web server statements *)

Definition append_route (rts : gmap Z (list RouteHandler)) (port : Z)
  (handlers : list RouteHandler) : gmap Z (list RouteHandler) :=
  <[port := default [] (rts !! port) ++ handlers]> rts.

(** The registry once a server is registered on [port]: the routes
    declared against another default port are carried over, and [port]
    becomes the default. *)
Definition register_server (port : Z) (st : State) : State :=
  let rts :=
    if negb (port =? defaultPort st) then
      match routeRegistry st !! defaultPort st with
      | Some (r :: rs) => append_route (routeRegistry st) port (r :: rs)
      | _ => routeRegistry st
      end
    else routeRegistry st in
  with_registry st
    (<[port := {| Port := port; Running := true |}]> (serverRegistry st))
    rts port.

Definition unregister_server (port : Z) (st : State) : State :=
  with_registry st (delete port (serverRegistry st))
    (delete port (routeRegistry st)) (defaultPort st).

Definition add_route (handler : RouteHandler) (st : State) : State :=
  with_registry st (serverRegistry st)
    (append_route (routeRegistry st) (defaultPort st) [handler])
    (defaultPort st).

(** [evalServeStatement] registers the server and hands the port to the
    host's listener.  In the foreground the call blocks until the listener
    ends; in the background the listener (and the line it prints when it
    starts) belongs to another goroutine.  Requests served meanwhile run
    [handleIncomingRequest] on goroutines of their own and are not part of
    this sequential run. *)
Definition evalServeStatement (port : Expression) (background : bool)
  (env : addr) : M Object :=
  portObj ← Eval port env;
  if isError portObj then ret portObj else
  match portObj with
  | Integer port =>
      st ← get;
      match serverRegistry st !! port with
      | Some _ =>
          ret (newError ("server already running on port " +:+ fmt_d port))
      | None =>
          modify (register_server port) ;;
          if background then ret (Server port true)
          else
            print ("Server starting on port " +:+ fmt_d port
                   +:+ " (foreground)..." +:+ newline) ;;
            n ← next_exchange;
            match ListenAndServe host n port with
            | Some err => ret (newError ("server error: " +:+ err))
            | None => ret NULL
            end
      end
  | _ =>
      t ← type_of portObj;
      ret (newError ("serve port must be an integer, got " +:+ t))
  end.

Definition register_route (handler : RouteHandler) : M unit :=
  modify (add_route handler).

Definition evalWhenRouteStatement (method : string) (path : Expression)
  (requestVar : option string) (body : BlockStatement) (env : addr) : M Object :=
  pathObj ← Eval path env;
  if isError pathObj then ret pathObj else
  match pathObj with
  | String_ pathStr =>
      register_route {| Method := method; Path := pathStr; Body := Some body;
                        RequestVar := default "" requestVar;
                        HandlerEnv := env; HandlerFn := None |} ;;
      ret NULL
  | _ =>
      t ← type_of pathObj;
      ret (newError ("route path must be a string, got " +:+ t))
  end.

Definition evalRouteToStatement (path : Expression) (handler : string)
  (env : addr) : M Object :=
  pathObj ← Eval path env;
  if isError pathObj then ret pathObj else
  match pathObj with
  | String_ pathStr =>
      fnObj ← env_Get env handler;
      match fnObj with
      | None => ret (newError ("handler function not defined: " +:+ handler))
      | Some (Function parameters body fnEnv) =>
          register_route {| Method := ""; Path := pathStr; Body := None;
                            RequestVar := "";
                            HandlerEnv := env;
                            HandlerFn := Some {| Parameters := parameters;
                                                 FnBody := body;
                                                 Env := fnEnv |} |} ;;
          ret NULL
      | Some _ => ret (newError (handler +:+ " is not a function"))
      end
  | _ =>
      t ← type_of pathObj;
      ret (newError ("route path must be a string, got " +:+ t))
  end.

(** The extra headers of a reply; neither part is checked for an error. *)
Fixpoint evalReplyHeaders (pairs : list (Expression * Expression)) (env : addr)
  (headers : gmap string string) : M (gmap string string) :=
  match pairs with
  | [] => ret headers
  | (name, value) :: rest =>
      nameObj ← Eval name env;
      valueObj ← Eval value env;
      match nameObj, valueObj with
      | String_ n, String_ v => evalReplyHeaders rest env (<[n := v]> headers)
      | _, _ => evalReplyHeaders rest env headers
      end
  end.

Definition evalReplyStatement (body : Expression) (asJson : bool)
  (statusCode : Expression) (headerPairs : list (Expression * Expression))
  (env : addr) : M Object :=
  bodyObj ← Eval body env;
  if isError bodyObj then ret bodyObj else
  encoded ←
    (if asJson then
       v ← objectToInterface fuel bodyObj;
       match json_Marshal host v with
       | inr err => ret (inr (newError ("failed to encode as JSON: " +:+ err)))
       | inl bytes =>
           ret (inl (bytes, ({[ "Content-Type" := "application/json" ]}
                             : gmap string string)))
       end
     else
       match bodyObj with
       | String_ b => ret (inl (b, ∅))
       | Json v =>
           match json_Marshal host v with
           | inl bytes => ret (inl (bytes, ∅))
           | inr _ => ret (inl ("", ∅))
           end
       | _ =>
           text ← Inspect host fuel bodyObj;
           ret (inl (text, ∅))
       end);
  match encoded with
  | inr err => ret err
  | inl (bodyStr, headers) =>
      status ← match statusCode with
               | ENil => ret (inl 200)
               | _ =>
                   statusObj ← Eval statusCode env;
                   if isError statusObj then ret (inr statusObj) else
                   match statusObj with
                   | Integer sc => ret (inl sc)
                   | _ => ret (inl 200)
                   end
               end;
      match status with
      | inr err => ret err
      | inl status =>
          headers ← evalReplyHeaders headerPairs env headers;
          ret (ReplyValue bodyStr status headers)
      end
  end.

(** Stopping every server, in the order the registry lists them. *)
Fixpoint stopAll (ports : list Z) : M unit :=
  match ports with
  | [] => ret tt
  | port :: rest =>
      n ← next_exchange;
      let _ := Shutdown host n port in
      modify (unregister_server port) ;;
      print ("Server on port " +:+ fmt_d port +:+ " stopped" +:+ newline) ;;
      stopAll rest
  end.

Definition evalStopServerStatement (port : Expression) (env : addr) : M Object :=
  match port with
  | ENil =>
      st ← get;
      stopAll (fst <$> map_to_list (serverRegistry st)) ;;
      ret NULL
  | _ =>
      portObj ← Eval port env;
      if isError portObj then ret portObj else
      match portObj with
      | Integer port =>
          st ← get;
          match serverRegistry st !! port with
          | None => ret (newError ("no server running on port " +:+ fmt_d port))
          | Some _ =>
              n ← next_exchange;
              match Shutdown host n port with
              | Some err => ret (newError ("error stopping server: " +:+ err))
              | None =>
                  modify (unregister_server port) ;;
                  print ("Server on port " +:+ fmt_d port +:+ " stopped" +:+ newline) ;;
                  ret NULL
              end
          end
      | _ =>
          t ← type_of portObj;
          ret (newError ("stop server port must be an integer, got " +:+ t))
      end
  end.

Definition evalMethodOfExpression (request : Expression) (env : addr) : M Object :=
  reqObj ← Eval request env;
  if isError reqObj then ret reqObj else
  match reqObj with
  | Request method _ _ _ _ => ret (String_ method)
  | _ =>
      t ← type_of reqObj;
      ret (newError ("method of requires a request, got " +:+ t))
  end.

Definition evalPathOfExpression (request : Expression) (env : addr) : M Object :=
  reqObj ← Eval request env;
  if isError reqObj then ret reqObj else
  match reqObj with
  | Request _ path _ _ _ => ret (String_ path)
  | _ =>
      t ← type_of reqObj;
      ret (newError ("path of requires a request, got " +:+ t))
  end.

Definition evalQueryFromExpression (queryName request : Expression) (env : addr)
  : M Object :=
  queryName ← Eval queryName env;
  if isError queryName then ret queryName else
  match queryName with
  | String_ queryStr =>
      reqObj ← Eval request env;
      if isError reqObj then ret reqObj else
      match reqObj with
      | Request _ _ _ _ queryParams =>
          match queryParams !! queryStr with
          | Some value => ret (String_ value)
          | None => ret NULL
          end
      | _ =>
          t ← type_of reqObj;
          ret (newError ("query from requires a request, got " +:+ t))
      end
  | _ =>
      t ← type_of queryName;
      ret (newError ("query name must be a string, got " +:+ t))
  end.

(** *** The dispatch of [Eval] *)

Definition Eval_body (node : Node) (env : addr) : M Object :=
  match node with
  | NProgram program => evalProgram program env
  | NBlock block => evalBlockStatement block env
  | NStatement s =>
      match s with
      | NilPtrStatement => panic
      | SetStatement name value => evalSetStatement name value env
      | IncreaseStatement target amount => evalIncreaseStatement target amount env
      | DecreaseStatement target amount => evalDecreaseStatement target amount env
      | IfStatement c t e => evalIfStatement c t e env
      | WhileStatement c b => evalWhileStatement c b env
      | ForStatement v it b => evalForStatement v it b env
      | FunctionDefinition n ps b => evalFunctionDefinition n ps b env
      | ReturnStatement v => evalReturnStatement v env
      | SayStatement v => evalSayStatement v env
      | AskStatement t => evalAskStatement t env
      | AppendStatement v l => evalAppendStatement v l env
      | FetchStatement u h t => evalFetchStatement u h t env
      | SendStatement b u h t => evalSendStatement b u h t env
      | PutStatement b u h t => evalPutStatement b u h t env
      | DeleteStatement u h t => evalDeleteStatement u h t env
      | ParseJsonStatement src t => evalParseJsonStatement src t env
      | EncodeJsonStatement src t => evalEncodeJsonStatement src t env
      | ServeStatement port bg => evalServeStatement port bg env
      | WhenRouteStatement m path rv b => evalWhenRouteStatement m path rv b env
      | RouteToStatement path h => evalRouteToStatement path h env
      | ReplyStatement b j st hs => evalReplyStatement b j st hs env
      | StopServerStatement port => evalStopServerStatement port env
      end
  | NExpression e =>
      match e with
      | ENil => ret GoNil
      | NilPtrExpression => panic
      | IntegerLiteral v => ret (Integer v)
      | StringLiteral v => ret (String_ v)
      | BooleanLiteral v => ret (nativeBoolToBooleanObject v)
      | Identifier name => evalIdentifier name env
      | NegativeExpression v => evalNegativeExpression v env
      | ListLiteral es => evalListLiteral es env
      | ComparisonExpression l op r => evalComparisonExpression l op r env
      | LogicalExpression l op r => evalLogicalExpression l op r env
      | ArithmeticExpression l op r => evalArithmeticExpression l op r env
      | CallExpression f args => evalCallExpression f args env
      | LengthExpression l => evalLengthExpression l env
      | IndexExpression i l => evalIndexExpression i l env
      | BodyOfExpression r => evalBodyOfExpression r env
      | StatusOfExpression r => evalStatusOfExpression r env
      | HeaderFromExpression n r => evalHeaderFromExpression n r env
      | FieldFromExpression n src => evalFieldFromExpression n src env
      | MethodOfExpression r => evalMethodOfExpression r env
      | PathOfExpression r => evalPathOfExpression r env
      | QueryFromExpression n r => evalQueryFromExpression n r env
      end
  end.

End Cases.

(** [Eval]: every call of the source's [Eval] spends one unit of budget. *)
Fixpoint Eval (host : Host) (fuel : nat) (node : Node) (env : addr) : M Object :=
  match fuel with
  | O => out_of_fuel
  | S fuel' => Eval_body host fuel' (Eval host fuel') node env
  end.

(** ** Request dispatch *)

(** An incoming request as the handler reads it: method, URL path, body,
    and the values of each header and of each query key. *)
Record HttpRequest : Type := {
  ReqMethod : string;
  URLPath : string;
  ReqBody : string;
  Header : gmap string (list string);
  Query : gmap string (list string)
}.

(** What was written to the response writer. *)
Record HttpResponse : Type := {
  Status : Z;
  RespHeaders : gmap string string;
  RespBody : string
}.

Definition matchRoute (route : RouteHandler) (r : HttpRequest) : bool :=
  if negb (String.eqb (Method route) "")
     && negb (String.eqb (Method route) (ReqMethod r))
  then false
  else String.eqb (Path route) (URLPath r).

(** The [Request] value built for a handler: the first value of each
    header, and of each query key that has one. *)
Definition requestObject (r : HttpRequest) : Object :=
  Request (ReqMethod r) (URLPath r) (ReqBody r)
    ((fun values => default "" (head values)) <$> Header r)
    (omap head (Query r)).

(** The first route of the table that matches, as the loop over
    [routes] finds it. *)
Fixpoint findRoute (routes : list RouteHandler) (r : HttpRequest)
  : option RouteHandler :=
  match routes with
  | [] => None
  | route :: rest => if matchRoute route r then Some route else findRoute rest r
  end.

Section Dispatch.

Variable host : Host.
Variable fuel : nat.

(** The handler of a matched route, run in a fresh environment. *)
Definition runHandler (route : RouteHandler) (reqObj : Object) : M Object :=
  match HandlerFn route with
  | Some fn =>
      extendedEnv ← new_env (Some (Env fn));
      match Parameters fn with
      | param :: _ => env_Set extendedEnv param reqObj
      | [] => ret tt
      end ;;
      result ← Eval host fuel (FnBody fn) extendedEnv;
      ret (unwrapReturnValue result)
  | None =>
      handlerScope ← new_env (Some (HandlerEnv route));
      (if String.eqb (RequestVar route) "" then ret tt
       else env_Set handlerScope (RequestVar route) reqObj) ;;
      match Body route with
      | Some body =>
          result ← Eval host fuel body handlerScope;
          ret (unwrapReturnValue result)
      | None => panic
      end
  end.

(** The response written for the result of a handler. *)
Definition writeResult (result : Object) : M HttpResponse :=
  match result with
  | ReplyValue body status headers =>
      ret {| Status := status; RespHeaders := headers; RespBody := body |}
  | GoNil =>
      ret {| Status := 200; RespHeaders := ∅; RespBody := "" |}
  | _ =>
      text ← Inspect host fuel result;
      ret {| Status := 200; RespHeaders := ∅; RespBody := text |}
  end.

Definition notFound : HttpResponse :=
  {| Status := 404; RespHeaders := ∅; RespBody := "Not Found" |}.

Definition handleIncomingRequest (r : HttpRequest) (port : Z) : M HttpResponse :=
  st ← get;
  let routes := default [] (routeRegistry st !! port) in
  match findRoute routes r with
  | Some route =>
      result ← runHandler route (requestObject r);
      writeResult result
  | None => ret notFound
  end.

End Dispatch.

(** The store a program starts from: one empty global environment at
    address 0 and nothing else; the default port is 8080. *)
Definition initial_state (input : list (string + string)) : State :=
  {| envs := [{| store := ∅; outer := None |}];
     lists := [];
     stdout := [];
     stdin := input;
     serverRegistry := ∅;
     routeRegistry := ∅;
     defaultPort := 8080;
     exchanges := 0 |}.

(** A host that offers nothing: no JSON codec, no network, no listener.
    It stands in where an example never reaches the host. *)
Definition no_host : Host :=
  {| json_Unmarshal := fun _ => inr "unavailable";
     json_Marshal := fun _ => inr "unavailable";
     http_Do := fun _ _ _ _ _ => inr "unavailable";
     ListenAndServe := fun _ _ => Some "unavailable";
     Shutdown := fun _ _ => Some "unavailable";
     quote := fun s => s;
     block_String := fun _ => "" |}.

(** ** What an evaluation may write

    [assigned s]: the names the statement [s] can bind in the environment
    it runs in -- its own target, and those of the statements of its
    blocks, which run in the same environment.  The body of a function or of
    a route handler runs in an environment of its own and adds nothing. *)
Fixpoint assigned (s : Statement) : list string :=
  let in_block (b : BlockStatement) :=
    match b with Block ss => flat_map assigned ss end in
  match s with
  | SetStatement name _ => [name]
  | IncreaseStatement target _ => [target]
  | DecreaseStatement target _ => [target]
  | IfStatement _ c alt =>
      in_block c ++ match alt with Some b => in_block b | None => [] end
  | WhileStatement _ b => in_block b
  | ForStatement v _ b => v :: in_block b
  | FunctionDefinition name _ _ => [name]
  | AskStatement target => [target]
  | FetchStatement _ _ target => [target]
  | SendStatement _ _ _ target => [target]
  | PutStatement _ _ _ target => [target]
  | DeleteStatement _ _ target => [target]
  | ParseJsonStatement _ target => [target]
  | EncodeJsonStatement _ target => [target]
  | _ => []
  end.

Definition mods (node : Node) : list string :=
  match node with
  | NProgram p => flat_map assigned (Statements p)
  | NBlock b => flat_map assigned (block_statements b)
  | NStatement s => assigned s
  | NExpression _ => []
  end.

(** [upd e W st st']: every environment of [st] is still there in [st'],
    with the same enclosing environment and the same bindings, except that
    in the environment [e] the names of [W] may be bound differently. *)
Definition upd (e : addr) (W : string -> Prop) (st st' : State) : Prop :=
  forall a fr, envs st !! a = Some fr ->
    exists fr', envs st' !! a = Some fr' /\ outer fr' = outer fr /\
      forall x, (a = e -> ~ W x) -> store fr' !! x = store fr !! x.

(** [kept st st']: every environment of [st] is in [st'] as it was. *)
Definition kept (st st' : State) : Prop :=
  forall a fr, envs st !! a = Some fr -> envs st' !! a = Some fr.

(** [same st st']: the environments are the same. *)
Definition same (st st' : State) : Prop := envs st' = envs st.

(** [keeps R m]: a run of [m] that ends with a result relates the store
    before to the store after by [R]. *)
Definition keeps {A} (R : State -> State -> Prop) (m : M A) : Prop :=
  forall st a st', m st = Done a st' -> R st st'.

(** A loop or a call completes normally when its result is neither a
    pending [return] nor an error. *)
Definition completes_normally (r : Object) : bool :=
  match r with
  | ReturnValue _ | Error _ => false
  | _ => true
  end.

(** The bindings of the fresh environment of a call: the parameters that
    have an argument, bound in order. *)
Fixpoint bound_store (params : list string) (args : list Object)
  (acc : gmap string Object) : gmap string Object :=
  match params, args with
  | param :: params', arg :: args' => bound_store params' args' (<[param := arg]> acc)
  | _, _ => acc
  end.

(** ** Sample inputs for the properties below *)

(** A route matches a request, in the words of the specification: its
    method is empty or equals the request method, and its path equals the
    request URL path. *)
Definition route_matches (route : RouteHandler) (r : HttpRequest) : Prop :=
  (Method route = "" \/ Method route = ReqMethod r) /\ Path route = URLPath r.

(** The program [when request at "/" do say "hi" done], the store it
    leaves, and a GET request for [/]. *)
Definition hello_handler : BlockStatement :=
  Block [SayStatement (StringLiteral "hi")].

Definition hello_program : Program :=
  {| Statements := [WhenRouteStatement "" (StringLiteral "/") None hello_handler] |}.

Definition hello_route : RouteHandler :=
  {| Method := ""; Path := "/"; Body := Some hello_handler; RequestVar := "";
     HandlerEnv := 0%nat; HandlerFn := None |}.

Definition state_after {A} (r : Result A) : State :=
  match r with
  | Done _ st => st
  | _ => initial_state []
  end.

Definition hello_served : State :=
  state_after (Eval no_host 4 (NProgram hello_program) 0%nat (initial_state [])).

Definition get_root : HttpRequest :=
  {| ReqMethod := "GET"; URLPath := "/"; ReqBody := ""; Header := ∅; Query := ∅ |}.

Definition hello_handled : State :=
  state_after (runHandler no_host 4 hello_route (requestObject get_root) hello_served).

Definition value_after (r : Result Object) : Object :=
  match r with
  | Done v _ => v
  | _ => GoNil
  end.

(** [set v to 9] and [set xs to a list of 1 and 2], then a loop over [xs]
    whose body leaves [v] alone, and one whose body assigns it. *)
Definition loop_setup : Program :=
  {| Statements := [SetStatement "v" (IntegerLiteral 9);
                    SetStatement "xs" (ListLiteral [IntegerLiteral 1; IntegerLiteral 2])] |}.

Definition loop_ready : State :=
  state_after (Eval no_host 4 (NProgram loop_setup) 0%nat (initial_state [])).

Definition loop_saying : Statement :=
  ForStatement "v" (Identifier "xs") (Block [SayStatement (Identifier "v")]).

Definition loop_rebinding : Statement :=
  ForStatement "v" (Identifier "xs") (Block [SetStatement "v" (IntegerLiteral 0)]).

(** [set b to 7], then [to f with a and b  return b  done], and the call
    [f with 1], which gives no argument for [b]. *)
Definition shadow_body : BlockStatement :=
  Block [ReturnStatement (Identifier "b")].

Definition shadow_setup : Program :=
  {| Statements := [SetStatement "b" (IntegerLiteral 7);
                    FunctionDefinition "f" ["a"; "b"] shadow_body] |}.

Definition shadow_ready : State :=
  state_after (Eval no_host 4 (NProgram shadow_setup) 0%nat (initial_state [])).

Definition shadow_call : Expression :=
  CallExpression "f" [IntegerLiteral 1].

(** The store in which the body of that call starts. *)
Definition shadow_entered : State :=
  with_envs shadow_ready
    (envs shadow_ready
     ++ [{| store := bound_store ["a"; "b"] [Integer 1] ∅; outer := Some 0%nat |}]).

(** ** Further predicates and sample inputs *)

(** [grows st st']: every list of [st] is still there in [st'], with the
    elements it had at the front. *)
Definition grows (st st' : State) : Prop :=
  forall a es, lists st !! a = Some es ->
    exists more, lists st' !! a = Some (es ++ more).

(** The names [evalIdentifier] answers without looking at the environment. *)
Definition reserved (name : string) : bool :=
  String.eqb name "null" || String.eqb name "true" || String.eqb name "false".

(** A key with no dot in it. *)
Fixpoint no_dots (s : string) : bool :=
  match s with
  | EmptyString => true
  | String c rest => negb (Ascii.eqb c "."%char) && no_dots rest
  end.

(** A JSON value once it has been through the bridge and back: the numbers
    outside objects truncated to [int64], an [int64] (which the decoder
    never produces) turned to nil, objects left as they are. *)
Fixpoint truncated (v : iface) : iface :=
  match v with
  | IFloat64 f => IInt64 (float64_to_int64 f)
  | IInt64 _ => INil
  | IArray elems => IArray (map truncated elems)
  | other => other
  end.

(** How deep arrays nest in a JSON value, objects not looked into. *)
Fixpoint depth (v : iface) : nat :=
  match v with
  | IArray elems => S (foldr (fun e n => Nat.max (depth e) n) 0%nat elems)
  | _ => 0%nat
  end.

Definition is_object (v : iface) : bool :=
  match v with
  | IMap _ => true
  | _ => false
  end.

(** What the bridge back gives for an object the bridge made from [v], in
    every store that still has the lists of [st'] where they were. *)
Definition bridged (v : iface) (o : Object) (st' : State) : Prop :=
  forall fuel st2, (depth v < fuel)%nat -> lists st' `prefix_of` lists st2 ->
    objectToInterface fuel o st2 = Done (truncated v) st2.

Definition round_trips (v : iface) : Prop :=
  forall st, exists o st',
    interfaceToObject v st = Done o st'
    /\ lists st `prefix_of` lists st'
    /\ bridged v o st'.

(** The values [evalEquals] compares by content. *)
Definition scalar (o : Object) : bool :=
  match o with
  | Integer _ | String_ _ | Boolean _ | Null => true
  | _ => false
  end.

(** The line terminators. *)
Definition LF : string := String (ascii_of_nat 10) EmptyString.
Definition CRLF : string := String (ascii_of_nat 13) LF.

(** A host whose listeners shut down without an error. *)
Definition quiet_host : Host :=
  {| json_Unmarshal := json_Unmarshal no_host;
     json_Marshal := json_Marshal no_host;
     http_Do := http_Do no_host;
     ListenAndServe := ListenAndServe no_host;
     Shutdown := fun _ _ => None;
     quote := quote no_host;
     block_String := block_String no_host |}.

(** [append 3 to xs], for the list [xs] of 1 and 2. *)
Definition append_three : Statement := AppendStatement (IntegerLiteral 3) "xs".

Definition appended : State :=
  state_after (Eval no_host 3 (NStatement append_three) 0%nat loop_ready).

(** [set xs to a list of 1] and [append xs to xs]: the list then holds
    itself. *)
Definition cyclic_setup : Program :=
  {| Statements := [SetStatement "xs" (ListLiteral [IntegerLiteral 1]);
                    AppendStatement (Identifier "xs") "xs"] |}.

Definition cyclic_ready : State :=
  state_after (Eval no_host 4 (NProgram cyclic_setup) 0%nat (initial_state [])).

(** [to f with a  done], a function with an empty body. *)
Definition empty_function_ready : State :=
  state_after (Eval no_host 2 (NStatement (FunctionDefinition "f" ["a"] (Block [])))
                 0%nat (initial_state [])).

(** The JSON object [{"a": {"b": "x"}}]. *)
Definition nested_object : gmap string iface :=
  {[ "a" := IMap {[ "b" := IString "x" ]} ]}.

(** Expressions made of literals, identifiers, [minus], and the arithmetic,
    comparison and logical operators; [not] has no left operand. *)
Fixpoint plain (e : Expression) : bool :=
  match e with
  | IntegerLiteral _ | StringLiteral _ | BooleanLiteral _ | Identifier _ => true
  | NegativeExpression v => plain v
  | ArithmeticExpression l _ r => plain l && plain r
  | ComparisonExpression l _ r => plain l && plain r
  | LogicalExpression l op r =>
      if String.eqb op "not" then plain r else plain l && plain r
  | _ => false
  end.

Fixpoint height (e : Expression) : nat :=
  match e with
  | NegativeExpression v => S (height v)
  | ArithmeticExpression l _ r => S (Nat.max (height l) (height r))
  | ComparisonExpression l _ r => S (Nat.max (height l) (height r))
  | LogicalExpression l _ r => S (Nat.max (height l) (height r))
  | _ => O
  end.

(** Every name resolves from [env], and to an integer, a string, a boolean
    or null when it is bound. *)
Definition scalars_only (st : State) (env : addr) : Prop :=
  forall name, exists r, Get (envs st) env name = Some r
                         /\ forall v, r = Some v -> scalar v = true.

(** Statements without loops, calls and lists: [set], [increase],
    [decrease], [say], [return] and [ask] over plain expressions, and [if]
    over blocks of such statements. *)
Fixpoint straight (s : Statement) : bool :=
  let block (b : BlockStatement) :=
    match b with Block ss => forallb straight ss end in
  match s with
  | SetStatement _ v => plain v
  | IncreaseStatement _ a => plain a
  | DecreaseStatement _ a => plain a
  | SayStatement v => plain v
  | ReturnStatement v => match v with ENil => true | _ => plain v end
  | AskStatement _ => true
  | IfStatement c t alt =>
      plain c && block t && match alt with Some b => block b | None => true end
  | _ => false
  end.

(** The nesting of a statement: how many calls of [Eval] deep its
    evaluation goes. *)
Fixpoint nesting (s : Statement) : nat :=
  let block (b : BlockStatement) :=
    match b with Block ss => S (list_max (map nesting ss)) end in
  match s with
  | SetStatement _ v => S (height v)
  | IncreaseStatement _ a => S (height a)
  | DecreaseStatement _ a => S (height a)
  | SayStatement v => S (height v)
  | ReturnStatement v => S (height v)
  | IfStatement c t alt =>
      S (Nat.max (height c)
           (Nat.max (block t) (match alt with Some b => block b | None => O end)))
  | _ => O
  end.

End interpreter.

(** * Properties of the parser *)

Module parser_facts.

Import token ast parser.
Local Open Scope parser_scope.

Lemma bind_Some {A B} (m : P A) (k : A -> P B) p b p' :
  bind m k p = Some (b, p') <->
  exists a p1, m p = Some (a, p1) /\ k a p1 = Some (b, p').
Proof.
  unfold bind. split.
  - destruct (m p) as [[a p1]|] eqn:E; [eauto | discriminate].
  - intros (a & p1 & -> & H). exact H.
Qed.

(** One turn of the loop of [parseCompoundNumber] updates the accumulators
    as [compound_step] says. *)
Lemma loop_step_spec ty total current :
  IsNumberWord ty = true ->
  (if IsMultiplier ty
   then
     let current := if current =? 0 then 1 else current in
     if eqb ty MILLION
     then (add64 total (mul64 current (NumberWordValue ty)), 0)
     else if eqb ty THOUSAND
          then (add64 total (mul64 current (NumberWordValue ty)), 0)
          else if eqb ty HUNDRED
               then (total, mul64 current (NumberWordValue ty))
               else (total, current)
   else (total, add64 current (NumberWordValue ty)))
  = compound_step (total, current) ty.
Proof. destruct ty; simpl; intros H; try discriminate H; reflexivity. Qed.

Lemma upcoming_nextToken p :
  exists p1, nextToken p = Some (tt, p1) /\
    curToken p1 = peekToken p /\ errors p1 = errors p /\
    l p1 = tail (l p) /\
    exists k, upcoming p1 = tail (upcoming p) ++ k.
Proof.
  unfold nextToken, upcoming. destruct (l p) as [|t r] eqn:El; simpl.
  - eexists; split; [reflexivity|]; simpl.
    repeat split; exists [eofToken]; reflexivity.
  - eexists; split; [reflexivity|]; simpl.
    repeat split; exists []; rewrite app_nil_r; reflexivity.
Qed.

Lemma compound_loop_run ws : forall total current p fuel q,
  ws <> [] ->
  Forall is_number_word ws ->
  IsNumberWord (Typ q) = false ->
  (ws ++ [q]) `prefix_of` upcoming p ->
  (length ws <= fuel)%nat ->
  exists p',
    parseCompoundNumber_loop fuel total current p
    = Some (let '(t, c) := fold_left compound_step (Typ <$> ws) (total, current)
            in add64 t c, p')
    /\ Some (curToken p') = last ws
    /\ peekToken p' = q
    /\ l p' = drop (length ws - 1) (l p)
    /\ errors p' = errors p.
Proof.
  induction ws as [|w ws IH]; intros total current p fuel q Hne Hall Hq Hpre Hfuel;
    [congruence|].
  destruct fuel as [|fuel]; [simpl in Hfuel; lia|].
  pose proof Hall as Hall0. apply Forall_cons in Hall0 as [Hw Hall'].
  destruct Hpre as [k Hk]. unfold upcoming in Hk. simpl in Hk.
  injection Hk as Hcur Hrest.
  cbn [parseCompoundNumber_loop]. unfold bind at 1, get.
  rewrite Hcur. unfold is_number_word in Hw. rewrite Hw.
  pose proof (loop_step_spec _ total current Hw) as Hstep; cbv zeta in Hstep.
  rewrite Hstep; clear Hstep.
  change (Typ <$> w :: ws) with (Typ w :: (Typ <$> ws)).
  cbn [fold_left].
  destruct (compound_step (total, current) (Typ w)) as [total' current'] eqn:Estep.
  destruct ws as [|w2 ws].
  - simpl in Hrest. injection Hrest as Hpeek _.
    rewrite Hpeek, Hq. simpl.
    exists p. unfold ret. simpl.
    repeat split; auto. rewrite Hcur; reflexivity.
  - simpl in Hrest. injection Hrest as Hpeek Hrest.
    pose proof Hall' as Hall2. apply Forall_cons in Hall2 as [Hw2 _].
    unfold is_number_word in Hw2. rewrite Hpeek, Hw2. cbn [negb].
    destruct (upcoming_nextToken p) as (p1 & Hnext & Hc1 & He1 & Hl1 & k1 & Hup1).
    unfold bind. rewrite Hnext.
    destruct (IH total' current' p1 fuel q) as (p' & Hrun & Hlast & Hpk & Hl & Herr).
    + discriminate.
    + exact Hall'.
    + exact Hq.
    + exists (k ++ k1). rewrite Hup1. unfold upcoming. simpl.
      rewrite Hpeek, Hrest. simpl. rewrite <- !app_assoc. reflexivity.
    + simpl in Hfuel |- *. lia.
    + exists p'. rewrite Hrun.
      repeat split; auto.
      * rewrite Hl, Hl1. simpl. rewrite Nat.sub_0_r.
        destruct (l p); simpl; [rewrite drop_nil|]; reflexivity.
      * congruence.
Qed.

(** C5. Starting on the first word of a maximal run [ws] of number-word
    tokens (the next token [q] is not a number word), [parseCompoundNumber]
    returns the value the two-accumulator recipe [compound_value] gives for
    the run, stops on the last word of the run with [q] as lookahead, and
    records no diagnostic. *)
Theorem parseCompoundNumber_folds_run ws q p fuel :
  ws <> [] ->
  Forall is_number_word ws ->
  IsNumberWord (Typ q) = false ->
  (ws ++ [q]) `prefix_of` upcoming p ->
  (length ws <= fuel)%nat ->
  exists p',
    parseCompoundNumber fuel p = Some (compound_value (Typ <$> ws), p')
    /\ Some (curToken p') = last ws
    /\ peekToken p' = q
    /\ l p' = drop (length ws - 1) (l p)
    /\ errors p' = errors p.
Proof.
  intros Hne Hall Hq Hpre Hfuel.
  exact (compound_loop_run ws 0 0 p fuel q Hne Hall Hq Hpre Hfuel).
Qed.

Lemma parseCompoundNumber_folds_run_witness :
  (one_million_one <> []
   /\ Forall is_number_word one_million_one
   /\ IsNumberWord (Typ eofToken) = false
   /\ (one_million_one ++ [eofToken]) `prefix_of` upcoming (New one_million_one)
   /\ (length one_million_one <= 3)%nat)
  /\ exists p',
      parseCompoundNumber 3 (New one_million_one)
      = Some (compound_value (Typ <$> one_million_one), p')
      /\ Some (curToken p') = last one_million_one
      /\ peekToken p' = eofToken
      /\ l p' = drop (length one_million_one - 1) (l (New one_million_one))
      /\ errors p' = errors (New one_million_one).
Proof.
  assert (H1 : one_million_one <> []) by discriminate.
  assert (H2 : Forall is_number_word one_million_one)
    by (repeat constructor).
  assert (H3 : IsNumberWord (Typ eofToken) = false) by reflexivity.
  assert (H4 : (one_million_one ++ [eofToken]) `prefix_of` upcoming (New one_million_one))
    by (exists []; reflexivity).
  assert (H5 : (length one_million_one <= 3)%nat) by (simpl; lia).
  split; [repeat split; assumption|].
  exact (parseCompoundNumber_folds_run one_million_one eofToken
           (New one_million_one) 3 H1 H2 H3 H4 H5).
Defined.

(** The consequences the specification lists. *)
Example one_hundred_twenty_three :
  compound_value [ONE; HUNDRED; TWENTY; THREE] = 123.
Proof. reflexivity. Qed.

Example one_million : compound_value [ONE; MILLION] = 1000000.
Proof. reflexivity. Qed.

Example one_million_one_value : compound_value [ONE; MILLION; ONE] = 1000001.
Proof. reflexivity. Qed.

Example forty_two : compound_value [FORTY; TWO] = 42.
Proof. reflexivity. Qed.

(** The same through the parser, from the tokens of the source text. *)
Example parse_one_hundred_twenty_three :
  fst <$> parsePrimary 5
    (New [word ONE "one"; word HUNDRED "hundred"; word TWENTY "twenty";
          word THREE "three"])
  = Some (IntegerLiteral 123).
Proof. reflexivity. Qed.

Example parse_one_million_one :
  fst <$> parsePrimary 5 (New one_million_one) = Some (IntegerLiteral 1000001).
Proof. reflexivity. Qed.

(** *** What the productions can build *)

Lemma yields_ret {A} (Q : A -> Prop) a : Q a -> yields Q (ret a).
Proof. intros H p b p' E. unfold ret in E. congruence. Qed.

Lemma yields_bind {A B} (Q1 : A -> Prop) (Q : B -> Prop) m k :
  yields Q1 m -> (forall a, Q1 a -> yields Q (k a)) -> yields Q (bind m k).
Proof.
  intros Hm Hk p b p' E. apply bind_Some in E as (a & p1 & E1 & E2).
  exact (Hk a (Hm _ _ _ E1) _ _ _ E2).
Qed.

Lemma yields_any {A} (m : P A) : yields (fun _ => True) m.
Proof. intros p a p' _. exact I. Qed.

Lemma yields_out_of_fuel {A} (Q : A -> Prop) : yields Q out_of_fuel.
Proof. intros p a p' E. discriminate E. Qed.

Lemma ariths_snoc es e : ariths es -> arith e -> ariths (es ++ [e]).
Proof.
  unfold ariths, arith. intros H1 H2. rewrite forallb_app, H1. simpl.
  rewrite H2. reflexivity.
Qed.

Lemma stmts_ok_snoc ss s : stmts_ok ss -> stmt_ok s -> stmts_ok (ss ++ [s]).
Proof.
  unfold stmts_ok, stmt_ok. intros H1 H2. rewrite forallb_app, H1. simpl.
  rewrite H2. reflexivity.
Qed.

Create HintDb yields discriminated.

(** One syntax-directed step through an action. *)
Ltac yields_step :=
  lazymatch goal with
  | |- yields _ (bind _ _) =>
      eapply yields_bind;
      [ first [ solve [eauto 2 with yields] | apply yields_any ] | intros ? ? ]
  | |- yields _ (ret _) => apply yields_ret
  | |- yields _ out_of_fuel => apply yields_out_of_fuel
  | |- yields _ (if ?b then _ else _) => destruct b
  | |- yields _ (match ?x with _ => _ end) => destruct x
  end.

(** Close a goal about the shape of a built node from the facts collected
    about its parts. *)
Ltac shape :=
  unfold opt_stmt_ok, block_ok in *;
  unfold arith, ariths, stmt_ok, stmts_ok, block_operands_arith,
    header_pair_arith in *;
  repeat match goal with
         | b : BlockStatement |- _ => destruct b
         end;
  simpl in *;
  repeat match goal with
         | H : _ = true |- _ => rewrite H
         end;
  simpl; try reflexivity; try exact I.

Ltac yields_auto := repeat yields_step; try solve [shape | eauto with yields].

Lemma parseNumberWord_arith fuel : yields arith (parseNumberWord fuel).
Proof. unfold parseNumberWord. yields_auto. Qed.
#[local] Hint Resolve parseNumberWord_arith : yields.

Section PrimaryFacts.

Variable fuel : nat.
Variable rec : P Expression.
Hypothesis rec_arith : yields arith rec.

#[local] Hint Resolve rec_arith : yields.

Lemma parseAndPrimaries_ariths n : forall acc,
  ariths acc -> yields ariths (parseAndPrimaries rec n acc).
Proof.
  induction n as [|n IH]; intros acc Hacc; simpl.
  - apply yields_out_of_fuel.
  - yields_auto. apply IH. apply ariths_snoc; assumption.
Qed.

Lemma parsePrimary_body_arith : yields arith (parsePrimary_body fuel rec).
Proof.
  assert (Hargs : forall e, arith e ->
            yields ariths (parseAndPrimaries rec fuel [e])).
  { intros e He. apply parseAndPrimaries_ariths. unfold ariths, arith in *.
    simpl. rewrite He. reflexivity. }
  unfold parsePrimary_body, parseListLiteral, parseLengthExpression,
    parseIndexExpression, parseBodyOfExpression, parseStatusOfExpression,
    parseHeaderFromExpression, parseFieldFromExpression,
    parseMethodOfExpression, parsePathOfExpression, parseQueryFromExpression,
    parseCallExpression.
  yields_auto.
Qed.

End PrimaryFacts.

Lemma parsePrimary_arith fuel : yields arith (parsePrimary fuel).
Proof.
  induction fuel as [|fuel IH]; simpl.
  - apply yields_out_of_fuel.
  - apply parsePrimary_body_arith. exact IH.
Qed.
#[local] Hint Resolve parsePrimary_arith : yields.

Lemma parseTerm_loop_arith fuel n : forall left,
  arith left -> yields arith (parseTerm_loop fuel n left).
Proof.
  induction n as [|n IH]; intros left Hl; simpl.
  - apply yields_out_of_fuel.
  - yields_auto; apply IH; shape.
Qed.

Lemma parseTerm_arith fuel : yields arith (parseTerm fuel).
Proof.
  unfold parseTerm. yields_auto. apply parseTerm_loop_arith. assumption.
Qed.
#[local] Hint Resolve parseTerm_arith : yields.

Lemma parseArithmeticExpression_loop_arith fuel n : forall left,
  arith left -> yields arith (parseArithmeticExpression_loop fuel n left).
Proof.
  induction n as [|n IH]; intros left Hl; simpl.
  - apply yields_out_of_fuel.
  - yields_auto; apply IH; shape.
Qed.

Lemma parseArithmeticExpression_arith fuel :
  yields arith (parseArithmeticExpression fuel).
Proof.
  unfold parseArithmeticExpression. yields_auto.
  apply parseArithmeticExpression_loop_arith. assumption.
Qed.

(** Every operand parsed through [parseExpression] is free of comparison
    and logical operators. *)
Lemma parseExpression_arith fuel : yields arith (parseExpression fuel).
Proof. apply parseArithmeticExpression_arith. Qed.
#[local] Hint Resolve parseExpression_arith : yields.

Section StatementFacts.

Variable fuel : nat.
Variable rec : P (option Statement).
Hypothesis rec_ok : yields opt_stmt_ok rec.

#[local] Hint Resolve rec_ok : yields.

Lemma parseBlockStatement_loop_ok n : forall acc,
  stmts_ok acc -> yields stmts_ok (parseBlockStatement_loop rec n acc).
Proof.
  induction n as [|n IH]; intros acc Hacc; simpl.
  - apply yields_out_of_fuel.
  - yields_auto. apply IH.
    match goal with
    | o : option Statement |- _ => destruct o; [apply stmts_ok_snoc|]; assumption
    end.
Qed.

Lemma parseBlockStatement_ok : yields block_ok (parseBlockStatement fuel rec).
Proof.
  unfold parseBlockStatement.
  eapply yields_bind; [apply parseBlockStatement_loop_ok; reflexivity|].
  intros ss Hss. apply yields_ret. exact Hss.
Qed.

#[local] Hint Resolve parseBlockStatement_ok : yields.

Lemma parseOptionalHeaders_arith : yields arith (parseOptionalHeaders fuel).
Proof. unfold parseOptionalHeaders. yields_auto. Qed.

#[local] Hint Resolve parseOptionalHeaders_arith : yields.

Lemma parseReplyModifiers_ok n : forall st hs,
  arith st -> forallb header_pair_arith hs = true ->
  yields reply_mods_ok (parseReplyModifiers fuel n st hs).
Proof.
  induction n as [|n IH]; intros st hs Hst Hhs; simpl.
  - apply yields_out_of_fuel.
  - yields_auto; try (apply IH; try assumption).
    + rewrite forallb_app, Hhs. shape.
    + split; assumption.
Qed.

Lemma parseStatement_body_ok : yields opt_stmt_ok (parseStatement_body fuel rec).
Proof.
  unfold parseStatement_body.
  eapply yields_bind; [apply yields_any|]. intros p0 _.
  destruct (Typ (curToken p0));
    try (apply yields_ret; exact I);
    unfold some_statement;
    (eapply yields_bind; [|intros s Hs; apply yields_ret; exact Hs]).
  all: unfold parseSetStatement, parseFunctionDefinition,
         parseIncreaseStatement, parseDecreaseStatement, parseIfStatement,
         parseWhileStatement, parseForStatement, parseReturnStatement,
         parseSayStatement, parseAskStatement, parseAppendStatement,
         parseFetchStatement, parseSendStatement, parsePutStatement,
         parseDeleteStatement, parseParseJsonStatement,
         parseEncodeJsonStatement, parseServeStatement,
         parseWhenRouteStatement, parseRouteToStatement,
         parseStopServerStatement, parseIntoTarget, parseAsJsonInto.
  all: try solve [yields_auto].
  unfold parseReplyStatement.
  yields_step. yields_step; [yields_auto|].
  do 4 yields_step.
  eapply yields_bind; [apply (parseReplyModifiers_ok fuel ENil []); reflexivity|].
  intros [[st hs]|] Hm; yields_auto. destruct Hm. shape. assumption.
Qed.

End StatementFacts.

Lemma parseStatement_ok fuel : yields opt_stmt_ok (parseStatement fuel).
Proof.
  induction fuel as [|fuel IH]; simpl.
  - apply yields_out_of_fuel.
  - apply parseStatement_body_ok. exact IH.
Qed.

Lemma ParseProgram_loop_ok fuel n : forall acc,
  stmts_ok acc -> yields stmts_ok (ParseProgram_loop fuel n acc).
Proof.
  induction n as [|n IH]; intros acc Hacc; simpl.
  - apply yields_out_of_fuel.
  - yields_step. yields_step; [yields_auto|].
    eapply yields_bind; [apply parseStatement_ok|]. intros o Ho.
    yields_step. apply IH.
    destruct o; [apply stmts_ok_snoc|]; assumption.
Qed.

(** C1, as the parser has it.  In every program the parser builds, each
    operand of a statement other than the condition of an [if] or a [while]
    (the value of [set], the operand of [say], of [return], of [append], the
    amounts, URLs, bodies, ports, paths, reply parts, and the iterable of
    [for each]) is an additive expression: no comparison and no logical
    operator occurs in it, at any depth, also in nested blocks.  Those
    operators are built by [parseCondition] only. *)
Theorem operands_are_additive fuel p prog p' :
  ParseProgram fuel p = Some (prog, p') ->
  forallb operands_arith (Statements prog) = true.
Proof.
  unfold ParseProgram. intros H.
  apply bind_Some in H as (ss & p1 & Hloop & Hret).
  unfold ret in Hret. injection Hret as <- _. simpl.
  exact (ParseProgram_loop_ok fuel fuel [] eq_refl _ _ _ Hloop).
Qed.

Lemma operands_are_additive_witness :
  forallb operands_arith [SetStatement "x" (Identifier "a")] = true.
Proof.
  refine (operands_are_additive 8 (New set_x_to_a_equals_b)
            {| Statements := [SetStatement "x" (Identifier "a")] |} _ _).
  vm_compute. reflexivity.
Defined.

(** C1, as stated, fails: the value of a [set] statement is parsed by
    [parseExpression], which stops in front of [equals]; the parser then
    skips the two tokens left over and reports nothing.  The same tokens
    parsed as a condition give the comparison. *)
Lemma set_value_stops_before_equals :
  (fun r => (Statements r.1, errors r.2))
    <$> ParseProgram 8 (New set_x_to_a_equals_b)
  = Some ([SetStatement "x" (Identifier "a")], [])
  /\ fst <$> parseExpression 8 (New a_equals_b) = Some (Identifier "a")
  /\ fst <$> parseCondition 8 (New a_equals_b)
     = Some (ComparisonExpression (Identifier "a") "equals" (Identifier "b")).
Proof. repeat split. Qed.

(** In a condition the operators nest as the grammar says: [or] below
    [and] below [not] below the comparisons below the arithmetic. *)
Example condition_precedence :
  fst <$> parseCondition 12
    (New [word NOT "not"; word IDENT "x"; word PLUS "plus"; word NUMBER "1";
          word IS "is"; word LESS "less"; word THAN "than"; word NUMBER "2";
          word AND "and"; word IDENT "y"; word OR "or"; word IDENT "z"])
  = Some (LogicalExpression
            (LogicalExpression
               (LogicalExpression ENil "not"
                  (ComparisonExpression
                     (ArithmeticExpression (Identifier "x") "plus" (IntegerLiteral 1))
                     "less" (IntegerLiteral 2)))
               "and" (Identifier "y"))
            "or" (Identifier "z")).
Proof. reflexivity. Qed.

(** *** Diagnostics *)

Lemma accumulates_ret {A} (a : A) : accumulates (ret a).
Proof. intros p b p' E. unfold ret in E. injection E as _ <-. reflexivity. Qed.

Lemma accumulates_bind {A B} (m : P A) (k : A -> P B) :
  accumulates m -> (forall a, accumulates (k a)) -> accumulates (bind m k).
Proof.
  intros Hm Hk p b p' E. apply bind_Some in E as (a & p1 & E1 & E2).
  etransitivity; [exact (Hm _ _ _ E1) | exact (Hk a _ _ _ E2)].
Qed.

Lemma accumulates_out_of_fuel {A} : accumulates (@out_of_fuel A).
Proof. intros p a p' E. discriminate E. Qed.

Lemma accumulates_get : accumulates get.
Proof. intros p a p' E. injection E as _ <-. reflexivity. Qed.

Lemma accumulates_nextToken : accumulates nextToken.
Proof.
  intros p a p' E. unfold nextToken in E. destruct (NextToken (l p)).
  injection E as _ <-. simpl. reflexivity.
Qed.

Lemma accumulates_curTokenIs t : accumulates (curTokenIs t).
Proof. intros p a p' E. injection E as _ <-. reflexivity. Qed.

Lemma accumulates_peekTokenIs t : accumulates (peekTokenIs t).
Proof. intros p a p' E. injection E as _ <-. reflexivity. Qed.

Lemma accumulates_addError e : accumulates (addError e).
Proof. intros p a p' E. injection E as _ <-. simpl. apply prefix_app_r. reflexivity. Qed.

Create HintDb accumulates discriminated.

#[local] Hint Resolve accumulates_get accumulates_nextToken accumulates_curTokenIs
  accumulates_peekTokenIs accumulates_addError : accumulates.

Ltac accumulates_step :=
  lazymatch goal with
  | |- accumulates (bind _ _) => apply accumulates_bind; [|intros ?]
  | |- accumulates (ret _) => apply accumulates_ret
  | |- accumulates out_of_fuel => apply accumulates_out_of_fuel
  | |- accumulates (if ?b then _ else _) => destruct b
  | |- accumulates (match ?x with _ => _ end) => destruct x
  | |- accumulates (let _ := _ in _) => cbv zeta
  | |- accumulates _ => solve [eauto 2 with accumulates]
  end.

Ltac accumulates_auto := repeat accumulates_step.

Lemma accumulates_peekError t : accumulates (peekError t).
Proof. unfold peekError. accumulates_auto. Qed.
#[local] Hint Resolve accumulates_peekError : accumulates.

Lemma accumulates_expectPeek t : accumulates (expectPeek t).
Proof. unfold expectPeek. accumulates_auto. Qed.
#[local] Hint Resolve accumulates_expectPeek : accumulates.

Lemma accumulates_parseCompoundNumber_loop fuel : forall total current,
  accumulates (parseCompoundNumber_loop fuel total current).
Proof.
  induction fuel as [|fuel IH]; intros total current; simpl;
    accumulates_auto; apply IH.
Qed.

Lemma accumulates_parseNumberWord fuel : accumulates (parseNumberWord fuel).
Proof.
  unfold parseNumberWord, parseCompoundNumber. accumulates_auto.
  apply accumulates_parseCompoundNumber_loop.
Qed.
#[local] Hint Resolve accumulates_parseNumberWord : accumulates.

Section AccumulatesPrimary.

Variable fuel : nat.
Variable rec : P Expression.
Hypothesis rec_accumulates : accumulates rec.

#[local] Hint Resolve rec_accumulates : accumulates.

Lemma accumulates_parseAndPrimaries n : forall acc,
  accumulates (parseAndPrimaries rec n acc).
Proof. induction n as [|n IH]; intros acc; simpl; accumulates_auto; apply IH. Qed.

#[local] Hint Resolve accumulates_parseAndPrimaries : accumulates.

Lemma accumulates_parsePrimary_body : accumulates (parsePrimary_body fuel rec).
Proof.
  unfold parsePrimary_body, parseListLiteral, parseLengthExpression,
    parseIndexExpression, parseBodyOfExpression, parseStatusOfExpression,
    parseHeaderFromExpression, parseFieldFromExpression,
    parseMethodOfExpression, parsePathOfExpression, parseQueryFromExpression,
    parseCallExpression.
  accumulates_auto.
Qed.

End AccumulatesPrimary.

Lemma accumulates_parsePrimary fuel : accumulates (parsePrimary fuel).
Proof.
  induction fuel as [|fuel IH]; simpl.
  - apply accumulates_out_of_fuel.
  - apply accumulates_parsePrimary_body. exact IH.
Qed.
#[local] Hint Resolve accumulates_parsePrimary : accumulates.

Lemma accumulates_parseTerm_loop fuel n : forall left,
  accumulates (parseTerm_loop fuel n left).
Proof. induction n as [|n IH]; intros left; simpl; accumulates_auto; apply IH. Qed.
#[local] Hint Resolve accumulates_parseTerm_loop : accumulates.

Lemma accumulates_parseTerm fuel : accumulates (parseTerm fuel).
Proof. unfold parseTerm. accumulates_auto. Qed.
#[local] Hint Resolve accumulates_parseTerm : accumulates.

Lemma accumulates_parseArithmeticExpression_loop fuel n : forall left,
  accumulates (parseArithmeticExpression_loop fuel n left).
Proof. induction n as [|n IH]; intros left; simpl; accumulates_auto; apply IH. Qed.
#[local] Hint Resolve accumulates_parseArithmeticExpression_loop : accumulates.

Lemma accumulates_parseArithmeticExpression fuel :
  accumulates (parseArithmeticExpression fuel).
Proof. unfold parseArithmeticExpression. accumulates_auto. Qed.
#[local] Hint Resolve accumulates_parseArithmeticExpression : accumulates.

Lemma accumulates_parseExpression fuel : accumulates (parseExpression fuel).
Proof. apply accumulates_parseArithmeticExpression. Qed.
#[local] Hint Resolve accumulates_parseExpression : accumulates.

Lemma accumulates_parseComparison fuel : accumulates (parseComparison fuel).
Proof. unfold parseComparison. accumulates_auto. Qed.
#[local] Hint Resolve accumulates_parseComparison : accumulates.

Lemma accumulates_parseLogicalNot fuel : accumulates (parseLogicalNot fuel).
Proof. induction fuel as [|fuel IH]; simpl; accumulates_auto; apply IH. Qed.
#[local] Hint Resolve accumulates_parseLogicalNot : accumulates.

Lemma accumulates_parseLogicalAnd_loop fuel n : forall left,
  accumulates (parseLogicalAnd_loop fuel n left).
Proof. induction n as [|n IH]; intros left; simpl; accumulates_auto; apply IH. Qed.
#[local] Hint Resolve accumulates_parseLogicalAnd_loop : accumulates.

Lemma accumulates_parseLogicalAnd fuel : accumulates (parseLogicalAnd fuel).
Proof. unfold parseLogicalAnd. accumulates_auto. Qed.
#[local] Hint Resolve accumulates_parseLogicalAnd : accumulates.

Lemma accumulates_parseLogicalOr_loop fuel n : forall left,
  accumulates (parseLogicalOr_loop fuel n left).
Proof. induction n as [|n IH]; intros left; simpl; accumulates_auto; apply IH. Qed.
#[local] Hint Resolve accumulates_parseLogicalOr_loop : accumulates.

Lemma accumulates_parseCondition fuel : accumulates (parseCondition fuel).
Proof. unfold parseCondition, parseLogicalOr. accumulates_auto. Qed.
#[local] Hint Resolve accumulates_parseCondition : accumulates.

Section AccumulatesStatements.

Variable fuel : nat.
Variable rec : P (option Statement).
Hypothesis rec_accumulates : accumulates rec.

#[local] Hint Resolve rec_accumulates : accumulates.

Lemma accumulates_parseBlockStatement_loop n : forall acc,
  accumulates (parseBlockStatement_loop rec n acc).
Proof. induction n as [|n IH]; intros acc; simpl; accumulates_auto; apply IH. Qed.
#[local] Hint Resolve accumulates_parseBlockStatement_loop : accumulates.

Lemma accumulates_parseBlockStatement : accumulates (parseBlockStatement fuel rec).
Proof. unfold parseBlockStatement. accumulates_auto. Qed.
#[local] Hint Resolve accumulates_parseBlockStatement : accumulates.

Lemma accumulates_parseParameters_loop n : forall acc,
  accumulates (parseParameters_loop n acc).
Proof. induction n as [|n IH]; intros acc; simpl; accumulates_auto; apply IH. Qed.
#[local] Hint Resolve accumulates_parseParameters_loop : accumulates.

Lemma accumulates_parseReplyModifiers n : forall st hs,
  accumulates (parseReplyModifiers fuel n st hs).
Proof. induction n as [|n IH]; intros st hs; simpl; accumulates_auto; apply IH. Qed.
#[local] Hint Resolve accumulates_parseReplyModifiers : accumulates.

Lemma accumulates_parseStatement_body : accumulates (parseStatement_body fuel rec).
Proof.
  unfold parseStatement_body.
  apply accumulates_bind; [apply accumulates_get | intros p0].
  destruct (Typ (curToken p0)); try apply accumulates_ret;
    unfold some_statement, parseSetStatement, parseFunctionDefinition,
      parseIncreaseStatement, parseDecreaseStatement, parseIfStatement,
      parseWhileStatement, parseForStatement, parseReturnStatement,
      parseSayStatement, parseAskStatement, parseAppendStatement,
      parseFetchStatement, parseSendStatement, parsePutStatement,
      parseDeleteStatement, parseParseJsonStatement,
      parseEncodeJsonStatement, parseServeStatement,
      parseWhenRouteStatement, parseRouteToStatement, parseReplyStatement,
      parseStopServerStatement, parseAsJsonInto, parseIntoTarget,
      parseOptionalHeaders;
    accumulates_auto.
Qed.

End AccumulatesStatements.

Lemma accumulates_parseStatement fuel : accumulates (parseStatement fuel).
Proof.
  induction fuel as [|fuel IH]; simpl.
  - apply accumulates_out_of_fuel.
  - apply accumulates_parseStatement_body. exact IH.
Qed.
#[local] Hint Resolve accumulates_parseStatement : accumulates.

Lemma accumulates_ParseProgram_loop fuel n : forall acc,
  accumulates (ParseProgram_loop fuel n acc).
Proof. induction n as [|n IH]; intros acc; simpl; accumulates_auto; apply IH. Qed.

(** X20. The parser only ever adds diagnostics: those on record when
    [ParseProgram] starts are still there, in order, at the front of those
    on record when it ends. *)
Theorem diagnostics_only_accumulate fuel p prog p' :
  ParseProgram fuel p = Some (prog, p') ->
  errors p `prefix_of` errors p'.
Proof.
  assert (H : accumulates (ParseProgram fuel)).
  { unfold ParseProgram. accumulates_auto. apply accumulates_ParseProgram_loop. }
  apply H.
Qed.

Lemma diagnostics_only_accumulate_witness :
  errors (New set_one) `prefix_of` [ExpectedNext 1 IDENT NUMBER].
Proof.
  refine (diagnostics_only_accumulate 8 (New set_one)
            (program_after (ParseProgram 8 (New set_one)))
            (parser_after (ParseProgram 8 (New set_one))) _).
  vm_compute. reflexivity.
Defined.

(** *** What a parse without diagnostics has built *)

Lemma clean_ret {A} (Q : A -> Prop) a : Q a -> clean Q (ret a).
Proof. intros H p b p' E _. unfold ret in E. congruence. Qed.

Lemma clean_bind {A B} (Q1 : A -> Prop) (Q : B -> Prop) m k :
  clean Q1 m -> (forall a, accumulates (k a)) ->
  (forall a, Q1 a -> clean Q (k a)) -> clean Q (bind m k).
Proof.
  intros Hm Hacc Hk p b p' E Hnone. apply bind_Some in E as (a & p1 & E1 & E2).
  pose proof (Hacc a _ _ _ E2) as Hpre. rewrite Hnone in Hpre.
  apply prefix_nil_inv in Hpre.
  exact (Hk a (Hm _ _ _ E1 Hpre) _ _ _ E2 Hnone).
Qed.

Lemma clean_any {A} (m : P A) : clean (fun _ => True) m.
Proof. intros p a p' _ _. exact I. Qed.

Lemma clean_out_of_fuel {A} (Q : A -> Prop) : clean Q out_of_fuel.
Proof. intros p a p' E. discriminate E. Qed.

Lemma clean_addError e : clean (fun _ => False) (addError e).
Proof.
  intros p a p' E Hnone. injection E as _ <-. simpl in Hnone.
  destruct (errors p); discriminate Hnone.
Qed.

Lemma clean_expectPeek t : clean (fun ok => ok = true) (expectPeek t).
Proof.
  unfold expectPeek.
  eapply clean_bind; [apply clean_any | intros; accumulates_auto | intros b _].
  destruct b.
  - eapply clean_bind; [apply clean_any | intros; accumulates_auto | intros _ _].
    apply clean_ret. reflexivity.
  - unfold peekError.
    apply (clean_bind (fun _ => False)); [|intros; accumulates_auto | intros _ []].
    eapply clean_bind; [apply clean_any | intros; accumulates_auto | intros p0 _].
    apply clean_addError.
Qed.

Lemma sounds_snoc es e : sounds es -> sound e -> sounds (es ++ [e]).
Proof.
  unfold sounds, sound. intros H1 H2. rewrite forallb_app, H1. simpl.
  rewrite H2. reflexivity.
Qed.

Lemma stmts_sound_snoc ss s : stmts_sound ss -> stmt_sound s -> stmts_sound (ss ++ [s]).
Proof.
  unfold stmts_sound, stmt_sound. intros H1 H2. rewrite forallb_app, H1. simpl.
  rewrite H2. reflexivity.
Qed.

Create HintDb clean discriminated.

#[local] Hint Resolve clean_expectPeek clean_addError : clean.

Ltac clean_step :=
  lazymatch goal with
  | |- clean _ (bind _ _) =>
      eapply clean_bind;
      [ first [ solve [eauto 2 with clean] | apply clean_any ]
      | intros ?; solve [accumulates_auto]
      | let a := fresh "a" in let H := fresh "H" in
        intros a H; cbv beta in H ]
  | |- clean _ (ret _) => apply clean_ret
  | |- clean _ out_of_fuel => apply clean_out_of_fuel
  | H : ?b = true |- clean _ (if negb ?b then _ else _) =>
      rewrite H; cbn [negb]; cbv iota
  | H : False |- _ => destruct H
  | |- clean _ (if ?b then _ else _) => destruct b
  | |- clean _ (match ?x with _ => _ end) => destruct x
  | |- clean _ (let _ := _ in _) => cbv zeta
  end.

Ltac built :=
  unfold opt_stmt_sound, block_sound, reply_mods_sound in *;
  unfold sound, sounds, stmt_sound, stmts_sound in *;
  repeat match goal with
         | b : BlockStatement |- _ => destruct b
         end;
  simpl in *; unfold header_pair_no_nil; simpl;
  repeat match goal with
         | H : _ /\ _ |- _ => destruct H
         | H : False |- _ => destruct H
         | H : is_Some None |- _ => destruct H as [? H]; discriminate H
         end;
  repeat match goal with
         | H : _ = true |- _ => rewrite H
         end;
  simpl; try reflexivity; try exact I; try discriminate;
  try match goal with H : _ |- _ => exact H end.

Ltac clean_auto := repeat clean_step; try solve [built | eauto with clean].

Lemma clean_parseNumberWord fuel : clean sound (parseNumberWord fuel).
Proof.
  unfold parseNumberWord.
  eapply clean_bind; [apply clean_any | intros; accumulates_auto | intros v _].
  apply clean_ret. reflexivity.
Qed.
#[local] Hint Resolve clean_parseNumberWord : clean.

Section CleanPrimary.

Variable fuel : nat.
Variable rec : P Expression.
Hypothesis rec_accumulates : accumulates rec.
Hypothesis rec_clean : clean sound rec.

#[local] Hint Resolve rec_accumulates : accumulates.

Lemma rec_parseAndPrimaries n acc : accumulates (parseAndPrimaries rec n acc).
Proof. apply accumulates_parseAndPrimaries. exact rec_accumulates. Qed.
#[local] Hint Resolve rec_parseAndPrimaries : accumulates.
#[local] Hint Resolve rec_clean : clean.

Lemma clean_parseAndPrimaries n : forall acc,
  sounds acc -> clean sounds (parseAndPrimaries rec n acc).
Proof.
  induction n as [|n IH]; intros acc Hacc; simpl.
  - apply clean_out_of_fuel.
  - clean_auto. apply IH. apply sounds_snoc; assumption.
Qed.

Lemma clean_parsePrimary_body : clean sound (parsePrimary_body fuel rec).
Proof.
  assert (Hargs : forall e, sound e ->
            clean sounds (parseAndPrimaries rec fuel [e])).
  { intros e He. apply clean_parseAndPrimaries. unfold sounds, sound in *.
    simpl. rewrite He. reflexivity. }
  unfold parsePrimary_body, parseListLiteral, parseLengthExpression,
    parseIndexExpression, parseBodyOfExpression, parseStatusOfExpression,
    parseHeaderFromExpression, parseFieldFromExpression,
    parseMethodOfExpression, parsePathOfExpression, parseQueryFromExpression,
    parseCallExpression.
  clean_auto.
Qed.

End CleanPrimary.

Lemma clean_parsePrimary fuel : clean sound (parsePrimary fuel).
Proof.
  induction fuel as [|fuel IH]; simpl.
  - apply clean_out_of_fuel.
  - apply clean_parsePrimary_body; [apply accumulates_parsePrimary | exact IH].
Qed.
#[local] Hint Resolve clean_parsePrimary : clean.

Lemma clean_parseTerm_loop fuel n : forall left,
  sound left -> clean sound (parseTerm_loop fuel n left).
Proof.
  induction n as [|n IH]; intros left Hl; simpl.
  - apply clean_out_of_fuel.
  - clean_auto; apply IH; built.
Qed.

Lemma clean_parseTerm fuel : clean sound (parseTerm fuel).
Proof. unfold parseTerm. clean_auto. apply clean_parseTerm_loop. assumption. Qed.
#[local] Hint Resolve clean_parseTerm : clean.

Lemma clean_parseArithmeticExpression_loop fuel n : forall left,
  sound left -> clean sound (parseArithmeticExpression_loop fuel n left).
Proof.
  induction n as [|n IH]; intros left Hl; simpl.
  - apply clean_out_of_fuel.
  - clean_auto; apply IH; built.
Qed.

Lemma clean_parseArithmeticExpression fuel :
  clean sound (parseArithmeticExpression fuel).
Proof.
  unfold parseArithmeticExpression. clean_auto.
  apply clean_parseArithmeticExpression_loop. assumption.
Qed.
#[local] Hint Resolve clean_parseArithmeticExpression : clean.

Lemma clean_parseExpression fuel : clean sound (parseExpression fuel).
Proof. apply clean_parseArithmeticExpression. Qed.
#[local] Hint Resolve clean_parseExpression : clean.

Lemma clean_parseComparison fuel : clean sound (parseComparison fuel).
Proof. unfold parseComparison. clean_auto. Qed.
#[local] Hint Resolve clean_parseComparison : clean.

Lemma clean_parseLogicalNot fuel : clean sound (parseLogicalNot fuel).
Proof.
  induction fuel as [|fuel IH]; simpl.
  - apply clean_out_of_fuel.
  - clean_auto.
Qed.
#[local] Hint Resolve clean_parseLogicalNot : clean.

Lemma clean_parseLogicalAnd_loop fuel n : forall left,
  sound left -> clean sound (parseLogicalAnd_loop fuel n left).
Proof.
  induction n as [|n IH]; intros left Hl; simpl.
  - apply clean_out_of_fuel.
  - clean_auto; apply IH; built.
Qed.

Lemma clean_parseLogicalAnd fuel : clean sound (parseLogicalAnd fuel).
Proof. unfold parseLogicalAnd. clean_auto. apply clean_parseLogicalAnd_loop. assumption. Qed.
#[local] Hint Resolve clean_parseLogicalAnd : clean.

Lemma clean_parseLogicalOr_loop fuel n : forall left,
  sound left -> clean sound (parseLogicalOr_loop fuel n left).
Proof.
  induction n as [|n IH]; intros left Hl; simpl.
  - apply clean_out_of_fuel.
  - clean_auto; apply IH; built.
Qed.

Lemma clean_parseCondition fuel : clean sound (parseCondition fuel).
Proof.
  unfold parseCondition, parseLogicalOr. clean_auto.
  apply clean_parseLogicalOr_loop. assumption.
Qed.
#[local] Hint Resolve clean_parseCondition : clean.

Section CleanStatements.

Variable fuel : nat.
Variable rec : P (option Statement).
Hypothesis rec_accumulates : accumulates rec.
Hypothesis rec_clean : clean opt_stmt_sound rec.

#[local] Hint Resolve rec_accumulates : accumulates.
#[local] Hint Resolve rec_clean : clean.

Lemma rec_parseBlockStatement_loop n acc :
  accumulates (parseBlockStatement_loop rec n acc).
Proof. apply accumulates_parseBlockStatement_loop. exact rec_accumulates. Qed.

Lemma rec_parseBlockStatement : accumulates (parseBlockStatement fuel rec).
Proof. apply accumulates_parseBlockStatement. exact rec_accumulates. Qed.

#[local] Hint Resolve rec_parseBlockStatement_loop rec_parseBlockStatement
  accumulates_parseParameters_loop accumulates_parseReplyModifiers : accumulates.

Lemma clean_parseBlockStatement_loop n : forall acc,
  stmts_sound acc -> clean stmts_sound (parseBlockStatement_loop rec n acc).
Proof.
  induction n as [|n IH]; intros acc Hacc; simpl.
  - apply clean_out_of_fuel.
  - clean_auto. apply IH.
    match goal with
    | o : option Statement |- _ => destruct o; [apply stmts_sound_snoc|]; assumption
    end.
Qed.

Lemma clean_parseBlockStatement : clean block_sound (parseBlockStatement fuel rec).
Proof.
  unfold parseBlockStatement.
  eapply clean_bind; [apply clean_parseBlockStatement_loop; reflexivity
                     | intros; accumulates_auto |].
  intros ss Hss. apply clean_ret. exact Hss.
Qed.

#[local] Hint Resolve clean_parseBlockStatement : clean.

Lemma clean_parseOptionalHeaders : clean sound (parseOptionalHeaders fuel).
Proof. unfold parseOptionalHeaders. clean_auto. Qed.

Lemma clean_parseIntoTarget : clean is_Some parseIntoTarget.
Proof. unfold parseIntoTarget. clean_auto. Qed.

Lemma accumulates_parseIntoTarget : accumulates parseIntoTarget.
Proof. unfold parseIntoTarget. accumulates_auto. Qed.

#[local] Hint Resolve clean_parseOptionalHeaders clean_parseIntoTarget : clean.
#[local] Hint Resolve accumulates_parseIntoTarget : accumulates.

Lemma clean_parseAsJsonInto : clean is_Some parseAsJsonInto.
Proof. unfold parseAsJsonInto. clean_auto. Qed.

Lemma accumulates_parseAsJsonInto : accumulates parseAsJsonInto.
Proof. unfold parseAsJsonInto. accumulates_auto. Qed.

Lemma accumulates_parseOptionalHeaders : accumulates (parseOptionalHeaders fuel).
Proof. unfold parseOptionalHeaders. accumulates_auto. Qed.

#[local] Hint Resolve clean_parseAsJsonInto : clean.
#[local] Hint Resolve accumulates_parseAsJsonInto accumulates_parseOptionalHeaders
  : accumulates.

Lemma clean_parseReplyModifiers n : forall st hs,
  sound st -> forallb header_pair_no_nil hs = true ->
  clean reply_mods_sound (parseReplyModifiers fuel n st hs).
Proof.
  induction n as [|n IH]; intros st hs Hst Hhs; simpl.
  - apply clean_out_of_fuel.
  - clean_auto; try (apply IH; try assumption).
    + rewrite forallb_app, Hhs. built.
    + split; assumption.
Qed.

Lemma clean_parseReplyModifiers_start :
  clean reply_mods_sound (parseReplyModifiers fuel fuel ENil []).
Proof. apply clean_parseReplyModifiers; reflexivity. Qed.

Lemma clean_requestVar (hasUsing : bool) :
  clean is_Some
    (if hasUsing then
       nextToken ;;
       ok ← expectPeek IDENT;
       if negb ok then ret None else
       p ← get;
       ret (Some (Some (Literal (curToken p))))
     else ret (Some None)).
Proof. clean_auto; eexists; reflexivity. Qed.

#[local] Hint Resolve clean_parseReplyModifiers_start clean_requestVar : clean.

Ltac unfold_statements :=
  unfold some_statement, parseSetStatement, parseFunctionDefinition,
    parseIncreaseStatement, parseDecreaseStatement, parseIfStatement,
    parseWhileStatement, parseForStatement, parseReturnStatement,
    parseSayStatement, parseAskStatement, parseAppendStatement,
    parseFetchStatement, parseSendStatement, parsePutStatement,
    parseDeleteStatement, parseParseJsonStatement,
    parseEncodeJsonStatement, parseServeStatement,
    parseWhenRouteStatement, parseReplyStatement,
    parseRouteToStatement, parseStopServerStatement.

Lemma clean_parseStatement_body : clean opt_stmt_sound (parseStatement_body fuel rec).
Proof.
  unfold parseStatement_body.
  eapply clean_bind;
    [ apply clean_any
    | intros a; destruct (Typ (curToken a)); unfold_statements; accumulates_auto
    | ].
  intros p0 _.
  destruct (Typ (curToken p0));
    try (apply clean_ret; exact I);
    unfold some_statement;
    (apply (clean_bind stmt_sound);
       [| intros s; apply accumulates_ret | intros s Hs; apply clean_ret; exact Hs]).
  all: unfold_statements.
  all: try solve [clean_auto].
Qed.

End CleanStatements.

Lemma clean_parseStatement fuel : clean opt_stmt_sound (parseStatement fuel).
Proof.
  induction fuel as [|fuel IH]; simpl.
  - apply clean_out_of_fuel.
  - apply clean_parseStatement_body; [apply accumulates_parseStatement | exact IH].
Qed.

Lemma clean_ParseProgram_loop fuel n : forall acc,
  stmts_sound acc -> clean stmts_sound (ParseProgram_loop fuel n acc).
Proof.
  induction n as [|n IH]; intros acc Hacc; simpl.
  - apply clean_out_of_fuel.
  - eapply clean_bind; [apply clean_any | |intros atEnd _].
    { intros a. pose proof (accumulates_ParseProgram_loop fuel n). accumulates_auto. }
    destruct atEnd; [apply clean_ret; exact Hacc|].
    eapply clean_bind; [apply clean_parseStatement | |intros o Ho].
    { intros a. pose proof (accumulates_ParseProgram_loop fuel n). accumulates_auto. }
    eapply clean_bind; [apply clean_any | |intros _ _].
    { intros a. apply accumulates_ParseProgram_loop. }
    apply IH. destruct o; [apply stmts_sound_snoc|]; assumption.
Qed.

(** X21. A parse that records no diagnostic builds no nil pointer: when
    [ParseProgram] ends with no diagnostic on record, no statement and no
    expression of the program, at any depth, is a nil pointer behind a
    non-nil interface -- the node a production that gave up leaves in the
    tree, on which the evaluator panics.  (The nil interface, which
    [parsePrimary] returns without a diagnostic when no expression starts
    at the current token, can still occur.) *)
Theorem clean_parse_has_no_nil_pointer fuel p prog p' :
  ParseProgram fuel p = Some (prog, p') ->
  errors p' = [] ->
  forallb statement_no_nil_pointer (Statements prog) = true.
Proof.
  unfold ParseProgram. intros H Hnone.
  apply bind_Some in H as (ss & p1 & Hloop & Hret).
  unfold ret in Hret. injection Hret as <- <-. simpl.
  exact (clean_ParseProgram_loop fuel fuel [] eq_refl _ _ _ Hloop Hnone).
Qed.

Lemma clean_parse_has_no_nil_pointer_witness :
  forallb statement_no_nil_pointer [SetStatement "x" (Identifier "a")] = true.
Proof.
  refine (clean_parse_has_no_nil_pointer 8 (New set_x_to_a_equals_b)
            {| Statements := [SetStatement "x" (Identifier "a")] |}
            (parser_after (ParseProgram 8 (New set_x_to_a_equals_b))) _ _).
  - vm_compute. reflexivity.
  - vm_compute. reflexivity.
Defined.

(** With a diagnostic on record the tree can hold a nil pointer: [set 1]
    parses to the nil statement.  And a missing operand is no diagnostic:
    [say] alone parses to a [say] of the nil interface. *)
Example set_without_name_is_a_nil_pointer :
  (fun r => (Statements r.1, errors r.2)) <$> ParseProgram 8 (New set_one)
  = Some ([NilPtrStatement], [ExpectedNext 1 IDENT NUMBER]).
Proof. reflexivity. Qed.

Example say_without_operand_is_accepted :
  (fun r => (Statements r.1, errors r.2)) <$> ParseProgram 8 (New say_nothing)
  = Some ([SayStatement ENil], []).
Proof. reflexivity. Qed.

(** *** Termination *)

Lemma finishes_ret {A} (a : A) p (Q : A -> Parser -> Prop) :
  Q a p -> finishes (ret a) p Q.
Proof. intros H. exists a, p. split; [reflexivity | exact H]. Qed.

Lemma finishes_bind {A B} (m : P A) (k : A -> P B) p (Q : B -> Parser -> Prop) :
  finishes m p (fun a p1 => finishes (k a) p1 Q) -> finishes (bind m k) p Q.
Proof.
  intros (a & p1 & Hm & b & p2 & Hk & HQ). exists b, p2.
  split; [|exact HQ]. unfold bind. rewrite Hm. exact Hk.
Qed.

Lemma finishes_use {A} (m : P A) p (Q1 Q : A -> Parser -> Prop) :
  finishes m p Q1 -> (forall a p', Q1 a p' -> Q a p') -> finishes m p Q.
Proof. intros (a & p' & Hm & H1) H. exists a, p'. split; [exact Hm | apply H, H1]. Qed.

Lemma finishes_get p (Q : Parser -> Parser -> Prop) : Q p p -> finishes get p Q.
Proof. intros H. exists p, p. split; [reflexivity | exact H]. Qed.

Lemma nextToken_advance p : nextToken p = Some (tt, advance p).
Proof. unfold nextToken, advance, NextToken. destruct (l p); reflexivity. Qed.

Lemma finishes_nextToken p (Q : unit -> Parser -> Prop) :
  Q tt (advance p) -> finishes nextToken p Q.
Proof. intros H. exists tt, (advance p). split; [apply nextToken_advance | exact H]. Qed.

Lemma finishes_curTokenIs t p (Q : bool -> Parser -> Prop) :
  Q (eqb (Typ (curToken p)) t) p -> finishes (curTokenIs t) p Q.
Proof. intros H. eexists _, p. split; [reflexivity | exact H]. Qed.

Lemma finishes_peekTokenIs t p (Q : bool -> Parser -> Prop) :
  Q (eqb (Typ (peekToken p)) t) p -> finishes (peekTokenIs t) p Q.
Proof. intros H. eexists _, p. split; [reflexivity | exact H]. Qed.

Lemma finishes_addError e p (Q : unit -> Parser -> Prop) :
  Q tt (with_error p e) -> finishes (addError e) p Q.
Proof. intros H. exists tt, (with_error p e). split; [reflexivity | exact H]. Qed.

Lemma finishes_expectPeek t p (Q : bool -> Parser -> Prop) :
  (eqb (Typ (peekToken p)) t = true -> Q true (advance p)) ->
  (Q false (with_error p (ExpectedNext (Line (peekToken p)) t (Typ (peekToken p))))) ->
  finishes (expectPeek t) p Q.
Proof.
  intros Hyes Hno. unfold expectPeek. apply finishes_bind, finishes_peekTokenIs.
  destruct (eqb (Typ (peekToken p)) t) eqn:E.
  - apply finishes_bind, finishes_nextToken, finishes_ret. apply Hyes. reflexivity.
  - apply finishes_bind. unfold peekError.
    apply finishes_bind, finishes_get, finishes_addError, finishes_ret. exact Hno.
Qed.

(** What [nextToken] does to the count. *)
Lemma well_formed_advance p : well_formed p -> well_formed (advance p).
Proof.
  intros (Hl & Hpeek & Hcur). unfold well_formed, advance. simpl.
  destruct (l p) as [|t r] eqn:El; simpl.
  - split; [constructor|]. split; [reflexivity|]. reflexivity.
  - apply Forall_cons in Hl as [Ht Hr]. split; [exact Hr|]. split.
    + intros E. contradiction.
    + intros E. specialize (Hpeek E). discriminate Hpeek.
Qed.

Lemma pending_advance p :
  well_formed p ->
  (pending (advance p) + (if at_end p then 0 else 1) = pending p)%nat.
Proof.
  intros (Hl & Hpeek & Hcur). unfold pending, at_end, advance. simpl.
  destruct (l p) as [|t r] eqn:El; simpl.
  - lia.
  - apply Forall_cons in Hl as [Ht Hr].
    destruct (eqb (Typ t) EOF) eqn:E; [apply eqb_eq in E; contradiction|].
    destruct (eqb (Typ (peekToken p)) EOF) eqn:E2.
    + apply eqb_eq in E2. specialize (Hpeek E2). discriminate Hpeek.
    + lia.
Qed.

Lemma well_formed_with_error p e : well_formed p -> well_formed (with_error p e).
Proof. intros H. exact H. Qed.

Lemma pending_with_error p e : pending (with_error p e) = pending p.
Proof. reflexivity. Qed.

Lemma at_end_with_error p e : at_end (with_error p e) = at_end p.
Proof. reflexivity. Qed.

Lemma cur_advance p : curToken (advance p) = peekToken p.
Proof. reflexivity. Qed.

Lemma pending_at_end p : well_formed p -> at_end p = true -> pending p = 0%nat.
Proof.
  intros (Hl & Hpeek & Hcur) E. unfold pending. rewrite E.
  unfold at_end in E. apply eqb_eq in E. specialize (Hcur E).
  rewrite (Hpeek Hcur). rewrite Hcur. reflexivity.
Qed.

Lemma advance_at_end p : well_formed p -> at_end p = true -> at_end (advance p) = true.
Proof.
  intros (Hl & Hpeek & Hcur) E. unfold at_end in *. simpl.
  apply eqb_eq in E. apply eqb_eq. exact (Hcur E).
Qed.

Lemma not_at_end t p : Typ (curToken p) = t -> t <> EOF -> at_end p = false.
Proof.
  intros E Hne. unfold at_end. rewrite E.
  destruct (eqb t EOF) eqn:E2; [apply eqb_eq in E2; contradiction | reflexivity].
Qed.

Lemma number_word_not_end p : IsNumberWord (Typ (curToken p)) = true -> at_end p = false.
Proof.
  intros H. unfold at_end. destruct (Typ (curToken p)); try discriminate H; reflexivity.
Qed.

Lemma peek_not_end t p :
  well_formed p -> Typ (peekToken p) = t -> t <> EOF -> at_end p = false.
Proof.
  intros (_ & _ & Hcur) E Ht. unfold at_end.
  destruct (eqb (Typ (curToken p)) EOF) eqn:E2; [|reflexivity].
  apply eqb_eq in E2. exfalso. apply Ht. rewrite <- E. exact (Hcur E2).
Qed.

Lemma pending_bounds p :
  well_formed p -> if at_end p then pending p = 0%nat else (1 <= pending p)%nat.
Proof.
  intros Hwf. destruct (at_end p) eqn:E.
  - apply pending_at_end; assumption.
  - unfold pending. rewrite E. lia.
Qed.

(** What the tests on the tokens tell about the end of the input. *)
Ltac learn :=
  repeat match goal with
  | H : (_ && _) = true |- _ => apply andb_prop in H as [? ?]
  | H : (_ || _) = true |- _ => apply orb_prop in H as [H|H]
  | H : negb _ = true |- _ => apply negb_true_iff in H
  | H : eqb (Typ (curToken ?p)) EOF = false |- _ =>
      change (at_end p = false) in H
  | H : eqb (Typ (curToken _)) _ = true |- _ => apply eqb_eq in H
  | H : eqb (Typ (peekToken _)) _ = true |- _ => apply eqb_eq in H
  | H : curToken ?q = peekToken ?p, H2 : Typ (peekToken ?p) = ?t |- _ =>
      lazymatch goal with
      | _ : Typ (curToken q) = t |- _ => fail
      | _ => assert (Typ (curToken q) = t) by (rewrite H; exact H2)
      end
  | H : Typ (curToken ?p) = ?t |- _ =>
      lazymatch goal with
      | _ : at_end p = false |- _ => fail
      | _ => assert (at_end p = false) by (apply (not_at_end t p H); discriminate)
      end
  | H : Typ (peekToken ?p) = ?t, Hwf : well_formed ?p |- _ =>
      lazymatch goal with
      | _ : at_end p = false |- _ => fail
      | _ => assert (at_end p = false) by (apply (peek_not_end t p Hwf H); discriminate)
      end
  | H : IsNumberWord (Typ (curToken ?p)) = true |- _ =>
      lazymatch goal with
      | _ : at_end p = false |- _ => fail
      | _ => assert (at_end p = false) by (apply number_word_not_end; exact H)
      end
  end.

Ltac measure :=
  unfold onward in *;
  repeat match goal with
         | H : _ /\ _ |- _ => destruct H
         end;
  repeat match goal with
         | Hwf : well_formed ?p |- _ =>
             lazymatch goal with
             | _ : (if at_end p then pending p = 0%nat else (1 <= pending p)%nat) |- _ => fail
             | _ => pose proof (pending_bounds p Hwf)
             end
         end;
  repeat match goal with
         | E : at_end ?p = _, H : context [at_end ?p] |- _ =>
             lazymatch type of H with
             | at_end p = _ => fail
             | _ => rewrite E in H
             end
         end;
  repeat match goal with
         | H : context [if ?b then _ else _] |- _ => destruct b
         end;
  lia.

Ltac step_to p q :=
  let Hwf := fresh "Hwf" in
  let Hpe := fresh "Hpe" in
  let Hcu := fresh "Hcu" in
  assert (Hwf : well_formed (advance p))
    by (apply well_formed_advance; assumption);
  assert (Hpe : (pending (advance p) + (if at_end p then 0 else 1) = pending p)%nat)
    by (apply pending_advance; assumption);
  pose proof (cur_advance p) as Hcu;
  set (q := advance p) in *; clearbody q; learn.

Ltac error_to p e q :=
  let Hwf := fresh "Hwf" in
  let Hpe := fresh "Hpe" in
  assert (Hwf : well_formed (with_error p e)) by assumption;
  assert (Hpe : pending (with_error p e) = pending p) by reflexivity;
  set (q := with_error p e) in *; clearbody q.

Create HintDb total discriminated.

#[local] Hint Extern 1 (well_formed _) => assumption : total.
#[local] Hint Extern 1 (_ < _)%nat => measure : total.
#[local] Hint Extern 1 (_ <= _)%nat => measure : total.
#[local] Hint Extern 1 (IsNumberWord _ = true) => assumption : total.

Ltac fin_step :=
  cbv beta;
  lazymatch goal with
  | |- finishes (bind _ _) _ _ => apply finishes_bind
  | |- finishes (ret _) _ _ => apply finishes_ret
  | |- finishes out_of_fuel _ _ => fail "out of fuel"
  | |- finishes get _ _ => apply finishes_get
  | |- finishes nextToken ?p _ =>
      apply finishes_nextToken; let q := fresh "p" in step_to p q
  | |- finishes (curTokenIs _) _ _ => apply finishes_curTokenIs
  | |- finishes (peekTokenIs _) _ _ => apply finishes_peekTokenIs
  | |- finishes (addError ?e) ?p _ =>
      apply finishes_addError; let q := fresh "p" in error_to p e q
  | |- finishes (expectPeek ?t) ?p _ =>
      apply finishes_expectPeek;
      [ intros ?; learn; let q := fresh "p" in step_to p q
      | let q := fresh "p" in
        error_to p (ExpectedNext (Line (peekToken p)) t (Typ (peekToken p))) q ]
  | |- finishes (if true then _ else _) _ _ => cbv iota
  | |- finishes (if false then _ else _) _ _ => cbv iota
  | |- finishes (if negb true then _ else _) _ _ => cbn [negb]
  | |- finishes (if negb false then _ else _) _ _ => cbn [negb]
  | |- finishes (if ?b then _ else _) _ _ => destruct b eqn:?; learn
  | |- finishes (match ?x with _ => _ end) _ _ => destruct x eqn:?; learn
  | |- finishes (let _ := _ in _) _ _ => cbv zeta
  | |- finishes _ _ _ =>
      eapply finishes_use;
      [ solve [eauto 3 with total]
      | let a := fresh "a" in let q := fresh "p" in
        intros a q [? ?] ]
  | |- onward _ _ => split; [assumption | measure]
  end.

Ltac fin := repeat fin_step.

Lemma parseCompoundNumber_loop_finishes n : forall sum current p,
  well_formed p -> (pending p <= n)%nat ->
  IsNumberWord (Typ (curToken p)) = true ->
  finishes (parseCompoundNumber_loop n sum current) p (fun _ p' => onward p p').
Proof.
  induction n as [|n IH]; intros sum current p Hwf Hn Hword.
  - learn. exfalso. measure.
  - cbn [parseCompoundNumber_loop]. apply finishes_bind, finishes_get.
    rewrite Hword. cbv zeta.
    match goal with
    | |- finishes (let '(_, _) := ?x in _) _ _ => destruct x as [sum' current']
    end.
    destruct (IsNumberWord (Typ (peekToken p))) eqn:Epeek; cbn [negb].
    + learn. fin_step. fin_step.
      eapply finishes_use.
      * apply IH; [assumption | measure |]. rewrite Hcu. exact Epeek.
      * intros a q [? ?]. fin_step.
    + fin.
Qed.

Lemma parseNumberWord_finishes n p :
  well_formed p -> (pending p <= n)%nat ->
  IsNumberWord (Typ (curToken p)) = true ->
  finishes (parseNumberWord n) p (fun _ p' => onward p p').
Proof.
  intros Hwf Hn Hword. unfold parseNumberWord, parseCompoundNumber.
  apply finishes_bind. eapply finishes_use.
  - apply parseCompoundNumber_loop_finishes; eassumption.
  - intros a q [? ?]. fin.
Qed.

#[local] Hint Resolve parseNumberWord_finishes : total.

Section PrimaryTotal.

Variable fuel : nat.
Variable rec : P Expression.
Hypothesis rec_total : total fuel rec.

Lemma rec_parsePrimary_finishes p :
  well_formed p -> (pending p < fuel)%nat ->
  finishes rec p (fun _ p' => onward p p').
Proof. apply rec_total. Qed.

#[local] Hint Resolve rec_parsePrimary_finishes : total.

Lemma parseAndPrimaries_finishes n : forall acc p,
  well_formed p -> (pending p < n)%nat -> (pending p < fuel + 2)%nat ->
  finishes (parseAndPrimaries rec n acc) p (fun _ p' => onward p p').
Proof.
  induction n as [|n IH]; intros acc p Hwf Hn Hfuel.
  - lia.
  - cbn [parseAndPrimaries]. fin.
Qed.

#[local] Hint Resolve parseAndPrimaries_finishes : total.

Lemma parsePrimary_body_finishes p :
  well_formed p -> (pending p < S fuel)%nat ->
  finishes (parsePrimary_body fuel rec) p (fun _ p' => onward p p').
Proof.
  intros Hwf Hn. unfold parsePrimary_body.
  unfold parseListLiteral, parseLengthExpression, parseIndexExpression,
    parseBodyOfExpression, parseStatusOfExpression, parseHeaderFromExpression,
    parseFieldFromExpression, parseMethodOfExpression, parsePathOfExpression,
    parseQueryFromExpression, parseCallExpression.
  fin.
Qed.

End PrimaryTotal.

Lemma parsePrimary_finishes k : total k (parsePrimary k).
Proof.
  induction k as [|k IH]; intros p Hwf Hn; [lia|].
  cbn [parsePrimary]. apply parsePrimary_body_finishes; assumption.
Qed.

Lemma parsePrimary_returns k p :
  well_formed p -> (pending p < k)%nat ->
  finishes (parsePrimary k) p (fun _ p' => onward p p').
Proof. apply parsePrimary_finishes. Qed.

#[local] Hint Resolve parsePrimary_returns : total.

Lemma parseTerm_loop_finishes k n : forall left p,
  well_formed p -> (pending p < n)%nat -> (pending p < k)%nat ->
  finishes (parseTerm_loop k n left) p (fun _ p' => onward p p').
Proof.
  induction n as [|n IH]; intros left p Hwf Hn Hk; [lia|].
  cbn [parseTerm_loop]. fin.
Qed.

#[local] Hint Resolve parseTerm_loop_finishes : total.

Lemma parseTerm_finishes k p :
  well_formed p -> (pending p < k)%nat ->
  finishes (parseTerm k) p (fun _ p' => onward p p').
Proof. intros Hwf Hk. unfold parseTerm. fin. Qed.

#[local] Hint Resolve parseTerm_finishes : total.

Lemma parseArithmeticExpression_loop_finishes k n : forall left p,
  well_formed p -> (pending p < n)%nat -> (pending p < k)%nat ->
  finishes (parseArithmeticExpression_loop k n left) p (fun _ p' => onward p p').
Proof.
  induction n as [|n IH]; intros left p Hwf Hn Hk; [lia|].
  cbn [parseArithmeticExpression_loop]. fin.
Qed.

#[local] Hint Resolve parseArithmeticExpression_loop_finishes : total.

Lemma parseArithmeticExpression_finishes k p :
  well_formed p -> (pending p < k)%nat ->
  finishes (parseArithmeticExpression k) p (fun _ p' => onward p p').
Proof. intros Hwf Hk. unfold parseArithmeticExpression. fin. Qed.

#[local] Hint Resolve parseArithmeticExpression_finishes : total.

Lemma parseExpression_finishes k p :
  well_formed p -> (pending p < k)%nat ->
  finishes (parseExpression k) p (fun _ p' => onward p p').
Proof. apply parseArithmeticExpression_finishes. Qed.

#[local] Hint Resolve parseExpression_finishes : total.

Lemma parseComparison_finishes k p :
  well_formed p -> (pending p < k)%nat ->
  finishes (parseComparison k) p (fun _ p' => onward p p').
Proof. intros Hwf Hk. unfold parseComparison. fin. Qed.

#[local] Hint Resolve parseComparison_finishes : total.

Lemma parseLogicalNot_finishes k : forall p,
  well_formed p -> (pending p < k)%nat ->
  finishes (parseLogicalNot (S k)) p (fun _ p' => onward p p').
Proof.
  induction k as [|k IH]; intros p Hwf Hk; [lia|].
  change (parseLogicalNot (S (S k)))
    with (isNot ← curTokenIs NOT;
          if isNot then
            nextToken ;;
            right ← parseLogicalNot (S k);
            ret (LogicalExpression ENil "not" right)
          else parseComparison (S k)).
  fin.
Qed.

#[local] Hint Resolve parseLogicalNot_finishes : total.

Lemma parseLogicalAnd_loop_finishes k n : forall left p,
  well_formed p -> (pending p < n)%nat -> (pending p < k)%nat ->
  finishes (parseLogicalAnd_loop (S k) n left) p (fun _ p' => onward p p').
Proof.
  induction n as [|n IH]; intros left p Hwf Hn Hk; [lia|].
  cbn [parseLogicalAnd_loop]. fin.
Qed.

#[local] Hint Resolve parseLogicalAnd_loop_finishes : total.

Lemma parseLogicalAnd_finishes k p :
  well_formed p -> (pending p < k)%nat ->
  finishes (parseLogicalAnd (S k)) p (fun _ p' => onward p p').
Proof. intros Hwf Hk. unfold parseLogicalAnd. fin. Qed.

#[local] Hint Resolve parseLogicalAnd_finishes : total.

Lemma parseLogicalOr_loop_finishes k n : forall left p,
  well_formed p -> (pending p < n)%nat -> (pending p < k)%nat ->
  finishes (parseLogicalOr_loop (S k) n left) p (fun _ p' => onward p p').
Proof.
  induction n as [|n IH]; intros left p Hwf Hn Hk; [lia|].
  cbn [parseLogicalOr_loop]. fin.
Qed.

#[local] Hint Resolve parseLogicalOr_loop_finishes : total.

Lemma parseCondition_finishes k p :
  well_formed p -> (pending p < k)%nat ->
  finishes (parseCondition (S k)) p (fun _ p' => onward p p').
Proof. intros Hwf Hk. unfold parseCondition, parseLogicalOr. fin. Qed.

#[local] Hint Resolve parseCondition_finishes : total.

Section StatementsTotal.

Variable k : nat.
Variable rec : P (option Statement).
Hypothesis rec_total : total k rec.

Lemma rec_parseStatement_finishes p :
  well_formed p -> (pending p < k)%nat ->
  finishes rec p (fun _ p' => onward p p').
Proof. apply rec_total. Qed.

#[local] Hint Resolve rec_parseStatement_finishes : total.

Lemma parseBlockStatement_loop_finishes n : forall acc p,
  well_formed p -> (pending p < n)%nat -> (pending p < k)%nat ->
  finishes (parseBlockStatement_loop rec n acc) p (fun _ p' => onward p p').
Proof.
  induction n as [|n IH]; intros acc p Hwf Hn Hk; [lia|].
  cbn [parseBlockStatement_loop]. fin.
Qed.

#[local] Hint Resolve parseBlockStatement_loop_finishes : total.

Lemma parseBlockStatement_finishes p :
  well_formed p -> (pending p < k)%nat ->
  finishes (parseBlockStatement (S (S k)) rec) p (fun _ p' => onward p p').
Proof. intros Hwf Hk. unfold parseBlockStatement. fin. Qed.

#[local] Hint Resolve parseBlockStatement_finishes : total.

Lemma parseParameters_loop_finishes n : forall acc p,
  well_formed p -> (pending p < n)%nat ->
  finishes (parseParameters_loop n acc) p (fun _ p' => onward p p').
Proof.
  induction n as [|n IH]; intros acc p Hwf Hn; [lia|].
  cbn [parseParameters_loop]. fin.
Qed.

#[local] Hint Resolve parseParameters_loop_finishes : total.

Lemma parseReplyModifiers_finishes n : forall status headers p,
  well_formed p -> (pending p < n)%nat -> (pending p < S (S k))%nat ->
  finishes (parseReplyModifiers (S (S k)) n status headers) p
    (fun _ p' => onward p p').
Proof.
  induction n as [|n IH]; intros status headers p Hwf Hn Hk; [lia|].
  cbn [parseReplyModifiers]. fin.
Qed.

#[local] Hint Resolve parseReplyModifiers_finishes : total.

Lemma parseStatement_body_finishes p :
  well_formed p -> (pending p < S k)%nat ->
  finishes (parseStatement_body (S (S k)) rec) p (fun _ p' => onward p p').
Proof.
  intros Hwf Hk. unfold parseStatement_body. apply finishes_bind, finishes_get.
  cbv beta.
  destruct (Typ (curToken p)) eqn:Ecur; try (apply finishes_ret; split; [assumption|lia]);
    learn; unfold some_statement.
  all: unfold parseSetStatement, parseIncreaseStatement, parseDecreaseStatement,
    parseIfStatement, parseWhileStatement, parseForStatement,
    parseFunctionDefinition, parseReturnStatement, parseSayStatement,
    parseAskStatement, parseAppendStatement, parseFetchStatement,
    parseSendStatement, parsePutStatement, parseDeleteStatement,
    parseParseJsonStatement, parseEncodeJsonStatement, parseServeStatement,
    parseWhenRouteStatement, parseRouteToStatement, parseReplyStatement,
    parseStopServerStatement, parseAsJsonInto, parseOptionalHeaders, parseIntoTarget.
  all: fin.
Qed.

End StatementsTotal.

Lemma parseStatement_finishes k : total k (parseStatement (S (S k))).
Proof.
  induction k as [|k IH]; intros p Hwf Hk; [lia|].
  change (parseStatement (S (S (S k))))
    with (parseStatement_body (S (S k)) (parseStatement (S (S k)))).
  apply parseStatement_body_finishes; assumption.
Qed.

Lemma ParseProgram_loop_finishes k n : forall acc p,
  well_formed p -> (pending p < n)%nat -> (pending p < k)%nat ->
  finishes (ParseProgram_loop (S (S k)) n acc) p
    (fun _ p' => Typ (curToken p') = EOF).
Proof.
  induction n as [|n IH]; intros acc p Hwf Hn Hk; [lia|].
  cbn [ParseProgram_loop]. fin_step. fin_step. fin_step.
  - fin_step. assumption.
  - fin_step.
    eapply finishes_use; [apply (parseStatement_finishes k); assumption|].
    intros stmt q [Hq Hle]. cbv beta zeta. fin_step. fin_step.
    apply IH; [assumption | measure | measure].
Qed.

Lemma well_formed_New tokens :
  Forall (fun t => Typ t <> EOF) tokens -> well_formed (New tokens).
Proof.
  intros Hall. destruct tokens as [|t1 [|t2 rest]].
  - repeat split; auto.
  - repeat split; auto.
  - apply Forall_cons in Hall as [H1 Hall]. apply Forall_cons in Hall as [H2 Hall].
    split; [exact Hall|]. split; simpl; intros Hc; contradiction.
Qed.

Lemma pending_New tokens :
  Forall (fun t => Typ t <> EOF) tokens -> pending (New tokens) = length tokens.
Proof.
  intros Hall. destruct tokens as [|t1 [|t2 rest]]; [reflexivity| |].
  - apply Forall_cons in Hall as [H1 _]. unfold pending, at_end. simpl.
    destruct (eqb (Typ t1) EOF) eqn:E; [apply eqb_eq in E; contradiction|reflexivity].
  - apply Forall_cons in Hall as [H1 Hall]. apply Forall_cons in Hall as [H2 Hall].
    unfold pending, at_end. simpl.
    destruct (eqb (Typ t1) EOF) eqn:E1; [apply eqb_eq in E1; contradiction|].
    destruct (eqb (Typ t2) EOF) eqn:E2; [apply eqb_eq in E2; contradiction|].
    lia.
Qed.

(** X22. [ParseProgram] returns on every input.  The lexer delivers the
    type [EOF] only once its input is exhausted; on such a stream of [n]
    tokens every budget from [n + 3] on is enough for [ParseProgram] to
    return a program, and it returns with the parser at [EOF]: every loop
    and every recursive call of the parser consumes a token before it
    repeats, also after a diagnostic. *)
Theorem ParseProgram_returns (tokens : list Token) (fuel : nat) :
  Forall (fun t => Typ t <> EOF) tokens ->
  (length tokens + 3 <= fuel)%nat ->
  exists program p',
    ParseProgram fuel (New tokens) = Some (program, p')
    /\ Typ (curToken p') = EOF.
Proof.
  intros Hall Hfuel.
  destruct fuel as [|[|k]]; [lia | lia |].
  pose proof (well_formed_New tokens Hall) as Hwf.
  pose proof (pending_New tokens Hall) as Hpe.
  assert (Hrun : finishes (ParseProgram (S (S k))) (New tokens)
                   (fun _ p' => Typ (curToken p') = EOF)).
  { unfold ParseProgram. apply finishes_bind.
    eapply finishes_use.
    - apply ParseProgram_loop_finishes; [assumption | lia | lia].
    - intros stmts q Hq. apply finishes_ret. exact Hq. }
  destruct Hrun as (program & p' & Hrun & Hend).
  exists program, p'. split; assumption.
Qed.

Lemma ParseProgram_returns_witness :
  exists program p',
    ParseProgram 5 (New set_one) = Some (program, p')
    /\ Typ (curToken p') = EOF.
Proof.
  apply (ParseProgram_returns set_one 5).
  - unfold set_one. repeat constructor; discriminate.
  - simpl. lia.
Defined.

(** *** Tokens at which no statement starts *)

Lemma parseStatement_none k p :
  starts_statement (Typ (curToken p)) = false ->
  parseStatement (S k) p = Some (None, p).
Proof.
  intros H. cbn [parseStatement]. unfold parseStatement_body, bind, get.
  destruct (Typ (curToken p)); try discriminate H; reflexivity.
Qed.

Lemma no_statement_ahead_advance p :
  no_statement_ahead p -> no_statement_ahead (advance p).
Proof.
  intros (Hcur & Hpeek & Hl). unfold no_statement_ahead, advance. simpl.
  split; [exact Hpeek|]. destruct (l p) as [|t rest]; simpl.
  - split; [reflexivity | constructor].
  - apply Forall_cons in Hl as [Ht Hrest]. split; assumption.
Qed.

Lemma ParseProgram_loop_skips k n : forall acc p,
  well_formed p -> no_statement_ahead p -> (pending p < n)%nat ->
  exists p', ParseProgram_loop (S k) n acc p = Some (acc, p')
             /\ errors p' = errors p.
Proof.
  induction n as [|n IH]; intros acc p Hwf Hno Hn; [lia|].
  cbn [ParseProgram_loop]. unfold bind at 1. unfold curTokenIs at 1.
  destruct (eqb (Typ (curToken p)) EOF) eqn:Eend.
  - exists p. split; reflexivity.
  - unfold bind at 1. rewrite parseStatement_none by apply Hno.
    unfold bind at 1. rewrite nextToken_advance.
    destruct (IH acc (advance p)) as (p' & Hrun & Herr).
    + apply well_formed_advance, Hwf.
    + apply no_statement_ahead_advance, Hno.
    + pose proof (pending_advance p Hwf) as Hpe.
      change (at_end p = false) in Eend. rewrite Eend in Hpe. lia.
    + exists p'. split; [exact Hrun | exact Herr].
Qed.

Lemma no_statement_ahead_New tokens :
  Forall (fun t => starts_statement (Typ t) = false) tokens ->
  no_statement_ahead (New tokens).
Proof.
  intros Hall. destruct tokens as [|t1 [|t2 rest]].
  - repeat split; constructor.
  - apply Forall_cons in Hall as [H1 _]. repeat split; [exact H1 | constructor].
  - apply Forall_cons in Hall as [H1 Hall]. apply Forall_cons in Hall as [H2 Hall].
    repeat split; assumption.
Qed.

(** X23. Tokens at which no statement starts are skipped in silence.
    [parseStatement] returns nil, without a diagnostic, at every token that
    is not one of the keywords of its [switch], and [ParseProgram] moves on
    by one token: an input none of whose tokens is such a keyword (a call
    written as a statement, [greet with 1], is one) parses to the empty
    program with no diagnostic at all. *)
Theorem statementless_input_is_skipped (tokens : list Token) (fuel : nat) :
  Forall (fun t => Typ t <> EOF) tokens ->
  Forall (fun t => starts_statement (Typ t) = false) tokens ->
  (length tokens + 1 <= fuel)%nat ->
  exists p',
    ParseProgram fuel (New tokens) = Some ({| Statements := [] |}, p')
    /\ errors p' = [].
Proof.
  intros Hall Hno Hfuel. destruct fuel as [|k]; [lia|].
  destruct (ParseProgram_loop_skips k (S k) [] (New tokens)) as (p' & Hrun & Herr).
  - apply well_formed_New, Hall.
  - apply no_statement_ahead_New, Hno.
  - rewrite (pending_New tokens Hall). lia.
  - exists p'. split.
    + unfold ParseProgram, bind. rewrite Hrun. reflexivity.
    + rewrite Herr. destruct tokens as [|t1 [|t2 rest]]; reflexivity.
Qed.

Lemma statementless_input_is_skipped_witness :
  exists p',
    ParseProgram 4 (New bare_call) = Some ({| Statements := [] |}, p')
    /\ errors p' = [].
Proof.
  apply (statementless_input_is_skipped bare_call 4).
  - unfold bare_call. repeat constructor; discriminate.
  - unfold bare_call. repeat constructor.
  - simpl. lia.
Defined.

End parser_facts.

(** * Properties of the evaluator *)

Module interpreter_facts.

Import ast object interpreter.
Local Open Scope eval_scope.

Lemma bind_Done {A B} (m : M A) (k : A -> M B) st b st' :
  bind m k st = Done b st' <->
  exists a st1, m st = Done a st1 /\ k a st1 = Done b st'.
Proof.
  unfold bind. split.
  - destruct (m st) as [a st1| |] eqn:E; try discriminate. eauto.
  - intros (a & st1 & -> & H). exact H.
Qed.

Lemma bind_Done_l {A B} (m : M A) (k : A -> M B) st a st1 :
  m st = Done a st1 -> bind m k st = k a st1.
Proof. unfold bind. intros ->. reflexivity. Qed.

(** ** Division *)

Lemma quo64_exact a b :
  in_int64 a -> in_int64 b -> b <> 0 -> ~ (a = MinInt64 /\ b = -1) ->
  quo64 a b = Z.quot a b.
Proof.
  unfold in_int64, MinInt64, MaxInt64. intros Ha Hb Hb0 Hov.
  apply wrap64_id. unfold in_int64, MinInt64, MaxInt64.
  assert (Habs : Z.abs (Z.quot a b) <= Z.abs a).
  { rewrite <- Z.quot_abs by assumption.
    apply Z.quot_le_upper_bound; [lia|].
    assert (1 <= Z.abs b) by lia. nia. }
  destruct (Z.eq_dec a (- 2 ^ 63)) as [Ea|Ea]; [|lia].
  assert (Hb1 : b <> -1) by (intros ->; apply Hov; split; [exact Ea | reflexivity]).
  destruct (Z.eq_dec b 1) as [->|Hb2]; [rewrite Z.quot_1_r; lia|].
  assert (Habs2 : 2 * Z.abs (Z.quot a b) <= Z.abs a).
  { rewrite <- Z.quot_abs by assumption.
    assert (2 <= Z.abs b) by lia.
    pose proof (Z.quot_pos (Z.abs a) (Z.abs b) ltac:(lia) ltac:(lia)).
    pose proof (Z.mul_quot_le (Z.abs a) (Z.abs b) ltac:(lia) ltac:(lia)).
    nia. }
  lia.
Qed.

Lemma quo64_overflow : quo64 MinInt64 (-1) = MinInt64.
Proof. reflexivity. Qed.

(** C8. For 64-bit integers [a] and [b], the operands of
    [l divided by r]: when [b] is not 0 the result is the quotient of [a] by
    [b] truncated toward zero, in 64-bit two's complement (the exact
    quotient [Z.quot a b], except for [MinInt64 / -1], whose quotient does
    not fit and wraps to [MinInt64]); when [b] is 0 the result is the runtime
    error [division by zero].  The store is the one left by the operands. *)
Theorem divided_by_truncates host fuel l r env st a st1 b st2 :
  in_int64 a -> in_int64 b ->
  Eval host fuel (NExpression l) env st = Done (Integer a) st1 ->
  Eval host fuel (NExpression r) env st1 = Done (Integer b) st2 ->
  (b <> 0 ->
     Eval host (S fuel) (NExpression (ArithmeticExpression l "divided" r)) env st
     = Done (Integer (quo64 a b)) st2
     /\ in_int64 (quo64 a b)
     /\ (~ (a = MinInt64 /\ b = -1) -> quo64 a b = Z.quot a b)
     /\ (a = MinInt64 /\ b = -1 -> quo64 a b = MinInt64))
  /\ (b = 0 ->
     Eval host (S fuel) (NExpression (ArithmeticExpression l "divided" r)) env st
     = Done (Error "division by zero") st2).
Proof.
  intros Ha Hb Hl Hr.
  assert (Hrun :
    Eval host (S fuel) (NExpression (ArithmeticExpression l "divided" r)) env st
    = Done (if b =? 0 then Error "division by zero" else Integer (quo64 a b)) st2).
  { cbn [Eval Eval_body]. unfold evalArithmeticExpression.
    rewrite (bind_Done_l _ _ _ _ _ Hl). cbn [isError].
    rewrite (bind_Done_l _ _ _ _ _ Hr). cbn [isError].
    simpl. destruct (b =? 0); reflexivity. }
  split.
  - intros Hb0. rewrite Hrun. destruct (Z.eqb_spec b 0) as [|_]; [contradiction|].
    split; [reflexivity|]. split; [apply wrap64_range|]. split.
    + intros Hov. apply quo64_exact; assumption.
    + intros [-> ->]. apply quo64_overflow.
  - intros ->. rewrite Hrun. reflexivity.
Qed.

Lemma divided_by_truncates_witness :
  Eval no_host 2
    (NExpression (ArithmeticExpression (IntegerLiteral (-7)) "divided" (IntegerLiteral 2)))
    0%nat (initial_state [])
  = Done (Integer (-3)) (initial_state [])
  /\ Eval no_host 2
    (NExpression (ArithmeticExpression (IntegerLiteral 10) "divided" (IntegerLiteral 0)))
    0%nat (initial_state [])
  = Done (Error "division by zero") (initial_state []).
Proof.
  assert (H7 : in_int64 (-7)) by (unfold in_int64, MinInt64, MaxInt64; lia).
  assert (H2 : in_int64 2) by (unfold in_int64, MinInt64, MaxInt64; lia).
  assert (H10 : in_int64 10) by (unfold in_int64, MinInt64, MaxInt64; lia).
  assert (H0 : in_int64 0) by (unfold in_int64, MinInt64, MaxInt64; lia).
  split.
  - exact (proj1 (proj1 (divided_by_truncates no_host 1 (IntegerLiteral (-7))
                           (IntegerLiteral 2) 0%nat (initial_state []) (-7)
                           (initial_state []) 2 (initial_state [])
                           H7 H2 eq_refl eq_refl)
                    ltac:(discriminate))).
  - exact (proj2 (divided_by_truncates no_host 1 (IntegerLiteral 10)
                    (IntegerLiteral 0) 0%nat (initial_state []) 10
                    (initial_state []) 0 (initial_state [])
                    H10 H0 eq_refl eq_refl)
             eq_refl).
Defined.

(** ** Indexing *)

(** C7. With [i] the integer the index evaluates to and [es] the elements
    of the list the operand evaluates to: [item i from L] is the [i]-th
    element (counting from 1) when [1 <= i <= length es], and an error value
    when [i < 1] or [i > length es]. *)
Theorem item_from_list host fuel idx lst env st i st1 a st2 es :
  Eval host fuel (NExpression idx) env st = Done (Integer i) st1 ->
  Eval host fuel (NExpression lst) env st1 = Done (List_ a) st2 ->
  lists st2 !! a = Some es ->
  (1 <= i <= Z.of_nat (length es) ->
     exists elem, es !! Z.to_nat (i - 1) = Some elem /\
       Eval host (S fuel) (NExpression (IndexExpression idx lst)) env st
       = Done elem st2)
  /\ (i < 1 \/ Z.of_nat (length es) < i ->
     exists message,
       Eval host (S fuel) (NExpression (IndexExpression idx lst)) env st
       = Done (Error message) st2).
Proof.
  intros Hi Hl Hes.
  assert (Hrun :
    Eval host (S fuel) (NExpression (IndexExpression idx lst)) env st
    = (if (i <? 1) || (Z.of_nat (length es) <? i)
       then ret (newError ("index out of bounds: " +:+ fmt_d i +:+ " (list has "
                           +:+ fmt_d (Z.of_nat (length es)) +:+ " elements)"))
       else match es !! Z.to_nat (i - 1) with
            | Some elem => ret elem
            | None => panic
            end) st2).
  { cbn [Eval Eval_body]. unfold evalIndexExpression.
    rewrite (bind_Done_l _ _ _ _ _ Hi). cbn [isError].
    rewrite (bind_Done_l _ _ _ _ _ Hl). cbn [isError].
    unfold bind at 1, list_elements. rewrite Hes. reflexivity. }
  split.
  - intros Hrange.
    destruct (es !! Z.to_nat (i - 1)) as [elem|] eqn:Eelem.
    + exists elem. split; [reflexivity|]. rewrite Hrun.
      destruct (Z.ltb_spec i 1); [lia|].
      destruct (Z.ltb_spec (Z.of_nat (length es)) i); [lia|].
      reflexivity.
    + apply lookup_ge_None in Eelem. lia.
  - intros Hout. eexists. rewrite Hrun.
    destruct (Z.ltb_spec i 1); [reflexivity|].
    destruct (Z.ltb_spec (Z.of_nat (length es)) i); [reflexivity|]. lia.
Qed.

(** [item 2 from a list of 5 and 6] is 6, and [item 1 from] an empty list
    is an error. *)
Lemma item_from_list_witness :
  (exists elem, [Integer 5; Integer 6] !! Z.to_nat (2 - 1) = Some elem /\
     Eval no_host 3
       (NExpression (IndexExpression (IntegerLiteral 2)
                       (ListLiteral [IntegerLiteral 5; IntegerLiteral 6])))
       0%nat (initial_state [])
     = Done elem (with_lists (initial_state []) [[Integer 5; Integer 6]]))
  /\ (exists message,
     Eval no_host 3
       (NExpression (IndexExpression (IntegerLiteral 1) (ListLiteral [])))
       0%nat (initial_state [])
     = Done (Error message) (with_lists (initial_state []) [[]])).
Proof.
  split.
  - refine (proj1 (item_from_list no_host 2 (IntegerLiteral 2)
                     (ListLiteral [IntegerLiteral 5; IntegerLiteral 6]) 0%nat
                     (initial_state []) 2 (initial_state []) 0%nat
                     (with_lists (initial_state []) [[Integer 5; Integer 6]])
                     [Integer 5; Integer 6] eq_refl eq_refl eq_refl) _).
    simpl. lia.
  - refine (proj2 (item_from_list no_host 2 (IntegerLiteral 1)
                     (ListLiteral []) 0%nat
                     (initial_state []) 1 (initial_state []) 0%nat
                     (with_lists (initial_state []) [[]])
                     [] eq_refl eq_refl eq_refl) _).
    right. simpl. lia.
Defined.

(** ** Request dispatch *)

Lemma matchRoute_spec route r :
  matchRoute route r = true <-> route_matches route r.
Proof.
  unfold matchRoute, route_matches.
  destruct (String.eqb_spec (Method route) "") as [E1|E1];
    destruct (String.eqb_spec (Method route) (ReqMethod r)) as [E2|E2];
    destruct (String.eqb_spec (Path route) (URLPath r)) as [E3|E3];
    simpl; intuition congruence.
Qed.

Lemma findRoute_first routes r :
  match findRoute routes r with
  | Some route =>
      exists pre post, routes = pre ++ route :: post
        /\ Forall (fun x => ~ route_matches x r) pre
        /\ route_matches route r
  | None => Forall (fun x => ~ route_matches x r) routes
  end.
Proof.
  induction routes as [|x routes IH]; simpl.
  - constructor.
  - destruct (matchRoute x r) eqn:E.
    + exists [], routes. repeat split; [constructor| |]; apply matchRoute_spec; exact E.
    + assert (Hx : ~ route_matches x r).
      { intros H. apply matchRoute_spec in H. congruence. }
      destruct (findRoute routes r) as [route|].
      * destruct IH as (pre & post & -> & Hpre & Hm).
        exists (x :: pre), post. repeat split; [constructor; assumption | | ];
          apply Hm.
      * constructor; assumption.
Qed.

Lemma handleIncomingRequest_unfold host fuel r port st :
  handleIncomingRequest host fuel r port st
  = match findRoute (default [] (routeRegistry st !! port)) r with
    | Some route =>
        bind (runHandler host fuel route (requestObject r))
          (writeResult host fuel) st
    | None => Done notFound st
    end.
Proof.
  unfold handleIncomingRequest, bind at 1, get.
  destruct (findRoute _ r); reflexivity.
Qed.

(** C6. For a request on a port with route table [routes]: either the
    table splits as [pre ++ route :: post] where no route of [pre] matches
    and [route] matches, and the request is answered by running the handler
    of [route] and writing its result; or no route of the table matches and
    the answer is status 404 with body [Not Found], the store unchanged. *)
Theorem dispatch_first_match host fuel r port st :
  let routes := default [] (routeRegistry st !! port) in
  (exists pre route post,
      routes = pre ++ route :: post
      /\ Forall (fun x => ~ route_matches x r) pre
      /\ route_matches route r
      /\ handleIncomingRequest host fuel r port st
         = bind (runHandler host fuel route (requestObject r))
             (writeResult host fuel) st)
  \/ (Forall (fun x => ~ route_matches x r) routes
      /\ handleIncomingRequest host fuel r port st
         = Done {| Status := 404; RespHeaders := ∅; RespBody := "Not Found" |} st).
Proof.
  intros routes. rewrite handleIncomingRequest_unfold. fold routes.
  pose proof (findRoute_first routes r) as H.
  destruct (findRoute routes r) as [route|].
  - left. destruct H as (pre & post & Hsplit & Hpre & Hm).
    exists pre, route, post. repeat split; try assumption; apply Hm.
  - right. split; [exact H | reflexivity].
Qed.

(** C3, as the dispatcher has it.  When the handler of the matched route
    ends with a [result] that is not a ReplyValue: with no value at all
    (the nil a handler with an empty body yields) the response is status 200
    with an empty body; with any value the response is status 200 with the
    textual form [Inspect] of the value as body, which for Null is the text
    [null]. *)
Theorem non_reply_result_written host fuel r port st route result st1 :
  findRoute (default [] (routeRegistry st !! port)) r = Some route ->
  runHandler host fuel route (requestObject r) st = Done result st1 ->
  (forall b s h, result <> ReplyValue b s h) ->
  (result = GoNil ->
     handleIncomingRequest host fuel r port st
     = Done {| Status := 200; RespHeaders := ∅; RespBody := "" |} st1)
  /\ (result <> GoNil -> forall text st2,
     Inspect host fuel result st1 = Done text st2 ->
     handleIncomingRequest host fuel r port st
     = Done {| Status := 200; RespHeaders := ∅; RespBody := text |} st2)
  /\ (result = Null ->
     handleIncomingRequest host fuel r port st
     = Done {| Status := 200; RespHeaders := ∅; RespBody := "null" |} st1).
Proof.
  intros Hfind Hrun Hnot.
  assert (Hfuel : fuel <> O).
  { intros ->. unfold runHandler in Hrun. simpl in Hrun.
    destruct (HandlerFn route) as [fn|].
    - apply bind_Done in Hrun as (e & s1 & _ & Hrun).
      apply bind_Done in Hrun as (u & s2 & _ & Hrun).
      apply bind_Done in Hrun as (x & s3 & Hrun & _). discriminate Hrun.
    - apply bind_Done in Hrun as (e & s1 & _ & Hrun).
      apply bind_Done in Hrun as (u & s2 & _ & Hrun).
      destruct (Body route); [|discriminate Hrun].
      apply bind_Done in Hrun as (x & s3 & Hrun & _). discriminate Hrun. }
  assert (Hdisp : handleIncomingRequest host fuel r port st
                  = writeResult host fuel result st1).
  { rewrite handleIncomingRequest_unfold, Hfind.
    apply bind_Done_l. exact Hrun. }
  rewrite Hdisp. repeat split.
  - intros ->. reflexivity.
  - intros Hnil text st2 Htext.
    destruct result; try congruence;
      try (unfold writeResult; rewrite (bind_Done_l _ _ _ _ _ Htext); reflexivity);
      exfalso; eapply Hnot; reflexivity.
  - intros ->. destruct fuel; [congruence|]. reflexivity.
Qed.

Lemma non_reply_result_written_witness :
  handleIncomingRequest no_host 4 get_root 8080 hello_served
  = Done {| Status := 200; RespHeaders := ∅; RespBody := "null" |} hello_handled.
Proof.
  refine (proj2 (proj2 (non_reply_result_written no_host 4 get_root 8080
                          hello_served hello_route Null hello_handled _ _ _))
            eq_refl).
  - vm_compute. reflexivity.
  - vm_compute. reflexivity.
  - intros b s h. discriminate.
Defined.

(** C3, as stated, fails: the handler [say "hi"] ends with Null, and the
    response carries the four characters [null], not an empty body. *)
Lemma null_result_body_is_null :
  match handleIncomingRequest no_host 4 get_root 8080 hello_served with
  | Done resp _ => Some (Status resp, RespBody resp)
  | _ => None
  end = Some (200, "null"%string).
Proof. vm_compute. reflexivity. Qed.

(** An empty handler body is the case with an empty response body. *)
Example empty_handler_body_is_empty :
  match runHandler no_host 4
          {| Method := ""; Path := "/"; Body := Some (Block []); RequestVar := "";
             HandlerEnv := 0%nat; HandlerFn := None |}
          (requestObject get_root) (initial_state []) with
  | Done result st =>
      match writeResult no_host 4 result st with
      | Done resp _ => Some (result, Status resp, RespBody resp)
      | _ => None
      end
  | _ => None
  end = Some (GoNil, 200, ""%string).
Proof. vm_compute. reflexivity. Qed.

(** ** JSON encoding *)

(** C2, at the value Null itself: [encode null as json into s] ends with a
    runtime error, whatever the codec of the host does; nothing is handed
    to the codec and [s] is not bound. *)
Theorem encode_null_is_refused host fuel target env st :
  Eval host (S (S fuel)) (NStatement (EncodeJsonStatement (Identifier "null") target))
    env st
  = Done (Error "cannot encode NULL as json") st.
Proof. reflexivity. Qed.

(** Inside a list the same Null is encoded: [objectToInterface], which
    converts the elements, has the case the statement itself lacks. *)
Lemma objectToInterface_Null fuel st :
  objectToInterface (S fuel) Null st = Done INil st.
Proof. reflexivity. Qed.

Lemma encode_list_of_null_reaches_codec host fuel target env st :
  Eval host (S (S (S fuel)))
    (NStatement (EncodeJsonStatement (ListLiteral [Identifier "null"]) target)) env st
  = let st' := with_lists st (lists st ++ [[Null]]) in
    match json_Marshal host (IArray [INil]) with
    | inl bytes =>
        bind (env_Set env target (String_ bytes))
          (fun _ => ret (String_ bytes)) st'
    | inr err => Done (Error ("json encoding failed: " +:+ err)) st'
    end.
Proof.
  cbn [Eval Eval_body]. unfold evalEncodeJsonStatement.
  unfold bind at 1. cbn [Eval Eval_body evalListLiteral evalArguments].
  unfold bind at 2. cbn [Eval Eval_body evalIdentifier]. simpl.
  unfold bind, list_elements, with_lists, ret. simpl.
  rewrite lookup_app_r by lia. rewrite Nat.sub_diag. simpl.
  destruct (json_Marshal host (IArray [INil])); reflexivity.
Qed.

(** ** Frames: what an evaluation leaves alone *)

Lemma upd_refl e W st : upd e W st st.
Proof. intros a fr H. exists fr. auto. Qed.

Lemma upd_trans e W st1 st2 st3 :
  upd e W st1 st2 -> upd e W st2 st3 -> upd e W st1 st3.
Proof.
  intros H12 H23 a fr H.
  destruct (H12 a fr H) as (fr2 & H2 & Ho2 & Hs2).
  destruct (H23 a fr2 H2) as (fr3 & H3 & Ho3 & Hs3).
  exists fr3. repeat split; [assumption | congruence |].
  intros x Hx. rewrite Hs3, Hs2 by assumption. reflexivity.
Qed.

Lemma upd_mono e (W W' : string -> Prop) st st' :
  (forall x, W x -> W' x) -> upd e W st st' -> upd e W' st st'.
Proof.
  intros HW H a fr Ha. destruct (H a fr Ha) as (fr' & H1 & H2 & H3).
  exists fr'. repeat split; try assumption.
  intros x Hx. apply H3. intros E Wx. exact (Hx E (HW x Wx)).
Qed.

Lemma frame_eq (fr fr' : Environment) :
  outer fr' = outer fr -> (forall x, store fr' !! x = store fr !! x) -> fr' = fr.
Proof.
  destruct fr as [s o], fr' as [s' o']. simpl. intros -> H.
  f_equal. apply map_eq. exact H.
Qed.

Lemma upd_kept e st st' : upd e (fun _ => False) st st' <-> kept st st'.
Proof.
  split.
  - intros H a fr Ha. destruct (H a fr Ha) as (fr' & H1 & H2 & H3).
    rewrite H1. f_equal. apply frame_eq; [assumption|].
    intros x. apply H3. intros _ F. exact F.
  - intros H a fr Ha. exists fr. rewrite (H a fr Ha). auto.
Qed.

Lemma kept_upd e W st st' : kept st st' -> upd e W st st'.
Proof.
  intros H. apply (upd_mono e (fun _ => False)); [intros x []|].
  apply upd_kept. exact H.
Qed.

Lemma same_upd e W st st' : same st st' -> upd e W st st'.
Proof.
  unfold same. intros H. apply kept_upd. intros a fr Ha. rewrite H. exact Ha.
Qed.

(** Whatever happens in an environment that did not exist in [st] leaves
    the environments of [st] as they were. *)
Lemma upd_fresh e' W' st st1 st' :
  envs st !! e' = None -> kept st st1 -> upd e' W' st1 st' -> kept st st'.
Proof.
  intros Hfresh H1 H2 a fr Ha.
  destruct (H2 a fr (H1 a fr Ha)) as (fr' & Hl & Ho & Hs).
  rewrite Hl. f_equal. apply frame_eq; [assumption|].
  intros x. apply Hs. intros ->. congruence.
Qed.

#[local] Instance same_refl : Reflexive same.
Proof. intros st. reflexivity. Qed.
#[local] Instance same_trans : Transitive same.
Proof. unfold same. intros a b c H1 H2. congruence. Qed.
#[local] Instance kept_refl : Reflexive kept.
Proof. intros st a fr H. exact H. Qed.
#[local] Instance kept_trans : Transitive kept.
Proof. intros a b c H1 H2 x fr H. apply H2, H1, H. Qed.
#[local] Instance upd_reflexive e W : Reflexive (upd e W).
Proof. intros st. apply upd_refl. Qed.
#[local] Instance upd_transitive e W : Transitive (upd e W).
Proof. intros a b c. apply upd_trans. Qed.

Lemma keeps_ret {A} R `{!Reflexive R} (a : A) : keeps R (ret a).
Proof. intros st b st' E. unfold ret in E. injection E as _ <-. reflexivity. Qed.

Lemma keeps_bind {A B} R `{!Transitive R} (m : M A) (k : A -> M B) :
  keeps R m -> (forall a, keeps R (k a)) -> keeps R (bind m k).
Proof.
  intros Hm Hk st b st' E. apply bind_Done in E as (a & st1 & E1 & E2).
  transitivity st1; [exact (Hm _ _ _ E1) | exact (Hk a _ _ _ E2)].
Qed.

Lemma keeps_panic {A} R : keeps R (@panic A).
Proof. intros st a st' E. discriminate E. Qed.

Lemma keeps_out_of_fuel {A} R : keeps R (@out_of_fuel A).
Proof. intros st a st' E. discriminate E. Qed.

Lemma keeps_impl {A} (R R' : State -> State -> Prop) (m : M A) :
  (forall st st', R st st' -> R' st st') -> keeps R m -> keeps R' m.
Proof. intros HR H st a st' E. apply HR. exact (H _ _ _ E). Qed.

Lemma keeps_same_upd {A} e W (m : M A) : keeps same m -> keeps (upd e W) m.
Proof. apply keeps_impl. apply same_upd. Qed.

Lemma keeps_kept_upd {A} e W (m : M A) : keeps kept m -> keeps (upd e W) m.
Proof. apply keeps_impl. apply kept_upd. Qed.

(** The primitives that leave every environment alone. *)

Lemma same_get : keeps same get.
Proof. intros st a st' E. injection E as _ <-. reflexivity. Qed.

Lemma same_env_Get e x : keeps same (env_Get e x).
Proof.
  intros st a st' E. unfold env_Get in E.
  destruct (Get (envs st) e x); [injection E as _ <-; reflexivity | discriminate].
Qed.

Lemma same_new_list elems : keeps same (new_list elems).
Proof. intros st a st' E. injection E as _ <-. reflexivity. Qed.

Lemma same_list_elements a : keeps same (list_elements a).
Proof.
  intros st x st' E. unfold list_elements in E.
  destruct (lists st !! a); [injection E as _ <-; reflexivity | discriminate].
Qed.

Lemma same_list_append a v : keeps same (list_append a v).
Proof.
  intros st x st' E. unfold list_append in E.
  destruct (lists st !! a); [injection E as _ <-; reflexivity | discriminate].
Qed.

Lemma same_print s : keeps same (print s).
Proof. intros st a st' E. injection E as _ <-. reflexivity. Qed.

Lemma same_read_line : keeps same read_line.
Proof.
  intros st a st' E. unfold read_line in E.
  destruct (stdin st); injection E as _ <-; reflexivity.
Qed.

Lemma same_next_exchange : keeps same next_exchange.
Proof. intros st a st' E. injection E as _ <-. reflexivity. Qed.

Lemma same_type_of o : keeps same (type_of o).
Proof.
  unfold type_of. destruct (TypeOf o); [apply keeps_ret; apply _ | apply keeps_panic].
Qed.

Lemma same_modify f : (forall st, envs (f st) = envs st) -> keeps same (modify f).
Proof. intros H st a st' E. injection E as _ <-. apply H. Qed.

Lemma same_register_server port : keeps same (modify (register_server port)).
Proof. apply same_modify. reflexivity. Qed.

Lemma same_unregister_server port : keeps same (modify (unregister_server port)).
Proof. apply same_modify. reflexivity. Qed.

Lemma same_register_route h : keeps same (register_route h).
Proof. apply same_modify. reflexivity. Qed.

Create HintDb keeps discriminated.

#[local] Hint Resolve same_get same_env_Get same_new_list same_list_elements
  same_list_append same_print same_read_line same_next_exchange same_type_of
  same_register_server same_unregister_server same_register_route : keeps.

(** One syntax-directed step through a computation. *)
Ltac keeps_first :=
  first [ solve [eauto 3 with keeps]
        | apply keeps_same_upd; solve [eauto 3 with keeps] ].

Ltac keeps_step :=
  lazymatch goal with
  | |- keeps _ (bind _ _) =>
      eapply keeps_bind;
      [ try apply _
      | first [ keeps_first | solve [repeat keeps_step] ]
      | intros ? ]
  | |- keeps _ (ret _) => apply keeps_ret; try apply _
  | |- keeps _ panic => apply keeps_panic
  | |- keeps _ out_of_fuel => apply keeps_out_of_fuel
  | |- keeps _ (if ?b then _ else _) => destruct b
  | |- keeps _ (match ?x with _ => _ end) => destruct x
  | |- keeps _ (let _ := _ in _) => cbv zeta
  | |- keeps _ _ => keeps_first
  end.

Ltac keeps_auto := repeat keeps_step.

Section HelperFrames.

Variable host : Host.

Lemma same_Inspect fuel : forall o, keeps same (Inspect host fuel o).
Proof.
  induction fuel as [|fuel IH]; intros o; simpl.
  - apply keeps_out_of_fuel.
  - destruct o; try (keeps_auto; fail); try apply IH.
    eapply keeps_bind; [apply _ | apply same_list_elements | intros elems].
    eapply keeps_bind; [apply _ | | intros; apply keeps_ret; apply _].
    induction elems as [|e rest IHl]; [apply keeps_ret; apply _|].
    eapply keeps_bind; [apply _ | apply IH | intros x].
    eapply keeps_bind; [apply _ | apply IHl | intros xs].
    apply keeps_ret; apply _.
Qed.

Lemma same_objectToInterface fuel : forall o, keeps same (objectToInterface fuel o).
Proof.
  induction fuel as [|fuel IH]; intros o; simpl.
  - apply keeps_out_of_fuel.
  - destruct o; try (keeps_auto; fail).
    eapply keeps_bind; [apply _ | apply same_list_elements | intros elems].
    eapply keeps_bind; [apply _ | | intros; apply keeps_ret; apply _].
    induction elems as [|e rest IHl]; [apply keeps_ret; apply _|].
    eapply keeps_bind; [apply _ | apply IH | intros x].
    eapply keeps_bind; [apply _ | apply IHl | intros xs].
    apply keeps_ret; apply _.
Qed.

Lemma same_interfaceToObject : forall v, keeps same (interfaceToObject v).
Proof.
  fix IH 1. intros v. destruct v; simpl; try (apply keeps_ret; apply _).
  eapply keeps_bind; [apply _ | | intros os].
  - revert elems. fix IHl 1. intros [|e rest].
    + apply keeps_ret; apply _.
    + eapply keeps_bind; [apply _ | apply IH | intros x].
      eapply keeps_bind; [apply _ | apply IHl | intros xs].
      apply keeps_ret; apply _.
  - keeps_auto.
Qed.

Lemma same_getJsonField v path : keeps same (getJsonField v path).
Proof.
  unfold getJsonField. destruct (getJsonField_walk _ _).
  - apply same_interfaceToObject.
  - apply keeps_ret; apply _.
Qed.

Lemma same_executeRequest method url body hs :
  keeps same (executeRequest host method url body hs).
Proof. unfold executeRequest. keeps_auto. Qed.

Lemma same_elementsToInterface fuel elems :
  keeps same (elementsToInterface fuel elems).
Proof.
  induction elems as [|e rest IH]; simpl; [apply keeps_ret; apply _|].
  eapply keeps_bind; [apply _ | apply same_objectToInterface | intros x].
  eapply keeps_bind; [apply _ | apply IH | intros xs].
  apply keeps_ret; apply _.
Qed.

Lemma same_stopAll ports : keeps same (stopAll host ports).
Proof.
  induction ports as [|p rest IH]; simpl; [apply keeps_ret; apply _|].
  keeps_auto; try apply IH.
Qed.

End HelperFrames.

Lemma keeps_env_Set e (W : string -> Prop) x v :
  W x -> keeps (upd e W) (env_Set e x v).
Proof.
  intros HW st u st' E. unfold env_Set, Set_ in E.
  destruct (envs st !! e) as [fr|] eqn:Efr; [|discriminate].
  injection E as _ <-. unfold upd. simpl.
  intros a fr0 Ha. destruct (decide (a = e)) as [->|Hne].
  - rewrite Efr in Ha. injection Ha as <-.
    eexists. split; [apply list_lookup_insert_eq; eapply lookup_lt_Some; eassumption|].
    simpl. split; [reflexivity|].
    intros y Hy. apply lookup_insert_ne. intros ->. exact (Hy eq_refl HW).
  - exists fr0. split; [rewrite list_lookup_insert_ne by congruence; exact Ha|].
    auto.
Qed.

Lemma keeps_new_env {A} o (k : nat -> M A) :
  (forall e', keeps (upd e' (fun _ => True)) (k e')) ->
  keeps kept (bind (new_env o) k).
Proof.
  intros Hk st a st' E. unfold bind, new_env in E. simpl in E.
  eapply upd_fresh; [| |exact (Hk _ _ _ _ E)].
  - apply lookup_ge_None. lia.
  - intros b fr Hb. simpl. apply lookup_app_l_Some. exact Hb.
Qed.

Ltac mem_solve :=
  try (intros ? ?);
  match goal with
  | HW : forall x, x ∈ _ -> ?W x |- ?W _ => apply HW
  end;
  repeat match goal with
         | b : BlockStatement |- _ => destruct b
         | o : option BlockStatement |- _ => destruct o
         end;
  simpl in *; rewrite ?elem_of_app, ?elem_of_cons; auto.

Section CaseFrames.

Variable host : Host.
Variable fuel : nat.
Variable Eval : Node -> nat -> M Object.

Hypothesis IH : forall node env (W : string -> Prop),
  (forall x, x ∈ mods node -> W x) -> keeps (upd env W) (Eval node env).

Lemma IHe (x : Expression) env e W : keeps (upd e W) (Eval (NExpression x) env).
Proof.
  apply keeps_kept_upd.
  apply (keeps_impl (upd env (fun _ => False))); [intros st st'; apply upd_kept|].
  apply IH. simpl. intros y Hy. inversion Hy.
Qed.

Lemma IHtop node e' : keeps (upd e' (fun _ => True)) (Eval node e').
Proof. apply IH. intros; exact I. Qed.

#[local] Hint Resolve IHe IHtop : keeps.
#[local] Hint Extern 2 (keeps (upd ?e _) (Eval (NBlock _) ?e)) =>
  (apply IH; mem_solve) : keeps.
#[local] Hint Extern 2 (keeps (upd ?e _) (Eval (NStatement _) ?e)) =>
  (apply IH; mem_solve) : keeps.
#[local] Hint Extern 2 (keeps (upd ?e _) (env_Set ?e _ _)) =>
  (apply keeps_env_Set; first [exact I | mem_solve]) : keeps.
#[local] Hint Resolve same_Inspect same_objectToInterface same_interfaceToObject
  same_getJsonField same_executeRequest same_elementsToInterface same_stopAll
  : keeps.

Lemma evalArguments_kept args env e W : forall acc,
  keeps (upd e W) (evalArguments Eval args env acc).
Proof.
  induction args as [|arg rest IHa]; intros acc; simpl; keeps_auto; try apply IHa.
Qed.

Lemma bindParameters_fresh params : forall args e',
  keeps (upd e' (fun _ => True)) (bindParameters params args e').
Proof.
  induction params as [|p ps IHp]; intros [|a args] e'; simpl; keeps_auto;
  try apply IHp.
Qed.

#[local] Hint Resolve evalArguments_kept bindParameters_fresh : keeps.

Lemma evalCallExpression_kept f args env e W :
  keeps (upd e W) (evalCallExpression Eval f args env).
Proof.
  unfold evalCallExpression.
  keeps_step. keeps_step; [|keeps_auto].
  keeps_step; try (keeps_auto; fail).
  keeps_step. keeps_step; [|keeps_auto].
  apply keeps_kept_upd, keeps_new_env. intros e'. keeps_auto.
Qed.

Lemma evalHeaders_kept hs env e W : keeps (upd e W) (evalHeaders Eval hs env).
Proof. unfold evalHeaders. keeps_auto. Qed.

Lemma evalReplyHeaders_kept pairs env e W : forall headers,
  keeps (upd e W) (evalReplyHeaders Eval pairs env headers).
Proof.
  induction pairs as [|[n v] rest IHp]; intros headers; simpl; keeps_auto;
    try apply IHp.
Qed.

#[local] Hint Resolve evalCallExpression_kept evalHeaders_kept
  evalReplyHeaders_kept : keeps.

(** Expressions leave every environment as it was. *)
Lemma expression_cases_kept (x : Expression) env e W :
  keeps (upd e W) (Eval_body host fuel Eval (NExpression x) env).
Proof.
  destruct x; cbn [Eval_body];
    try (unfold evalIdentifier, evalNegativeExpression, evalListLiteral,
           evalComparisonExpression, evalEquals, evalGreater, evalLess,
           evalLogicalExpression, evalArithmeticExpression,
           evalLengthExpression, evalIndexExpression, evalBodyOfExpression,
           evalStatusOfExpression, evalHeaderFromExpression,
           evalFieldFromExpression, evalMethodOfExpression,
           evalPathOfExpression, evalQueryFromExpression;
         keeps_auto; fail).
Qed.

Lemma evalStatements_block_upd stmts env (W : string -> Prop) : forall result,
  (forall x, x ∈ flat_map assigned stmts -> W x) ->
  keeps (upd env W) (evalStatements_block Eval stmts env result).
Proof.
  induction stmts as [|s rest IHs]; intros result HW; simpl.
  - keeps_auto.
  - assert (Hrest : forall x, x ∈ flat_map assigned rest -> W x).
    { intros x Hx. apply HW. simpl. apply elem_of_app. right. exact Hx. }
    assert (Hs : forall x, x ∈ assigned s -> W x).
    { intros x Hx. apply HW. simpl. apply elem_of_app. left. exact Hx. }
    eapply keeps_bind; [apply _ | apply IH; exact Hs | intros r].
    destruct r; try (apply keeps_ret; apply _); apply IHs; exact Hrest.
Qed.

Lemma evalStatements_program_upd stmts env (W : string -> Prop) : forall result,
  (forall x, x ∈ flat_map assigned stmts -> W x) ->
  keeps (upd env W) (evalStatements_program Eval stmts env result).
Proof.
  induction stmts as [|s rest IHs]; intros result HW; simpl.
  - keeps_auto.
  - assert (Hrest : forall x, x ∈ flat_map assigned rest -> W x).
    { intros x Hx. apply HW. simpl. apply elem_of_app. right. exact Hx. }
    assert (Hs : forall x, x ∈ assigned s -> W x).
    { intros x Hx. apply HW. simpl. apply elem_of_app. left. exact Hx. }
    eapply keeps_bind; [apply _ | apply IH; exact Hs | intros r].
    destruct r; try (apply keeps_ret; apply _); apply IHs; exact Hrest.
Qed.

Lemma evalWhileStatement_loop_upd n c b env (W : string -> Prop) : forall result,
  (forall x, x ∈ mods (NBlock b) -> W x) ->
  keeps (upd env W) (evalWhileStatement_loop Eval n c b env result).
Proof.
  induction n as [|n IHn]; intros result HW; simpl.
  - apply keeps_out_of_fuel.
  - keeps_step. keeps_step; [keeps_auto|]. keeps_step; [keeps_auto|].
    eapply keeps_bind; [apply _ | apply IH; exact HW | intros r].
    destruct r; try (apply keeps_ret; apply _); apply IHn; exact HW.
Qed.

Lemma evalForStatement_loop_upd elements v b env (W : string -> Prop) :
  forall result,
  W v -> (forall x, x ∈ mods (NBlock b) -> W x) ->
  keeps (upd env W) (evalForStatement_loop Eval elements v b env result).
Proof.
  induction elements as [|el rest IHl]; intros result Hv HW; simpl.
  - keeps_auto.
  - eapply keeps_bind; [apply _ | apply keeps_env_Set; exact Hv | intros _].
    eapply keeps_bind; [apply _ | apply IH; exact HW | intros r].
    destruct r; try (apply keeps_ret; apply _); apply IHl; assumption.
Qed.

Lemma statement_cases_upd (s : Statement) env (W : string -> Prop) :
  (forall x, x ∈ assigned s -> W x) ->
  keeps (upd env W) (Eval_body host fuel Eval (NStatement s) env).
Proof.
  intros HW. destruct s; cbn [Eval_body];
    try (unfold evalSetStatement, evalIncreaseStatement, evalDecreaseStatement,
           evalIfStatement, evalFunctionDefinition, evalReturnStatement,
           evalSayStatement, evalAskStatement, evalAppendStatement,
           evalFetchStatement, evalSendStatement, evalPutStatement,
           evalBodyRequest, evalDeleteStatement, evalParseJsonStatement,
           evalEncodeJsonStatement, evalServeStatement, evalWhenRouteStatement,
           evalRouteToStatement, evalReplyStatement, evalStopServerStatement;
         keeps_auto; fail).
  - unfold evalWhileStatement. apply evalWhileStatement_loop_upd. mem_solve.
  - unfold evalForStatement. keeps_step. keeps_step; [keeps_auto|].
    keeps_step; try (keeps_auto; fail).
    keeps_step. apply evalForStatement_loop_upd; mem_solve.
Qed.

Lemma node_cases_upd node env (W : string -> Prop) :
  (forall x, x ∈ mods node -> W x) ->
  keeps (upd env W) (Eval_body host fuel Eval node env).
Proof.
  intros HW. destruct node as [p|b|s|x].
  - apply evalStatements_program_upd. exact HW.
  - apply evalStatements_block_upd. exact HW.
  - apply statement_cases_upd. exact HW.
  - apply expression_cases_kept.
Qed.

End CaseFrames.

(** An evaluation in the environment [env] leaves every environment that
    exists as it is, except that it may bind in [env] itself the names the
    node assigns. *)
Lemma Eval_upd host fuel : forall node env (W : string -> Prop),
  (forall x, x ∈ mods node -> W x) ->
  keeps (upd env W) (Eval host fuel node env).
Proof.
  induction fuel as [|fuel IH]; intros node env W HW; simpl.
  - apply keeps_out_of_fuel.
  - apply node_cases_upd; assumption.
Qed.

Lemma Eval_expression_kept host fuel (x : Expression) env :
  keeps kept (Eval host fuel (NExpression x) env).
Proof.
  apply (keeps_impl (upd env (fun _ => False))); [intros st st'; apply upd_kept|].
  apply Eval_upd. simpl. intros y Hy. inversion Hy.
Qed.

(** ** The [set] statement *)

Lemma env_Set_Done e x v st u st' :
  env_Set e x v st = Done u st' ->
  exists fr, envs st !! e = Some fr /\
    st' = with_envs st (<[e := {| store := <[x := v]> (store fr);
                                  outer := outer fr |}]> (envs st)).
Proof.
  unfold env_Set, Set_. destruct (envs st !! e) as [fr|]; [|discriminate].
  intros E. injection E as _ <-. eauto.
Qed.

(** C9. A [set] statement whose right-hand side evaluates to [val].  The
    evaluation of the right-hand side leaves every environment that existed
    before as it was.  If [val] is an error, the statement ends with that
    error in the store the right-hand side left, so that no binding of any
    environment is created or modified.  Otherwise the statement ends with
    [val]; the innermost environment [env] is as it was except that the
    target name is bound to [val], and every other environment that existed
    before is as it was. *)
Theorem set_statement_is_atomic host fuel name value env st val st1 :
  Eval host fuel (NExpression value) env st = Done val st1 ->
  kept st st1
  /\ (isError val = true ->
       Eval host (S fuel) (NStatement (SetStatement name value)) env st = Done val st1)
  /\ (isError val = false -> forall fr, envs st !! env = Some fr ->
       exists st',
         Eval host (S fuel) (NStatement (SetStatement name value)) env st = Done val st'
         /\ envs st' !! env
            = Some {| store := <[name := val]> (store fr); outer := outer fr |}
         /\ (forall a fr0, a <> env -> envs st !! a = Some fr0 ->
               envs st' !! a = Some fr0)).
Proof.
  intros Hval.
  pose proof (Eval_expression_kept host fuel value env _ _ _ Hval) as Hkept.
  split; [exact Hkept|]. split.
  - intros Herr. cbn [Eval Eval_body]. unfold evalSetStatement.
    rewrite (bind_Done_l _ _ _ _ _ Hval). rewrite Herr. reflexivity.
  - intros Herr fr Hfr. pose proof (Hkept _ _ Hfr) as Hfr1.
    eexists. split; [|split].
    + cbn [Eval Eval_body]. unfold evalSetStatement.
      rewrite (bind_Done_l _ _ _ _ _ Hval). rewrite Herr.
      unfold bind, env_Set, Set_. rewrite Hfr1. reflexivity.
    + simpl. apply list_lookup_insert_eq. eapply lookup_lt_Some. exact Hfr1.
    + intros a fr0 Hne Hfr0. simpl. rewrite list_lookup_insert_ne by congruence.
      apply Hkept. exact Hfr0.
Qed.

Lemma set_statement_is_atomic_witness :
  Eval no_host 2 (NStatement (SetStatement "x" (Identifier "y"))) 0%nat (initial_state [])
  = Done (Error "undefined variable: y") (initial_state [])
  /\ exists st',
       Eval no_host 2 (NStatement (SetStatement "x" (IntegerLiteral 5))) 0%nat
         (initial_state [])
       = Done (Integer 5) st'
       /\ envs st' !! 0%nat = Some {| store := <["x" := Integer 5]> ∅; outer := None |}.
Proof.
  split.
  - apply (set_statement_is_atomic no_host 1 "x" (Identifier "y") 0%nat
             (initial_state []) (Error "undefined variable: y") (initial_state []));
      reflexivity.
  - destruct (proj2 (proj2 (set_statement_is_atomic no_host 1 "x" (IntegerLiteral 5)
                              0%nat (initial_state []) (Integer 5) (initial_state [])
                              eq_refl))
                eq_refl {| store := ∅; outer := None |} eq_refl)
      as (st' & Hrun & Hfr & _).
    exists st'. split; [exact Hrun | exact Hfr].
Defined.

(** ** The [for each] loop *)

Lemma for_loop_last (E : Node -> nat -> M Object) v body env last :
  forall es result st r st',
  evalForStatement_loop E (es ++ [last]) v body env result st = Done r st' ->
  completes_normally r = true ->
  exists s2 s3, env_Set env v last s2 = Done tt s3
                /\ E (NBlock body) env s3 = Done r st'.
Proof.
  induction es as [|e es IHes]; intros result st r st' H Hnormal; simpl in H.
  - apply bind_Done in H as ([] & s3 & Hset & H).
    apply bind_Done in H as (r0 & s4 & Hbody & H).
    exists st, s3. split; [exact Hset|].
    destruct r0; injection H as <- <-; try exact Hbody; discriminate Hnormal.
  - apply bind_Done in H as ([] & s3 & Hset & H).
    apply bind_Done in H as (r0 & s4 & Hbody & H).
    destruct r0; try (eapply IHes; eassumption);
      injection H as <- <-; discriminate Hnormal.
Qed.

(** C10, as the loop has it.  A [for each] loop over a non-empty list
    that completes normally (its result is neither a pending [return] nor
    an error) and whose body does not itself assign the loop variable:
    afterwards the variable is bound, in the very environment [env] the loop
    ran in, to the last element of the list, whatever [env] bound it to
    before; every other environment that existed before is as it was. *)
Theorem for_each_binds_in_place host fuel v iterable body env st a st0 es last r st' :
  Eval host fuel (NExpression iterable) env st = Done (List_ a) st0 ->
  lists st0 !! a = Some (es ++ [last]) ->
  Eval host (S fuel) (NStatement (ForStatement v iterable body)) env st = Done r st' ->
  completes_normally r = true ->
  v ∉ mods (NBlock body) ->
  (exists fr', envs st' !! env = Some fr' /\ store fr' !! v = Some last)
  /\ (forall b fr, b <> env -> envs st !! b = Some fr -> envs st' !! b = Some fr).
Proof.
  intros Hit Hes Hrun Hnormal Hv. split.
  - cbn [Eval Eval_body] in Hrun. unfold evalForStatement in Hrun.
    rewrite (bind_Done_l _ _ _ _ _ Hit) in Hrun. cbn [isError] in Hrun.
    unfold bind at 1, list_elements in Hrun. rewrite Hes in Hrun.
    apply for_loop_last in Hrun as (s2 & s3 & Hset & Hbody); [|exact Hnormal].
    apply env_Set_Done in Hset as (fr2 & Hfr2 & ->).
    pose proof (Eval_upd host fuel (NBlock body) env
                  (fun x => x ∈ mods (NBlock body)) (fun x H => H) _ _ _ Hbody)
      as Hupd.
    destruct (Hupd env {| store := <[v := last]> (store fr2); outer := outer fr2 |})
      as (fr' & Hfr' & _ & Hstore).
    { simpl. apply list_lookup_insert_eq. eapply lookup_lt_Some. eassumption. }
    exists fr'. split; [exact Hfr'|].
    rewrite Hstore by (intros _; exact Hv). simpl. apply lookup_insert_eq.
  - intros b fr Hb Hfr.
    pose proof (Eval_upd host (S fuel) (NStatement (ForStatement v iterable body))
                  env (fun _ => True) (fun _ _ => I) _ _ _ Hrun) as Hupd.
    destruct (Hupd b fr Hfr) as (fr' & Hfr' & Hout & Hstore).
    rewrite Hfr'. f_equal. apply frame_eq; [exact Hout|].
    intros x. apply Hstore. intros ->. contradiction.
Qed.

Lemma for_each_binds_in_place_witness :
  exists fr',
    envs (state_after (Eval no_host 4 (NStatement loop_saying) 0%nat loop_ready))
      !! 0%nat = Some fr'
    /\ store fr' !! "v" = Some (Integer 2).
Proof.
  refine (proj1 (for_each_binds_in_place no_host 3 "v" (Identifier "xs")
                   (Block [SayStatement (Identifier "v")]) 0%nat loop_ready 0%nat
                   loop_ready [Integer 1] (Integer 2)
                   (value_after (Eval no_host 4 (NStatement loop_saying) 0%nat loop_ready))
                   (state_after (Eval no_host 4 (NStatement loop_saying) 0%nat loop_ready))
                   _ _ _ _ _)).
  - vm_compute. reflexivity.
  - vm_compute. reflexivity.
  - vm_compute. reflexivity.
  - vm_compute. reflexivity.
  - simpl. apply not_elem_of_nil.
Defined.

(** C10, as stated, fails: the body [set v to 0] rebinds the loop variable
    in the environment of the loop, so that after a normal completion over
    the list [1, 2] the variable is bound to 0, not to the last element. *)
Lemma loop_body_rebinds_variable :
  match Eval no_host 4 (NStatement loop_rebinding) 0%nat loop_ready with
  | Done r st =>
      Some (completes_normally r,
            match envs st !! 0%nat with
            | Some fr => store fr !! "v"
            | None => None
            end,
            lists st !! 0%nat)
  | _ => None
  end = Some (true, Some (Integer 0), Some [Integer 1; Integer 2]).
Proof. vm_compute. reflexivity. Qed.

(** ** Calls *)

Lemma Get_walk_enough h x : forall n e,
  (e <= n)%nat -> Get_walk n h e x = Get_walk e h e x.
Proof.
  induction n as [n IHn] using lt_wf_ind. intros e Hle.
  destruct n as [|n'], e as [|e']; try reflexivity; try lia.
  simpl. destruct (h !! S e') as [fr|]; [|reflexivity].
  destruct (store fr !! x); [reflexivity|].
  destruct (outer fr) as [o|]; [|reflexivity].
  destruct (Nat.ltb_spec o (S e')); [|reflexivity].
  rewrite (IHn n') by lia. rewrite (IHn e') by lia. reflexivity.
Qed.

Lemma Get_walk_app h k x : forall n e,
  (e < length h)%nat -> Get_walk n (h ++ k) e x = Get_walk n h e x.
Proof.
  induction n as [|n IHn]; intros e He; simpl;
    rewrite (lookup_app_l h k e He);
    destruct (h !! e) as [fr|]; try reflexivity;
    destruct (store fr !! x); try reflexivity;
    destruct (outer fr) as [o|]; try reflexivity.
  destruct (Nat.ltb_spec o e); [|reflexivity]. apply IHn. lia.
Qed.

Lemma Get_app h k e x :
  (e < length h)%nat -> Get (h ++ k) e x = Get h e x.
Proof. intros He. apply Get_walk_app. exact He. Qed.

(** A name that the frame at [e'] does not bind is looked up in the
    environment the frame encloses. *)
Lemma Get_outer h e' fr o x :
  h !! e' = Some fr -> store fr !! x = None -> outer fr = Some o ->
  (o < e')%nat -> Get h e' x = Get h o x.
Proof.
  intros Hfr Hx Ho Hlt. unfold Get. destruct e' as [|n]; [lia|].
  simpl. rewrite Hfr, Hx, Ho.
  destruct (Nat.ltb_spec o (S n)); [|lia].
  apply Get_walk_enough. lia.
Qed.

Lemma bound_store_unbound params : forall args acc x,
  x ∉ take (length args) params -> bound_store params args acc !! x = acc !! x.
Proof.
  induction params as [|p ps IHp]; intros [|a args] acc x Hx; simpl; try reflexivity.
  simpl in Hx. apply not_elem_of_cons in Hx as [Hne Hx].
  rewrite IHp by exact Hx. apply lookup_insert_ne. congruence.
Qed.

Lemma bound_store_positional params : forall args acc i p v,
  NoDup params -> params !! i = Some p -> args !! i = Some v ->
  bound_store params args acc !! p = Some v.
Proof.
  induction params as [|q ps IHp]; intros [|a args] acc i p v Hnd Hp Hv;
    try (destruct i; discriminate).
  apply NoDup_cons in Hnd as [Hq Hnd]. destruct i as [|i]; simpl in *.
  - injection Hp as ->. injection Hv as ->.
    rewrite bound_store_unbound.
    + apply lookup_insert_eq.
    + intros Hin. apply Hq. eapply subseteq_take. exact Hin.
  - eapply IHp; eassumption.
Qed.

Lemma with_envs_id st : with_envs st (envs st) = st.
Proof. destruct st. reflexivity. Qed.

Lemma bindParameters_Done params : forall args e' st fr,
  envs st !! e' = Some fr ->
  bindParameters params args e' st
  = Done tt (with_envs st (<[e' := {| store := bound_store params args (store fr);
                                      outer := outer fr |}]> (envs st))).
Proof.
  assert (Hid : forall e' st fr, envs st !! e' = Some fr ->
            @ret unit tt st
            = Done tt (with_envs st (<[e' := {| store := store fr;
                                                outer := outer fr |}]> (envs st)))).
  { intros e' st fr Hfr. unfold ret. f_equal.
    replace {| store := store fr; outer := outer fr |} with fr by (destruct fr; reflexivity).
    rewrite list_insert_id by exact Hfr. symmetry. apply with_envs_id. }
  induction params as [|p ps IHp]; intros [|a args] e' st fr Hfr; simpl;
    try (apply Hid; exact Hfr).
  unfold bind, env_Set, Set_. rewrite Hfr.
  erewrite IHp.
  2:{ simpl. apply list_lookup_insert_eq. eapply lookup_lt_Some. exact Hfr. }
  simpl. rewrite list_insert_insert_eq. reflexivity.
Qed.

(** C4, as the evaluator has it.  A call of [f], bound to a function with
    parameters [params], body [body] and captured environment [fenv], whose
    arguments evaluate to [vals]: the body runs in a fresh environment [e']
    that encloses [fenv] and binds the parameters to the arguments in order
    (arguments beyond the parameters bind nothing); the result of the call
    is the result of the body, a ReturnValue unwrapped to its payload.  A
    parameter with no argument is not bound in the fresh environment; a
    reference to it is looked up in the captured environment, and is the
    runtime error [undefined variable] exactly when no environment along
    that chain binds the name. *)
Theorem call_binds_positionally host fuel f args env st params body fenv vals st1 :
  Get (envs st) env f = Some (Some (Function params body fenv)) ->
  evalArguments (Eval host fuel) args env [] st = Done (inl vals) st1 ->
  let e' := length (envs st1) in
  let frame := {| store := bound_store params vals ∅; outer := Some fenv |} in
  let st2 := with_envs st1 (envs st1 ++ [frame]) in
  Eval host (S fuel) (NExpression (CallExpression f args)) env st
  = bind (Eval host fuel (NBlock body) e')
      (fun result => ret (unwrapReturnValue result)) st2
  /\ envs st1 !! e' = None
  /\ envs st2 !! e' = Some frame
  /\ (NoDup params -> forall i p v,
        params !! i = Some p -> vals !! i = Some v -> store frame !! p = Some v)
  /\ (forall x, x ∉ take (length vals) params ->
        store frame !! x = None
        /\ ((fenv < e')%nat ->
            Get (envs st2) e' x = Get (envs st1) fenv x
            /\ (x <> "null" -> x <> "true" -> x <> "false" -> forall n,
                Eval host (S n) (NExpression (Identifier x)) e' st2
                = match Get (envs st1) fenv x with
                  | Some (Some v) => Done v st2
                  | Some None => Done (Error ("undefined variable: " +:+ x)) st2
                  | None => Panicked
                  end))).
Proof.
  intros HGet Hargs e' frame st2.
  assert (Hframe : envs st2 !! e' = Some frame).
  { unfold st2, e'. simpl. rewrite lookup_app_r by lia.
    rewrite Nat.sub_diag. reflexivity. }
  split; [|split; [|split; [|split]]].
  - cbn [Eval Eval_body]. unfold evalCallExpression.
    unfold bind at 1, env_Get. rewrite HGet.
    rewrite (bind_Done_l _ _ _ _ _ Hargs).
    unfold bind at 1, new_env, NewEnclosedEnvironment.
    unfold bind at 1.
    erewrite bindParameters_Done.
    2:{ simpl. rewrite lookup_app_r by lia. rewrite Nat.sub_diag. reflexivity. }
    simpl. fold e'.
    replace (<[e' := {| store := bound_store params vals ∅; outer := Some fenv |}]>
               (envs st1 ++ [{| store := ∅; outer := Some fenv |}]))
      with (envs st1 ++ [frame]); [reflexivity|].
    unfold e'. rewrite insert_app_r_alt by lia. rewrite Nat.sub_diag. reflexivity.
  - apply lookup_ge_None. unfold e'. lia.
  - exact Hframe.
  - intros Hnd i p v Hp Hv. simpl. eapply bound_store_positional; eassumption.
  - intros x Hx.
    assert (Hnone : store frame !! x = None).
    { simpl. rewrite bound_store_unbound by exact Hx. apply lookup_empty. }
    split; [exact Hnone|]. intros Hlt.
    assert (HG : Get (envs st2) e' x = Get (envs st1) fenv x).
    { rewrite (Get_outer _ _ _ _ _ Hframe Hnone eq_refl Hlt).
      unfold st2. simpl. apply Get_app. exact Hlt. }
    split; [exact HG|]. intros H1 H2 H3 n.
    cbn [Eval Eval_body]. unfold evalIdentifier.
    destruct (String.eqb_spec x "null"); [contradiction|].
    destruct (String.eqb_spec x "true"); [contradiction|].
    destruct (String.eqb_spec x "false"); [contradiction|].
    unfold bind, env_Get. rewrite HG.
    destruct (Get (envs st1) fenv x) as [[v|]|]; reflexivity.
Qed.

Lemma call_binds_positionally_witness :
  Eval no_host 1 (NExpression (Identifier "b")) 1%nat shadow_entered
  = Done (Integer 7) shadow_entered.
Proof.
  assert (H1 : Get (envs shadow_ready) 0%nat "f"
               = Some (Some (Function ["a"; "b"] shadow_body 0%nat)))
    by (vm_compute; reflexivity).
  assert (H2 : evalArguments (Eval no_host 2) [IntegerLiteral 1] 0%nat [] shadow_ready
               = Done (inl [Integer 1]) shadow_ready)
    by (vm_compute; reflexivity).
  pose proof (call_binds_positionally no_host 2 "f" [IntegerLiteral 1] 0%nat
                shadow_ready ["a"; "b"] shadow_body 0%nat [Integer 1] shadow_ready
                H1 H2) as H.
  cbv zeta in H. destruct H as (_ & _ & _ & _ & H).
  assert (Hb : "b" ∉ take (length [Integer 1]) ["a"; "b"]).
  { simpl. intros Hin. apply list_elem_of_singleton in Hin. discriminate Hin. }
  destruct (H "b" Hb) as (_ & H').
  assert (Hlt : (0 < length (envs shadow_ready))%nat) by (vm_compute; lia).
  destruct (H' Hlt) as (_ & H'').
  exact (H'' ltac:(discriminate) ltac:(discriminate) ltac:(discriminate) 0%nat).
Defined.

(** C4, as stated, fails: [f] has the parameters [a] and [b] and is called
    with one argument; the reference to [b] in its body finds the [b] of the
    enclosing environment, and the call returns 7 instead of an error. *)
Lemma missing_argument_resolves_outward :
  match Eval no_host 5 (NExpression shadow_call) 0%nat shadow_ready with
  | Done r _ => Some r
  | _ => None
  end = Some (Integer 7).
Proof. vm_compute. reflexivity. Qed.

#[local] Hint Resolve same_Inspect same_objectToInterface same_interfaceToObject
  same_getJsonField same_executeRequest same_elementsToInterface same_stopAll
  : keeps.

(** ** Environments *)

Lemma Get_walk_Set_other h e x v h' y :
  Set_ h e x v = Some h' -> y <> x ->
  forall n a, Get_walk n h' a y = Get_walk n h a y.
Proof.
  unfold Set_. destruct (h !! e) as [fr|] eqn:Hfr; [|discriminate].
  intros [= <-] Hne. induction n as [|n IHn]; intros a; simpl.
  - destruct (decide (a = e)) as [->|Ha].
    + rewrite list_lookup_insert_eq by (eapply lookup_lt_Some; eassumption).
      rewrite Hfr. simpl. rewrite lookup_insert_ne by congruence. reflexivity.
    + rewrite list_lookup_insert_ne by congruence. reflexivity.
  - destruct (decide (a = e)) as [->|Ha].
    + rewrite list_lookup_insert_eq by (eapply lookup_lt_Some; eassumption).
      rewrite Hfr. simpl. rewrite lookup_insert_ne by congruence.
      destruct (store fr !! y); [reflexivity|].
      destruct (outer fr) as [o|]; [|reflexivity].
      destruct (o <? e)%nat; [apply IHn | reflexivity].
    + rewrite list_lookup_insert_ne by congruence.
      destruct (h !! a) as [fr'|]; [|reflexivity].
      destruct (store fr' !! y); [reflexivity|].
      destruct (outer fr') as [o|]; [|reflexivity].
      destruct (o <? a)%nat; [apply IHn | reflexivity].
Qed.

Lemma Get_walk_Set_older h e x v h' y :
  Set_ h e x v = Some h' ->
  forall n a, (a < e)%nat -> Get_walk n h' a y = Get_walk n h a y.
Proof.
  unfold Set_. destruct (h !! e) as [fr|] eqn:Hfr; [|discriminate].
  intros [= <-]. induction n as [|n IHn]; intros a Ha; simpl;
    rewrite list_lookup_insert_ne by lia;
    destruct (h !! a) as [fr'|]; try reflexivity;
    destruct (store fr' !! y); try reflexivity;
    destruct (outer fr') as [o|]; try reflexivity.
  destruct (Nat.ltb_spec o a); [apply IHn; lia | reflexivity].
Qed.

(** X1. [Set] then [Get]: after [e.Set(x, v)], the environment [e]
    resolves [x] to [v]; every other name resolves, from every environment,
    as it did before. *)
Theorem Set_then_Get h e x v h' :
  Set_ h e x v = Some h' ->
  Get h' e x = Some (Some v)
  /\ forall a y, y <> x -> Get h' a y = Get h a y.
Proof.
  intros HSet. split.
  - revert HSet. unfold Set_, Get.
    destruct (h !! e) as [fr|] eqn:Hfr; [|discriminate]. intros [= <-].
    destruct e; simpl;
      rewrite list_lookup_insert_eq by (eapply lookup_lt_Some; eassumption);
      simpl; rewrite lookup_insert_eq; reflexivity.
  - intros a y Hne. apply (Get_walk_Set_other _ _ _ _ _ _ HSet Hne).
Qed.

Lemma Set_then_Get_witness :
  Get [{| store := <["x" := Integer 1]> ∅; outer := None |}] 0%nat "x"
  = Some (Some (Integer 1)).
Proof.
  exact (proj1 (Set_then_Get [{| store := ∅; outer := None |}] 0%nat "x" (Integer 1)
                  _ eq_refl)).
Defined.

(** X2. A [Set] on an environment is invisible from every environment
    allocated before it: what an older environment resolves a name to --
    the name that was set included -- is what it resolved it to before. *)
Theorem Set_invisible_from_older h e x v h' a y :
  Set_ h e x v = Some h' -> (a < e)%nat ->
  Get h' a y = Get h a y.
Proof.
  intros HSet Ha. apply (Get_walk_Set_older _ _ _ _ _ _ HSet). exact Ha.
Qed.

Lemma Set_invisible_from_older_witness :
  Get [{| store := <["x" := Integer 1]> ∅; outer := None |};
       {| store := <["x" := Integer 2]> ∅; outer := Some 0%nat |}] 0%nat "x"
  = Some (Some (Integer 1)).
Proof.
  exact (Set_invisible_from_older
           [{| store := <["x" := Integer 1]> ∅; outer := None |};
            {| store := ∅; outer := Some 0%nat |}]
           1%nat "x" (Integer 2) _ 0%nat "x" eq_refl ltac:(lia)).
Defined.

(** X3. A fresh environment that encloses [o] resolves every name as [o]
    does, and allocating it changes nothing for the environments that
    exist. *)
Theorem NewEnclosedEnvironment_inherits h o :
  (o < length h)%nat ->
  let (a, h') := NewEnclosedEnvironment (Some o) h in
  h !! a = None
  /\ (forall x, Get h' a x = Get h o x)
  /\ (forall b x, (b < length h)%nat -> Get h' b x = Get h b x).
Proof.
  intros Ho. unfold NewEnclosedEnvironment. split; [|split].
  - apply lookup_ge_None. lia.
  - intros x.
    rewrite (Get_outer (h ++ [{| store := ∅; outer := Some o |}]) (length h)
               {| store := ∅; outer := Some o |} o x).
    + apply Get_app. exact Ho.
    + rewrite lookup_app_r by lia. rewrite Nat.sub_diag. reflexivity.
    + apply lookup_empty.
    + reflexivity.
    + exact Ho.
  - intros b x Hb. apply Get_app. exact Hb.
Qed.

Lemma NewEnclosedEnvironment_inherits_witness :
  Get [{| store := <["x" := Integer 1]> ∅; outer := None |};
       {| store := ∅; outer := Some 0%nat |}] 1%nat "x"
  = Some (Some (Integer 1)).
Proof.
  exact (proj1 (proj2 (NewEnclosedEnvironment_inherits
                         [{| store := <["x" := Integer 1]> ∅; outer := None |}]
                         0%nat ltac:(simpl; lia))) "x").
Defined.
(** ** What an evaluation writes *)

(** X4. An evaluation that ends leaves every environment that existed in
    place, enclosing the same environment, and changes no binding except,
    in the environment [env] it ran in, those of the names the node
    assigns ([mods]).  In particular an expression -- a call of a function
    included -- changes no binding of any environment that existed. *)
Theorem evaluation_writes_only_assigned host fuel node env st r st' :
  Eval host fuel node env st = Done r st' ->
  forall a fr, envs st !! a = Some fr ->
    exists fr', envs st' !! a = Some fr'
      /\ outer fr' = outer fr
      /\ forall x, (a = env -> x ∉ mods node) -> store fr' !! x = store fr !! x.
Proof.
  intros Hrun.
  exact (Eval_upd host fuel node env (fun x => x ∈ mods node) (fun x H => H)
           _ _ _ Hrun).
Qed.

Lemma evaluation_writes_only_assigned_witness :
  exists fr',
    envs (state_after (Eval no_host 4 (NStatement loop_saying) 0%nat loop_ready))
      !! 0%nat = Some fr'
    /\ outer fr' = None
    /\ store fr' !! "xs" = Some (List_ 0%nat).
Proof.
  assert (Hrun : Eval no_host 4 (NStatement loop_saying) 0%nat loop_ready
                 = Done (value_after (Eval no_host 4 (NStatement loop_saying) 0%nat
                                        loop_ready))
                     (state_after (Eval no_host 4 (NStatement loop_saying) 0%nat
                                     loop_ready)))
    by (vm_compute; reflexivity).
  assert (Hfr : envs loop_ready !! 0%nat
                = Some {| store := <["xs" := List_ 0%nat]> (<["v" := Integer 9]> ∅);
                          outer := None |})
    by (vm_compute; reflexivity).
  destruct (evaluation_writes_only_assigned no_host 4 (NStatement loop_saying) 0%nat
              loop_ready _ _ Hrun 0%nat _ Hfr)
    as (fr' & Hfr' & Hout & Hstore).
  exists fr'. split; [exact Hfr'|]. split; [exact Hout|].
  rewrite (Hstore "xs").
  - reflexivity.
  - intros _ Hin. apply list_elem_of_singleton in Hin. discriminate Hin.
Defined.

Lemma runHandler_kept host fuel route reqObj :
  keeps kept (runHandler host fuel route reqObj).
Proof.
  assert (HE : forall node e', keeps (upd e' (fun _ => True)) (Eval host fuel node e')).
  { intros node e'. apply Eval_upd. intros; exact I. }
  unfold runHandler. destruct (HandlerFn route) as [fn|].
  - apply keeps_new_env. intros e'.
    eapply keeps_bind; [apply _| |intros ?].
    + destruct (Parameters fn); [apply keeps_ret; apply _|].
      apply keeps_env_Set. exact I.
    + eapply keeps_bind; [apply _|apply HE|intros ?]. apply keeps_ret; apply _.
  - apply keeps_new_env. intros e'.
    eapply keeps_bind; [apply _| |intros ?].
    + destruct (String.eqb (RequestVar route) ""); [apply keeps_ret; apply _|].
      apply keeps_env_Set. exact I.
    + destruct (Body route); [|apply keeps_panic].
      eapply keeps_bind; [apply _|apply HE|intros ?]. apply keeps_ret; apply _.
Qed.

Lemma writeResult_same host fuel result : keeps same (writeResult host fuel result).
Proof. unfold writeResult. destruct result; keeps_auto. Qed.

(** X5. Serving a request changes no binding of any environment that
    existed: the handler runs in an environment of its own, and what it
    sets stays there. *)
Theorem request_leaves_environments host fuel r port st resp st' :
  handleIncomingRequest host fuel r port st = Done resp st' ->
  forall a fr, envs st !! a = Some fr -> envs st' !! a = Some fr.
Proof.
  rewrite handleIncomingRequest_unfold.
  destruct (findRoute _ r) as [route|].
  - intros H. apply bind_Done in H as (res & st1 & Hrun & Hw).
    intros a fr Ha.
    pose proof (runHandler_kept host fuel route _ _ _ _ Hrun a fr Ha) as H1.
    pose proof (writeResult_same host fuel res _ _ _ Hw) as H2.
    unfold same in H2. rewrite H2. exact H1.
  - intros [= _ <-] a fr Ha. exact Ha.
Qed.

Lemma request_leaves_environments_witness :
  envs (state_after (handleIncomingRequest no_host 4 get_root 8080 hello_served))
    !! 0%nat
  = Some {| store := ∅; outer := None |}.
Proof.
  refine (request_leaves_environments no_host 4 get_root 8080 hello_served
            {| Status := 200; RespHeaders := ∅; RespBody := "null" |}
            (state_after (handleIncomingRequest no_host 4 get_root 8080 hello_served))
            _ 0%nat _ _).
  - vm_compute. reflexivity.
  - vm_compute. reflexivity.
Defined.

(** ** Invariants of the store

    A relation between the store before and the store after that is
    reflexive and transitive and that every primitive write respects is
    respected by every evaluation. *)

Section Respects.

Variable R : State -> State -> Prop.
Context `{!Reflexive R, !Transitive R}.

Hypothesis R_env_Set : forall e x v, keeps R (env_Set e x v).
Hypothesis R_new_env : forall o, keeps R (new_env o).
Hypothesis R_new_list : forall elems, keeps R (new_list elems).
Hypothesis R_list_append : forall a v, keeps R (list_append a v).
Hypothesis R_print : forall s, keeps R (print s).
Hypothesis R_read_line : keeps R read_line.
Hypothesis R_next_exchange : keeps R next_exchange.
Hypothesis R_register_server : forall port, keeps R (modify (register_server port)).
Hypothesis R_unregister_server : forall port, keeps R (modify (unregister_server port)).
Hypothesis R_register_route : forall h, keeps R (register_route h).

Lemma respects_get : keeps R get.
Proof. intros st a st' E. injection E as _ <-. reflexivity. Qed.

Lemma respects_env_Get e x : keeps R (env_Get e x).
Proof.
  intros st a st' E. unfold env_Get in E.
  destruct (Get (envs st) e x); [injection E as _ <-; reflexivity | discriminate].
Qed.

Lemma respects_list_elements a : keeps R (list_elements a).
Proof.
  intros st x st' E. unfold list_elements in E.
  destruct (lists st !! a); [injection E as _ <-; reflexivity | discriminate].
Qed.

Lemma respects_type_of o : keeps R (type_of o).
Proof.
  unfold type_of. destruct (TypeOf o); [apply keeps_ret; apply _ | apply keeps_panic].
Qed.

#[local] Hint Resolve R_env_Set R_new_env R_new_list R_list_append R_print
  R_read_line R_next_exchange R_register_server R_unregister_server
  R_register_route respects_get respects_env_Get respects_list_elements
  respects_type_of : keeps.

Section RespectsHelpers.

Variable host : Host.

Lemma respects_Inspect fuel : forall o, keeps R (Inspect host fuel o).
Proof.
  induction fuel as [|fuel IH]; intros o; simpl.
  - apply keeps_out_of_fuel.
  - destruct o; try (keeps_auto; fail); try apply IH.
    eapply keeps_bind; [apply _ | apply respects_list_elements | intros elems].
    eapply keeps_bind; [apply _ | | intros; apply keeps_ret; apply _].
    induction elems as [|e rest IHl]; [apply keeps_ret; apply _|].
    eapply keeps_bind; [apply _ | apply IH | intros x].
    eapply keeps_bind; [apply _ | apply IHl | intros xs].
    apply keeps_ret; apply _.
Qed.

Lemma respects_objectToInterface fuel : forall o, keeps R (objectToInterface fuel o).
Proof.
  induction fuel as [|fuel IH]; intros o; simpl.
  - apply keeps_out_of_fuel.
  - destruct o; try (keeps_auto; fail).
    eapply keeps_bind; [apply _ | apply respects_list_elements | intros elems].
    eapply keeps_bind; [apply _ | | intros; apply keeps_ret; apply _].
    induction elems as [|e rest IHl]; [apply keeps_ret; apply _|].
    eapply keeps_bind; [apply _ | apply IH | intros x].
    eapply keeps_bind; [apply _ | apply IHl | intros xs].
    apply keeps_ret; apply _.
Qed.

Lemma respects_interfaceToObject : forall v, keeps R (interfaceToObject v).
Proof.
  fix IH 1. intros v. destruct v; simpl; try (apply keeps_ret; apply _).
  eapply keeps_bind; [apply _ | | intros os].
  - revert elems. fix IHl 1. intros [|e rest].
    + apply keeps_ret; apply _.
    + eapply keeps_bind; [apply _ | apply IH | intros x].
      eapply keeps_bind; [apply _ | apply IHl | intros xs].
      apply keeps_ret; apply _.
  - keeps_auto.
Qed.

Lemma respects_getJsonField v path : keeps R (getJsonField v path).
Proof.
  unfold getJsonField. destruct (getJsonField_walk _ _).
  - apply respects_interfaceToObject.
  - apply keeps_ret; apply _.
Qed.

Lemma respects_executeRequest method url body hs :
  keeps R (executeRequest host method url body hs).
Proof. unfold executeRequest. keeps_auto. Qed.

Lemma respects_elementsToInterface fuel elems :
  keeps R (elementsToInterface fuel elems).
Proof.
  induction elems as [|e rest IH]; simpl; [apply keeps_ret; apply _|].
  eapply keeps_bind; [apply _ | apply respects_objectToInterface | intros x].
  eapply keeps_bind; [apply _ | apply IH | intros xs].
  apply keeps_ret; apply _.
Qed.

Lemma respects_stopAll ports : keeps R (stopAll host ports).
Proof.
  induction ports as [|p rest IH]; simpl; [apply keeps_ret; apply _|].
  keeps_auto; try apply IH.
Qed.

End RespectsHelpers.

#[local] Hint Resolve respects_Inspect respects_objectToInterface
  respects_interfaceToObject respects_getJsonField respects_executeRequest
  respects_elementsToInterface respects_stopAll : keeps.

Section RespectsCases.

Variable host : Host.
Variable fuel : nat.
Variable Eval : Node -> nat -> M Object.

Hypothesis IH : forall node env, keeps R (Eval node env).

#[local] Hint Resolve IH : keeps.

Lemma respects_evalArguments args env : forall acc,
  keeps R (evalArguments Eval args env acc).
Proof.
  induction args as [|arg rest IHa]; intros acc; simpl; keeps_auto; try apply IHa.
Qed.

Lemma respects_bindParameters params : forall args e',
  keeps R (bindParameters params args e').
Proof.
  induction params as [|p ps IHp]; intros [|a args] e'; simpl; keeps_auto;
  try apply IHp.
Qed.

Lemma respects_evalReplyHeaders pairs env : forall headers,
  keeps R (evalReplyHeaders Eval pairs env headers).
Proof.
  induction pairs as [|[n v] rest IHp]; intros headers; simpl; keeps_auto;
    try apply IHp.
Qed.

Lemma respects_evalStatements_block stmts env : forall result,
  keeps R (evalStatements_block Eval stmts env result).
Proof.
  induction stmts as [|s rest IHs]; intros result; simpl; keeps_auto;
    try apply IHs.
Qed.

Lemma respects_evalStatements_program stmts env : forall result,
  keeps R (evalStatements_program Eval stmts env result).
Proof.
  induction stmts as [|s rest IHs]; intros result; simpl; keeps_auto;
    try apply IHs.
Qed.

Lemma respects_evalWhileStatement_loop n c b env : forall result,
  keeps R (evalWhileStatement_loop Eval n c b env result).
Proof.
  induction n as [|n IHn]; intros result; simpl; keeps_auto; try apply IHn.
Qed.

Lemma respects_evalForStatement_loop elements v b env : forall result,
  keeps R (evalForStatement_loop Eval elements v b env result).
Proof.
  induction elements as [|el rest IHl]; intros result; simpl; keeps_auto;
    try apply IHl.
Qed.

#[local] Hint Resolve respects_evalArguments respects_bindParameters
  respects_evalReplyHeaders respects_evalStatements_block
  respects_evalStatements_program respects_evalWhileStatement_loop
  respects_evalForStatement_loop : keeps.

Lemma respects_evalHeaders hs env : keeps R (evalHeaders Eval hs env).
Proof. unfold evalHeaders. keeps_auto. Qed.

#[local] Hint Resolve respects_evalHeaders : keeps.

Lemma respects_cases node env : keeps R (Eval_body host fuel Eval node env).
Proof.
  destruct node as [p|b|s|x]; cbn [Eval_body].
  - apply respects_evalStatements_program.
  - apply respects_evalStatements_block.
  - destruct s;
      unfold evalSetStatement, evalIncreaseStatement, evalDecreaseStatement,
        evalIfStatement, evalWhileStatement, evalForStatement,
        evalFunctionDefinition, evalReturnStatement,
        evalSayStatement, evalAskStatement, evalAppendStatement,
        evalFetchStatement, evalSendStatement, evalPutStatement,
        evalBodyRequest, evalDeleteStatement, evalParseJsonStatement,
        evalEncodeJsonStatement, evalServeStatement, evalWhenRouteStatement,
        evalRouteToStatement, evalReplyStatement, evalStopServerStatement;
      keeps_auto.
  - destruct x;
      unfold evalIdentifier, evalNegativeExpression, evalListLiteral,
        evalComparisonExpression, evalEquals, evalGreater, evalLess,
        evalLogicalExpression, evalArithmeticExpression, evalCallExpression,
        evalLengthExpression, evalIndexExpression, evalBodyOfExpression,
        evalStatusOfExpression, evalHeaderFromExpression,
        evalFieldFromExpression, evalMethodOfExpression,
        evalPathOfExpression, evalQueryFromExpression;
      keeps_auto.
Qed.

End RespectsCases.

Lemma Eval_respects host fuel : forall node env, keeps R (Eval host fuel node env).
Proof.
  induction fuel as [|fuel IH]; intros node env; simpl.
  - apply keeps_out_of_fuel.
  - apply respects_cases. exact IH.
Qed.

Lemma handleIncomingRequest_respects host fuel r port :
  keeps R (handleIncomingRequest host fuel r port).
Proof.
  pose proof (Eval_respects host fuel) as HE.
  unfold handleIncomingRequest, runHandler, writeResult. keeps_auto.
Qed.

End Respects.

#[local] Instance grows_refl : Reflexive grows.
Proof. intros st a es H. exists []. rewrite app_nil_r. exact H. Qed.

#[local] Instance grows_trans : Transitive grows.
Proof.
  intros s1 s2 s3 H12 H23 a es H.
  destruct (H12 a es H) as (m1 & H1). destruct (H23 a _ H1) as (m2 & H2).
  exists (m1 ++ m2). rewrite app_assoc. exact H2.
Qed.

Lemma grows_same_lists {A} (m : M A) :
  (forall st a st', m st = Done a st' -> lists st' = lists st) -> keeps grows m.
Proof. intros H st a st' E b es Hb. exists []. rewrite app_nil_r, (H _ _ _ E). exact Hb. Qed.

Lemma grows_new_list elems : keeps grows (new_list elems).
Proof.
  intros st a st' E b es Hb. injection E as _ <-. simpl.
  exists []. rewrite app_nil_r. apply lookup_app_l_Some. exact Hb.
Qed.

Lemma grows_list_append a v : keeps grows (list_append a v).
Proof.
  intros st u st' E b es Hb. unfold list_append in E.
  destruct (lists st !! a) as [elems|] eqn:Ea; [|discriminate].
  injection E as _ <-. simpl. destruct (decide (b = a)) as [->|Hne].
  - exists [v]. rewrite Ea in Hb. injection Hb as <-.
    apply list_lookup_insert_eq. eapply lookup_lt_Some. exact Ea.
  - exists []. rewrite app_nil_r. rewrite list_lookup_insert_ne by congruence. exact Hb.
Qed.

(** X6. Lists only grow at the end.  Whatever is evaluated, a list that
    exists keeps the elements it has, in place and in order; all that can
    happen to it is that elements are appended.  No statement removes or
    replaces an element of a list. *)
Theorem lists_only_grow host fuel node env st r st' :
  Eval host fuel node env st = Done r st' ->
  forall a es, lists st !! a = Some es ->
    exists more, lists st' !! a = Some (es ++ more).
Proof.
  intros Hrun.
  refine (Eval_respects grows _ _ grows_new_list grows_list_append _ _ _ _ _ _
            host fuel node env _ _ _ Hrun).
  - intros e x v. apply grows_same_lists. intros st0 a st0' E.
    unfold env_Set in E. destruct (Set_ _ _ _ _); [injection E as _ <-|discriminate].
    reflexivity.
  - intros o. apply grows_same_lists. intros st0 a st0' E. injection E as _ <-. reflexivity.
  - intros s. apply grows_same_lists. intros st0 a st0' E. injection E as _ <-. reflexivity.
  - apply grows_same_lists. intros st0 a st0' E. unfold read_line in E.
    destruct (stdin st0); injection E as _ <-; reflexivity.
  - apply grows_same_lists. intros st0 a st0' E. injection E as _ <-. reflexivity.
  - intros port. apply grows_same_lists. intros st0 a st0' E. injection E as _ <-. reflexivity.
  - intros port. apply grows_same_lists. intros st0 a st0' E. injection E as _ <-. reflexivity.
  - intros h. apply grows_same_lists. intros st0 a st0' E. injection E as _ <-. reflexivity.
Qed.

Lemma lists_only_grow_witness :
  exists more, lists appended !! 0%nat = Some ([Integer 1; Integer 2] ++ more).
Proof.
  refine (lists_only_grow no_host 3 (NStatement append_three) 0%nat loop_ready
            Null appended _ 0%nat [Integer 1; Integer 2] _).
  - vm_compute. reflexivity.
  - vm_compute. reflexivity.
Defined.

Lemma evalIdentifier_Get name env st :
  reserved name = false ->
  evalIdentifier name env st
  = match Get (envs st) env name with
    | Some (Some v) => Done v st
    | Some None => Done (Error ("undefined variable: " +:+ name)) st
    | None => Panicked
    end.
Proof.
  unfold reserved, evalIdentifier. intros H.
  apply orb_false_elim in H as [H H3]. apply orb_false_elim in H as [H1 H2].
  rewrite H1, H2, H3. unfold bind, env_Get.
  destruct (Get (envs st) env name) as [[v|]|]; reflexivity.
Qed.

(** ** Lists *)

(** X7. An [append] that succeeds (its result is Null) has put the value
    of its operand at the end of the list the variable points to: afterwards
    [length of] the variable is one more than the length the list had, and
    the item at that index is the appended value. *)
Theorem append_then_length_and_item host fuel value lst env st st' :
  Eval host (S fuel) (NStatement (AppendStatement value lst)) env st = Done Null st' ->
  reserved lst = false ->
  exists v st1 a es,
    Eval host fuel (NExpression value) env st = Done v st1
    /\ lists st1 !! a = Some es
    /\ lists st' !! a = Some (es ++ [v])
    /\ (forall n, Eval host (S (S n)) (NExpression (LengthExpression (Identifier lst)))
                    env st'
                  = Done (Integer (Z.of_nat (S (length es)))) st')
    /\ (forall n, Eval host (S (S (S n)))
                    (NExpression (IndexExpression (LengthExpression (Identifier lst))
                                    (Identifier lst))) env st'
                  = Done v st').
Proof.
  intros Hrun Hres. cbn [Eval Eval_body] in Hrun. unfold evalAppendStatement in Hrun.
  apply bind_Done in Hrun as (v & st1 & Hv & Hrun).
  destruct (isError v) eqn:Ev.
  { injection Hrun as -> _. discriminate Ev. }
  apply bind_Done in Hrun as (listObj & st1' & HGet & Hrun).
  unfold env_Get in HGet.
  destruct (Get (envs st1) env lst) as [g|] eqn:EGet; [|discriminate].
  injection HGet as <- <-.
  destruct g as [[]|]; try (unfold bind, type_of in Hrun; simpl in Hrun; discriminate Hrun).
  apply bind_Done in Hrun as ([] & st2 & Happ & Hrun). injection Hrun as <-.
  unfold list_append in Happ.
  destruct (lists st1 !! ref) as [es|] eqn:Ees; [|discriminate].
  injection Happ as <-.
  assert (Hnew : lists (with_lists st1 (<[ref := es ++ [v]]> (lists st1))) !! ref
                 = Some (es ++ [v])).
  { simpl. apply list_lookup_insert_eq. eapply lookup_lt_Some. exact Ees. }
  assert (Hid : forall n, Eval host (S n) (NExpression (Identifier lst)) env
                            (with_lists st1 (<[ref := es ++ [v]]> (lists st1)))
                          = Done (List_ ref)
                              (with_lists st1 (<[ref := es ++ [v]]> (lists st1)))).
  { intros n. cbn [Eval Eval_body]. rewrite evalIdentifier_Get by exact Hres.
    simpl. rewrite EGet. reflexivity. }
  assert (Hlen : forall n, Eval host (S (S n))
                   (NExpression (LengthExpression (Identifier lst))) env
                   (with_lists st1 (<[ref := es ++ [v]]> (lists st1)))
                 = Done (Integer (Z.of_nat (S (length es))))
                     (with_lists st1 (<[ref := es ++ [v]]> (lists st1)))).
  { intros n. cbn [Eval Eval_body]. unfold evalLengthExpression.
    pose proof (Hid n) as Hid'. cbn [Eval] in Hid'.
    rewrite (bind_Done_l _ _ _ _ _ Hid'). cbn [isError].
    unfold bind, list_elements. rewrite Hnew. unfold ret.
    rewrite length_app. simpl. rewrite Nat.add_1_r. reflexivity. }
  exists v, st1, ref, es. split; [exact Hv|]. split; [exact Ees|].
  split; [exact Hnew|]. split; [exact Hlen|].
  intros n. cbn [Eval Eval_body]. unfold evalIndexExpression.
  pose proof (Hlen n) as Hlen'. cbn [Eval] in Hlen'.
  rewrite (bind_Done_l _ _ _ _ _ Hlen'). cbn [isError].
  pose proof (Hid (S n)) as Hid'. cbn [Eval] in Hid'.
  rewrite (bind_Done_l _ _ _ _ _ Hid'). cbn [isError].
  unfold bind, list_elements. rewrite Hnew.
  rewrite length_app. simpl length. rewrite Nat.add_1_r.
  destruct (Z.ltb_spec (Z.of_nat (S (length es))) 1); [lia|].
  destruct (Z.ltb_spec (Z.of_nat (S (length es))) (Z.of_nat (S (length es)))); [lia|].
  simpl orb. cbv iota.
  replace (Z.to_nat (Z.of_nat (S (length es)) - 1)) with (length es) by lia.
  rewrite lookup_app_r by lia. rewrite Nat.sub_diag. reflexivity.
Qed.

Lemma append_then_length_and_item_witness :
  exists v st1 a es,
    Eval no_host 2 (NExpression (IntegerLiteral 3)) 0%nat loop_ready = Done v st1
    /\ lists st1 !! a = Some es
    /\ lists appended !! a = Some (es ++ [v])
    /\ (forall n, Eval no_host (S (S n)) (NExpression (LengthExpression (Identifier "xs")))
                    0%nat appended
                  = Done (Integer (Z.of_nat (S (length es)))) appended)
    /\ (forall n, Eval no_host (S (S (S n)))
                    (NExpression (IndexExpression (LengthExpression (Identifier "xs"))
                                    (Identifier "xs"))) 0%nat appended
                  = Done v appended).
Proof.
  refine (append_then_length_and_item no_host 2 (IntegerLiteral 3) "xs" 0%nat
            loop_ready appended _ _).
  - vm_compute. reflexivity.
  - reflexivity.
Defined.

(** ** Counters *)

Lemma wrap64_add_sub c a : in_int64 c -> sub64 (add64 c a) a = c.
Proof.
  unfold in_int64, sub64, add64, wrap64, MinInt64, MaxInt64. intros Hc.
  replace ((c + a + 2 ^ 63) mod 2 ^ 64 - 2 ^ 63 - a + 2 ^ 63)
    with ((c + a + 2 ^ 63) mod 2 ^ 64 - a) by lia.
  rewrite Zminus_mod_idemp_l.
  replace (c + a + 2 ^ 63 - a) with (c + 2 ^ 63) by lia.
  rewrite Z.mod_small by lia. lia.
Qed.

Lemma Get_Some_frame h e x r : Get h e x = Some r -> exists fr, h !! e = Some fr.
Proof.
  unfold Get. destruct e; simpl; destruct (h !! _) as [fr|]; try discriminate; eauto.
Qed.

(** X8. [increase x by a] followed by [decrease x by a] gives [x] its
    value back, whatever the 64-bit addition did in between: for a variable
    that holds the integer [c], the first statement yields [c + a] wrapped to
    64 bits, the second yields [c], and [x] resolves to [c] again. *)
Theorem increase_then_decrease host fuel x a env st c :
  Get (envs st) env x = Some (Some (Integer c)) ->
  in_int64 c ->
  exists st1 st2,
    Eval host (S (S fuel)) (NStatement (IncreaseStatement x (IntegerLiteral a))) env st
    = Done (Integer (add64 c a)) st1
    /\ Eval host (S (S fuel)) (NStatement (DecreaseStatement x (IntegerLiteral a))) env st1
       = Done (Integer c) st2
    /\ Get (envs st2) env x = Some (Some (Integer c)).
Proof.
  intros HGet Hc.
  destruct (Get_Some_frame _ _ _ _ HGet) as (fr & Hfr).
  set (st1 := with_envs st (<[env := {| store := <[x := Integer (add64 c a)]> (store fr);
                                        outer := outer fr |}]> (envs st))).
  assert (Hfr1 : envs st1 !! env
                 = Some {| store := <[x := Integer (add64 c a)]> (store fr);
                           outer := outer fr |}).
  { simpl. apply list_lookup_insert_eq. eapply lookup_lt_Some. exact Hfr. }
  assert (HGet1 : Get (envs st1) env x = Some (Some (Integer (add64 c a)))).
  { unfold Get. destruct env; simpl; simpl in Hfr1; rewrite Hfr1; simpl;
      rewrite lookup_insert_eq; reflexivity. }
  set (st2 := with_envs st1
                (<[env := {| store := <[x := Integer c]>
                                        (<[x := Integer (add64 c a)]> (store fr));
                             outer := outer fr |}]> (envs st1))).
  exists st1, st2. split; [|split].
  - cbn [Eval Eval_body]. unfold evalIncreaseStatement.
    unfold bind at 1, env_Get. rewrite HGet.
    unfold bind, ret, env_Set, Set_. cbn [Eval_body]. unfold ret.
    cbn [isError]. cbv beta iota.
    rewrite Hfr. reflexivity.
  - cbn [Eval Eval_body]. unfold evalDecreaseStatement.
    unfold bind at 1, env_Get. rewrite HGet1.
    unfold bind, ret, env_Set, Set_. cbn [Eval_body]. unfold ret.
    cbn [isError]. cbv beta iota.
    rewrite Hfr1. cbv zeta.
    rewrite (wrap64_add_sub c a Hc). reflexivity.
  - unfold Get. destruct env; simpl;
      (rewrite list_lookup_insert_eq
         by (rewrite length_insert; eapply lookup_lt_Some; exact Hfr));
      simpl; rewrite lookup_insert_eq; reflexivity.
Qed.

Lemma increase_then_decrease_witness :
  exists st1 st2,
    Eval no_host 2 (NStatement (IncreaseStatement "v" (IntegerLiteral MaxInt64)))
      0%nat loop_ready
    = Done (Integer (add64 9 MaxInt64)) st1
    /\ Eval no_host 2 (NStatement (DecreaseStatement "v" (IntegerLiteral MaxInt64)))
         0%nat st1
       = Done (Integer 9) st2
    /\ Get (envs st2) 0%nat "v" = Some (Some (Integer 9)).
Proof.
  refine (increase_then_decrease no_host 0 "v" MaxInt64 0%nat loop_ready 9 _ _).
  - vm_compute. reflexivity.
  - unfold in_int64, MinInt64, MaxInt64. lia.
Defined.

(** ** Servers and routes *)

Lemma findRoute_elem routes r h :
  h ∈ routes -> matchRoute h r = true -> is_Some (findRoute routes r).
Proof.
  induction routes as [|x rest IH]; intros Hin Hm.
  - inversion Hin.
  - simpl. destruct (matchRoute x r) eqn:E; [eauto|].
    apply IH; [|exact Hm]. apply elem_of_cons in Hin as [->|Hin]; [congruence|exact Hin].
Qed.

Lemma serve_background host fuel port env st :
  serverRegistry st !! port = None ->
  Eval host (S (S fuel)) (NStatement (ServeStatement (IntegerLiteral port) true)) env st
  = Done (Server port true) (register_server port st).
Proof.
  intros Hnone. cbn [Eval Eval_body]. unfold evalServeStatement.
  unfold bind, ret, get, modify. cbn [Eval_body]. unfold ret. cbn [isError].
  cbv beta iota. rewrite Hnone. reflexivity.
Qed.

Lemma when_route host fuel method path rv body env st :
  Eval host (S (S fuel))
    (NStatement (WhenRouteStatement method (StringLiteral path) rv body)) env st
  = Done Null
      (add_route {| Method := method; Path := path; Body := Some body;
                    RequestVar := default "" rv; HandlerEnv := env;
                    HandlerFn := None |} st).
Proof. reflexivity. Qed.

Lemma register_server_routes port st h :
  h ∈ default [] (routeRegistry st !! defaultPort st) ->
  h ∈ default [] (routeRegistry (register_server port st) !! port).
Proof.
  intros Hin. unfold register_server. simpl.
  destruct (Z.eqb_spec port (defaultPort st)) as [->|Hne]; simpl; [exact Hin|].
  destruct (routeRegistry st !! defaultPort st) as [[|x rs]|] eqn:E; simpl in Hin;
    try (inversion Hin; fail).
  unfold append_route. rewrite lookup_insert_eq. simpl.
  apply elem_of_app. right. exact Hin.
Qed.

(** X10. A route declared with [when ... at path] before the server is
    started is served: after the declaration and [serve on port in
    background], on a port that had no server, a request the route matches
    is not answered 404 but by the handler of the first matching route of
    the table -- whichever the default port was when the route was
    declared. *)
Theorem declared_route_is_served host fuel method path rv body port env st r :
  serverRegistry st !! port = None ->
  matchRoute {| Method := method; Path := path; Body := Some body;
                RequestVar := default "" rv; HandlerEnv := env;
                HandlerFn := None |} r = true ->
  exists st1 st2 route,
    Eval host (S (S fuel))
      (NStatement (WhenRouteStatement method (StringLiteral path) rv body)) env st
    = Done Null st1
    /\ Eval host (S (S fuel))
         (NStatement (ServeStatement (IntegerLiteral port) true)) env st1
       = Done (Server port true) st2
    /\ matchRoute route r = true
    /\ forall fuel',
         handleIncomingRequest host fuel' r port st2
         = bind (runHandler host fuel' route (requestObject r))
             (writeResult host fuel') st2.
Proof.
  intros Hnone Hm.
  set (h := {| Method := method; Path := path; Body := Some body;
               RequestVar := default "" rv; HandlerEnv := env; HandlerFn := None |}) in *.
  assert (Hin : h ∈ default [] (routeRegistry (add_route h st)
                                  !! defaultPort (add_route h st))).
  { simpl. unfold append_route. rewrite lookup_insert_eq. simpl.
    apply elem_of_app. right. apply list_elem_of_singleton. reflexivity. }
  pose proof (register_server_routes port _ _ Hin) as Hin2.
  destruct (findRoute_elem _ r h Hin2 Hm) as [route Hroute].
  exists (add_route h st), (register_server port (add_route h st)), route.
  split; [apply when_route|]. split; [apply serve_background; exact Hnone|].
  split.
  - pose proof (findRoute_first (default [] (routeRegistry
                  (register_server port (add_route h st)) !! port)) r) as Hf.
    rewrite Hroute in Hf. destruct Hf as (_ & _ & _ & _ & Hf).
    apply matchRoute_spec. exact Hf.
  - intros fuel'. rewrite handleIncomingRequest_unfold. rewrite Hroute. reflexivity.
Qed.

Lemma declared_route_is_served_witness :
  exists st1 st2 route,
    Eval no_host 2
      (NStatement (WhenRouteStatement "" (StringLiteral "/") None hello_handler))
      0%nat (initial_state [])
    = Done Null st1
    /\ Eval no_host 2 (NStatement (ServeStatement (IntegerLiteral 9090) true)) 0%nat st1
       = Done (Server 9090 true) st2
    /\ matchRoute route get_root = true
    /\ forall fuel',
         handleIncomingRequest no_host fuel' get_root 9090 st2
         = bind (runHandler no_host fuel' route (requestObject get_root))
             (writeResult no_host fuel') st2.
Proof.
  refine (declared_route_is_served no_host 0 "" "/" None hello_handler 9090 0%nat
            (initial_state []) get_root _ _).
  - reflexivity.
  - reflexivity.
Defined.

Lemma stop_server host fuel port env st info :
  serverRegistry st !! port = Some info ->
  Shutdown host (exchanges st) port = None ->
  Eval host (S (S fuel)) (NStatement (StopServerStatement (IntegerLiteral port))) env st
  = Done Null
      (with_stdout (unregister_server port (with_exchanges st (S (exchanges st))))
         (stdout st ++ ["Server on port " +:+ fmt_d port +:+ " stopped" +:+ newline])).
Proof.
  intros Hsome Hshut. cbn [Eval Eval_body]. unfold evalStopServerStatement.
  unfold bind, ret, get, modify, next_exchange, print. cbn [Eval_body]. unfold ret.
  cbn [isError]. cbv beta iota. rewrite Hsome. simpl. rewrite Hshut. reflexivity.
Qed.

(** X11. Stopping a server discards its routes.  After [serve on port in
    background], [stop server on port] (the shutdown succeeding) and [serve
    on port in background] again, the server runs but its table is empty:
    every request is answered 404 [Not Found] until routes are declared
    again, whatever routes had been declared before. *)
Theorem restarted_server_has_no_routes host fuel port env st :
  serverRegistry st !! port = None ->
  Shutdown host (exchanges st) port = None ->
  exists st1 st2 st3,
    Eval host (S (S fuel)) (NStatement (ServeStatement (IntegerLiteral port) true)) env st
    = Done (Server port true) st1
    /\ Eval host (S (S fuel))
         (NStatement (StopServerStatement (IntegerLiteral port))) env st1
       = Done Null st2
    /\ Eval host (S (S fuel))
         (NStatement (ServeStatement (IntegerLiteral port) true)) env st2
       = Done (Server port true) st3
    /\ serverRegistry st3 !! port = Some {| Port := port; Running := true |}
    /\ forall fuel' r, handleIncomingRequest host fuel' r port st3 = Done notFound st3.
Proof.
  intros Hnone Hshut.
  eexists _, _, _. split; [apply serve_background; exact Hnone|].
  split.
  { eapply stop_server; [simpl; apply lookup_insert_eq | exact Hshut]. }
  split.
  { apply serve_background. simpl. apply lookup_delete_eq. }
  split.
  { simpl. apply lookup_insert_eq. }
  intros fuel' r. rewrite handleIncomingRequest_unfold.
  simpl. rewrite Z.eqb_refl. simpl. rewrite lookup_delete_eq. reflexivity.
Qed.

Lemma restarted_server_has_no_routes_witness :
  exists st1 st2 st3,
    Eval quiet_host 2 (NStatement (ServeStatement (IntegerLiteral 8080) true))
      0%nat hello_served
    = Done (Server 8080 true) st1
    /\ Eval quiet_host 2 (NStatement (StopServerStatement (IntegerLiteral 8080)))
         0%nat st1
       = Done Null st2
    /\ Eval quiet_host 2 (NStatement (ServeStatement (IntegerLiteral 8080) true))
         0%nat st2
       = Done (Server 8080 true) st3
    /\ serverRegistry st3 !! 8080 = Some {| Port := 8080; Running := true |}
    /\ forall fuel' r,
         handleIncomingRequest quiet_host fuel' r 8080 st3 = Done notFound st3.
Proof.
  refine (restarted_server_has_no_routes quiet_host 0 8080 0%nat hello_served _ _).
  - vm_compute. reflexivity.
  - reflexivity.
Defined.

(** ** JSON paths *)

Lemma append_cons d s t : String d s +:+ t = String d (s +:+ t).
Proof. reflexivity. Qed.

Lemma append_String_assoc cur c key :
  (cur +:+ String c EmptyString) +:+ key = cur +:+ String c key.
Proof.
  induction cur as [|d cur IH]; [reflexivity|].
  rewrite !append_cons, IH. reflexivity.
Qed.

Lemma append_empty_r s : s +:+ "" = s.
Proof. induction s as [|d s IH]; [reflexivity|]. rewrite append_cons, IH. reflexivity. Qed.

Lemma split_dots_key key rest : forall cur,
  no_dots key = true ->
  split_dots cur (key +:+ "." +:+ rest) = (cur +:+ key) :: split_dots "" rest.
Proof.
  induction key as [|c key IH]; intros cur Hk.
  - rewrite append_empty_r. reflexivity.
  - simpl in Hk. apply andb_prop in Hk as [Hc Hk].
    apply negb_true_iff in Hc. rewrite append_cons. cbn [split_dots].
    rewrite Hc. rewrite IH by exact Hk.
    rewrite append_String_assoc. reflexivity.
Qed.

Lemma split_dots_cons cur path : exists part parts, split_dots cur path = part :: parts.
Proof.
  revert cur. induction path as [|c path IH]; intros cur; simpl; [eauto|].
  destruct (Ascii.eqb c "."); [eauto | apply IH].
Qed.

(** X12. A dotted path is followed one field at a time: for a JSON object
    [m] and a key without a dot, the field [key.rest] of [m] is the field
    [rest] of what [m] holds under [key], and Null when [m] has no such
    key. *)
Theorem getJsonField_nested m key rest st :
  no_dots key = true ->
  getJsonField (IMap m) (key +:+ "." +:+ rest) st
  = match m !! key with
    | Some next => getJsonField next rest st
    | None => Done Null st
    end.
Proof.
  intros Hk. unfold getJsonField. rewrite split_dots_key by exact Hk.
  change ("" +:+ key) with key. cbn [getJsonField_walk].
  destruct (m !! key); reflexivity.
Qed.

Lemma getJsonField_nested_witness :
  getJsonField (IMap nested_object) "a.b" (initial_state [])
  = Done (String_ "x") (initial_state []).
Proof.
  exact (getJsonField_nested nested_object "a" "b" (initial_state []) eq_refl).
Defined.

(** X13. Only a JSON object has fields: asked of a scalar or of an array,
    every path -- the empty one included -- gives Null, and the store is
    left as it is. *)
Theorem getJsonField_of_non_object data path st :
  is_object data = false ->
  getJsonField data path st = Done Null st.
Proof.
  intros Hd. unfold getJsonField.
  destruct (split_dots_cons "" path) as (part & parts & ->).
  destruct data; try discriminate Hd; reflexivity.
Qed.

Lemma getJsonField_of_non_object_witness :
  getJsonField (IArray [IMap nested_object]) "" (initial_state [])
  = Done Null (initial_state []).
Proof.
  exact (getJsonField_of_non_object (IArray [IMap nested_object]) ""
           (initial_state []) eq_refl).
Defined.

(** ** The JSON bridge *)

Lemma iface_nested_ind (P : iface -> Prop) :
  P INil -> (forall b, P (IBool b)) -> (forall f, P (IFloat64 f)) ->
  (forall z, P (IInt64 z)) -> (forall s, P (IString s)) ->
  (forall elems, Forall P elems -> P (IArray elems)) ->
  (forall m, P (IMap m)) ->
  forall v, P v.
Proof.
  intros HN HB HF HI HS HA HM. fix IH 1.
  intros [|b|f|z|s|elems|m];
    [apply HN | apply HB | apply HF | apply HI | apply HS | | apply HM].
  apply HA. induction elems as [|e rest IHl]; constructor; [apply IH | exact IHl].
Qed.

Lemma bridged_later v o st st' :
  bridged v o st -> lists st `prefix_of` lists st' -> bridged v o st'.
Proof.
  intros H Hp fuel st2 Hd Hp2. apply H; [exact Hd|]. etransitivity; eassumption.
Qed.

Lemma each_round_trips elems :
  Forall round_trips elems ->
  forall st, exists xs st',
    (fix each (l : list iface) : M (list Object) :=
       match l with
       | [] => ret []
       | e :: rest => x ← interfaceToObject e; xs ← each rest; ret (x :: xs)
       end) elems st = Done xs st'
    /\ lists st `prefix_of` lists st'
    /\ Forall2 (fun e x => bridged e x st') elems xs.
Proof.
  induction 1 as [|e rest He _ IH]; intros st.
  - exists [], st. split; [reflexivity|]. split; [reflexivity|constructor].
  - destruct (He st) as (x & st1 & Hx & Hp1 & Hb).
    destruct (IH st1) as (xs & st2 & Hxs & Hp2 & Hbs).
    exists (x :: xs), st2. split; [|split].
    + rewrite (bind_Done_l _ _ _ _ _ Hx). rewrite (bind_Done_l _ _ _ _ _ Hxs).
      reflexivity.
    + etransitivity; eassumption.
    + constructor; [|exact Hbs]. eapply bridged_later; eassumption.
Qed.

Lemma each_back fuel st2 : forall elems xs st',
  Forall2 (fun e x => bridged e x st') elems xs ->
  lists st' `prefix_of` lists st2 ->
  (foldr (fun e n => Nat.max (depth e) n) 0 elems < fuel)%nat ->
  (fix each (l : list Object) : M (list iface) :=
     match l with
     | [] => ret []
     | e :: rest => x ← objectToInterface fuel e; xs ← each rest; ret (x :: xs)
     end) xs st2 = Done (map truncated elems) st2.
Proof.
  intros elems xs st' H. induction H as [|e x elems xs Hb _ IH]; intros Hp Hd.
  - reflexivity.
  - simpl in Hd. rewrite (bind_Done_l _ _ _ _ _ (Hb fuel st2 ltac:(lia) Hp)).
    rewrite (bind_Done_l _ _ _ _ _ (IH Hp ltac:(lia))). reflexivity.
Qed.

Lemma interfaceToObject_round_trips v : round_trips v.
Proof.
  induction v as [|b|f|z|s|elems IH|m] using iface_nested_ind; intros st;
    try (eexists _, st; split; [reflexivity|]; split; [reflexivity|];
         intros [|fuel] st2 Hd _; [lia|]; try destruct b; reflexivity).
  destruct (each_round_trips elems IH st) as (xs & st1 & Hxs & Hp & Hbs).
  exists (List_ (length (lists st1))), (with_lists st1 (lists st1 ++ [xs])).
  split; [|split].
  - cbn [interfaceToObject]. rewrite (bind_Done_l _ _ _ _ _ Hxs). reflexivity.
  - simpl. etransitivity; [exact Hp|]. apply prefix_app_r. reflexivity.
  - intros [|fuel] st2 Hd Hp2; [lia|]. simpl in Hd, Hp2.
    cbn [objectToInterface]. unfold bind at 1, list_elements.
    assert (Hl : lists st2 !! length (lists st1) = Some xs).
    { destruct Hp2 as [more ->]. rewrite <- app_assoc.
      rewrite lookup_app_r by lia. rewrite Nat.sub_diag. reflexivity. }
    rewrite Hl.
    rewrite (bind_Done_l _ _ _ _ _
               (each_back fuel st2 elems xs st1 Hbs
                  ltac:(etransitivity; [|exact Hp2]; apply prefix_app_r; reflexivity)
                  ltac:(lia))).
    reflexivity.
Qed.

(** X14. From JSON and back.  [interfaceToObject] always gives a value,
    allocating the lists of the arrays it meets and touching no list that
    existed; [objectToInterface] of that value, given a budget above the
    nesting depth of the arrays, gives the JSON value back with every number
    outside an object truncated to a 64-bit integer, and every object -- the
    numbers in it included -- as it was. *)
Theorem json_bridge_round_trip v st :
  exists o st',
    interfaceToObject v st = Done o st'
    /\ lists st `prefix_of` lists st'
    /\ forall fuel, (depth v < fuel)%nat ->
         objectToInterface fuel o st' = Done (truncated v) st'.
Proof.
  destruct (interfaceToObject_round_trips v st) as (o & st' & Hrun & Hp & Hb).
  exists o, st'. split; [exact Hrun|]. split; [exact Hp|].
  intros fuel Hd. apply Hb; [exact Hd | reflexivity].
Qed.

(** ** Equality *)

(** X15. [equals] on two values (neither the nil interface) always gives
    a Boolean and leaves the store alone; it gives true exactly when the two
    are the same Integer, the same String, the same Boolean, or both Null.
    A list, a function, a response or a JSON value equals nothing, itself
    included. *)
Theorem equals_holds_only_for_same_scalars l r st :
  TypeOf l <> None -> TypeOf r <> None ->
  exists b, evalEquals l r st = Done (Boolean b) st
            /\ (b = true <-> l = r /\ scalar l = true).
Proof.
  intros Hl Hr. unfold evalEquals.
  destruct l; try (exfalso; apply Hl; reflexivity);
    destruct r; try (exfalso; apply Hr; reflexivity);
    try (exists false; split; [reflexivity|];
         split; [discriminate | intros [E1 E2]; discriminate]);
    try (exists true; split; [reflexivity|]; split; [split; reflexivity | reflexivity]).
  - exists (Value =? Value0). split.
    + unfold bind, type_of, ret. simpl. destruct (Value =? Value0); reflexivity.
    + rewrite Z.eqb_eq. split; [intros ->; split; reflexivity | intros [[= ->] _]; reflexivity].
  - exists (String.eqb Value Value0). split.
    + unfold bind, type_of, ret. simpl. destruct (String.eqb Value Value0); reflexivity.
    + rewrite String.eqb_eq.
      split; [intros ->; split; reflexivity | intros [[= ->] _]; reflexivity].
  - exists (Bool.eqb Value Value0). split.
    + unfold bind, type_of, ret. simpl. destruct (Bool.eqb Value Value0); reflexivity.
    + rewrite Bool.eqb_true_iff.
      split; [intros ->; split; reflexivity | intros [[= ->] _]; reflexivity].
Qed.

Lemma equals_holds_only_for_same_scalars_witness :
  exists b, evalEquals (List_ 0%nat) (List_ 0%nat) loop_ready = Done (Boolean b) loop_ready
            /\ (b = true <-> List_ 0%nat = List_ 0%nat /\ scalar (List_ 0%nat) = true).
Proof.
  refine (equals_holds_only_for_same_scalars (List_ 0%nat) (List_ 0%nat) loop_ready _ _);
    discriminate.
Defined.

(** ** Reserved names *)

(** X16. [null], [true] and [false] cannot be rebound.  A [set] on one of
    them succeeds and does bind the name in the environment, but the name
    still evaluates to its constant, never to the value that was set. *)
Theorem reserved_name_ignores_binding host fuel name z env st fr :
  reserved name = true ->
  envs st !! env = Some fr ->
  exists st1 c,
    Eval host (S (S fuel)) (NStatement (SetStatement name (IntegerLiteral z))) env st
    = Done (Integer z) st1
    /\ Get (envs st1) env name = Some (Some (Integer z))
    /\ (c = Null \/ c = Boolean true \/ c = Boolean false)
    /\ forall n, Eval host (S n) (NExpression (Identifier name)) env st1 = Done c st1.
Proof.
  intros Hres Hfr.
  exists (with_envs st (<[env := {| store := <[name := Integer z]> (store fr);
                                    outer := outer fr |}]> (envs st))).
  exists (if String.eqb name "null" then Null
          else if String.eqb name "true" then Boolean true else Boolean false).
  split; [|split; [|split]].
  - cbn [Eval Eval_body]. unfold evalSetStatement.
    unfold bind, ret, env_Set, Set_. cbn [Eval_body]. unfold ret.
    cbn [isError]. cbv beta iota. rewrite Hfr. reflexivity.
  - unfold Get. destruct env; simpl;
      (rewrite list_lookup_insert_eq by (eapply lookup_lt_Some; exact Hfr));
      simpl; rewrite lookup_insert_eq; reflexivity.
  - destruct (String.eqb name "null"); [auto|].
    destruct (String.eqb name "true"); auto.
  - intros n. cbn [Eval Eval_body]. unfold evalIdentifier, reserved in *.
    destruct (String.eqb name "null"); [reflexivity|].
    destruct (String.eqb name "true"); [reflexivity|].
    destruct (String.eqb name "false"); [reflexivity|discriminate Hres].
Qed.

Lemma reserved_name_ignores_binding_witness :
  exists st1 c,
    Eval no_host 2 (NStatement (SetStatement "true" (IntegerLiteral 0))) 0%nat
      (initial_state [])
    = Done (Integer 0) st1
    /\ Get (envs st1) 0%nat "true" = Some (Some (Integer 0))
    /\ (c = Null \/ c = Boolean true \/ c = Boolean false)
    /\ forall n, Eval no_host (S n) (NExpression (Identifier "true")) 0%nat st1
                 = Done c st1.
Proof.
  refine (reserved_name_ignores_binding no_host 0 "true" 0 0%nat (initial_state [])
            {| store := ∅; outer := None |} _ _); reflexivity.
Defined.

(** ** The nil value *)

(** X17. A function whose body is empty returns the nil interface, not
    Null; no error is raised at the call, and [say] of the call panics on
    the nil value. *)
Theorem say_of_empty_function_panics host fuel f args env st params fenv vals st1 :
  Get (envs st) env f = Some (Some (Function params (Block []) fenv)) ->
  evalArguments (Eval host (S fuel)) args env [] st = Done (inl vals) st1 ->
  (exists st2,
     Eval host (S (S fuel)) (NExpression (CallExpression f args)) env st
     = Done GoNil st2)
  /\ Eval host (S (S (S fuel))) (NStatement (SayStatement (CallExpression f args))) env st
     = Panicked.
Proof.
  intros HGet Hargs.
  assert (Hcall : exists st2,
            Eval host (S (S fuel)) (NExpression (CallExpression f args)) env st
            = Done GoNil st2).
  { cbn [Eval Eval_body]. unfold evalCallExpression.
    unfold bind at 1, env_Get. rewrite HGet.
    pose proof Hargs as Hargs'. cbn [Eval] in Hargs'.
    rewrite (bind_Done_l _ _ _ _ _ Hargs').
    unfold bind at 1, new_env, NewEnclosedEnvironment.
    unfold bind at 1.
    erewrite bindParameters_Done.
    2:{ simpl. rewrite lookup_app_r by lia. rewrite Nat.sub_diag. reflexivity. }
    eexists. reflexivity. }
  split; [exact Hcall|].
  destruct Hcall as (st2 & Hcall).
  cbn [Eval Eval_body]. unfold evalSayStatement.
  cbn [Eval] in Hcall. rewrite (bind_Done_l _ _ _ _ _ Hcall). reflexivity.
Qed.

Lemma say_of_empty_function_panics_witness :
  Eval no_host 3 (NStatement (SayStatement (CallExpression "f" [IntegerLiteral 1])))
    0%nat empty_function_ready
  = Panicked.
Proof.
  refine (proj2 (say_of_empty_function_panics no_host 0 "f" [IntegerLiteral 1] 0%nat
                   empty_function_ready ["a"] 0%nat [Integer 1]
                   empty_function_ready _ _)).
  - vm_compute. reflexivity.
  - vm_compute. reflexivity.
Defined.

(** ** A list that contains itself *)

Lemma Inspect_scalar host fuel o st :
  scalar o = true -> exists s, Inspect host (S fuel) o st = Done s st.
Proof. destruct o; try discriminate; intros _; eexists; reflexivity. Qed.

Lemma each_cyclic host fuel a pre post st :
  Inspect host fuel (List_ a) st = OutOfFuel ->
  Forall (fun o => scalar o = true) pre ->
  (fix each (l : list Object) : M (list string) :=
     match l with
     | [] => ret []
     | e :: rest => x ← Inspect host fuel e; xs ← each rest; ret (x :: xs)
     end) (pre ++ List_ a :: post) st = OutOfFuel.
Proof.
  intros Hcyc Hpre. induction Hpre as [|o pre Ho _ IHp]; cbn [app].
  - unfold bind at 1. rewrite Hcyc. reflexivity.
  - destruct fuel as [|fuel']; [reflexivity|].
    destruct (Inspect_scalar host fuel' o st Ho) as (s & Hs).
    unfold bind at 1. rewrite Hs. unfold bind at 1. rewrite IHp. reflexivity.
Qed.

Lemma Inspect_cyclic host a pre post st :
  lists st !! a = Some (pre ++ List_ a :: post) ->
  Forall (fun o => scalar o = true) pre ->
  forall fuel, Inspect host fuel (List_ a) st = OutOfFuel.
Proof.
  intros Hl Hpre. induction fuel as [|fuel IH]; [reflexivity|].
  cbn [Inspect]. unfold bind at 1, list_elements. rewrite Hl.
  unfold bind at 1. rewrite (each_cyclic host fuel a pre post st IH Hpre).
  reflexivity.
Qed.

(** X18. Printing a list that contains itself never returns.  When the
    variable holds a list one of whose elements is that list, the elements
    before it being scalars -- as after [append xs to xs] -- [say] of the
    variable exhausts every budget. *)
Theorem say_of_cyclic_list_diverges host xs env st a pre post :
  reserved xs = false ->
  Get (envs st) env xs = Some (Some (List_ a)) ->
  lists st !! a = Some (pre ++ List_ a :: post) ->
  Forall (fun o => scalar o = true) pre ->
  forall fuel,
    Eval host fuel (NStatement (SayStatement (Identifier xs))) env st = OutOfFuel.
Proof.
  intros Hres HGet Hl Hpre [|[|fuel]]; try reflexivity.
  cbn [Eval Eval_body]. unfold evalSayStatement.
  unfold bind at 1. cbn [Eval_body]. rewrite evalIdentifier_Get by exact Hres.
  rewrite HGet. cbn [isError]. unfold bind at 1.
  rewrite (Inspect_cyclic host a pre post st Hl Hpre). reflexivity.
Qed.

Lemma say_of_cyclic_list_diverges_witness :
  Eval no_host 1000 (NStatement (SayStatement (Identifier "xs"))) 0%nat cyclic_ready
  = OutOfFuel.
Proof.
  refine (say_of_cyclic_list_diverges no_host "xs" 0%nat cyclic_ready 0%nat
            [Integer 1] [] _ _ _ _ 1000%nat).
  - reflexivity.
  - vm_compute. reflexivity.
  - vm_compute. reflexivity.
  - repeat constructor.
Defined.

(** ** Reading a line *)

Lemma last_char_snoc s c : last_char (s +:+ String c EmptyString) = Some c.
Proof.
  induction s as [|d s IH]; [reflexivity|].
  change (String d s +:+ String c "") with (String d (s +:+ String c "")).
  cbn [last_char]. rewrite IH.
  destruct (s +:+ String c "") eqn:E; [|reflexivity].
  destruct s; discriminate E.
Qed.

Lemma drop_last_snoc s c : drop_last (s +:+ String c EmptyString) = s.
Proof.
  induction s as [|d s IH]; [reflexivity|].
  change (String d s +:+ String c "") with (String d (s +:+ String c "")).
  cbn [drop_last]. rewrite IH.
  destruct (s +:+ String c "") eqn:E; [|reflexivity].
  destruct s; discriminate E.
Qed.

Lemma trim_suffix_char_snoc c s : trim_suffix_char c (s +:+ String c EmptyString) = s.
Proof.
  unfold trim_suffix_char. rewrite last_char_snoc, Ascii.eqb_refl.
  apply drop_last_snoc.
Qed.

Lemma trim_suffix_char_other c s :
  last_char s <> Some c -> trim_suffix_char c s = s.
Proof.
  unfold trim_suffix_char. intros H. destruct (last_char s) as [c'|]; [|reflexivity].
  destruct (Ascii.eqb_spec c' c); [congruence|reflexivity].
Qed.

Lemma append_snoc_assoc s c t :
  s +:+ String c t = (s +:+ String c EmptyString) +:+ t.
Proof.
  induction s as [|d s IH]; [reflexivity|].
  change (String d s +:+ String c t) with (String d (s +:+ String c t)).
  rewrite IH. reflexivity.
Qed.

(** X19. [ask] strips the line terminator.  For a line of input that ends
    in a line feed, or in a carriage return and a line feed, and whose text
    does not itself end in a carriage return, the target is bound to the
    text without the terminator, which is also the result. *)
Theorem ask_strips_line_terminator host fuel target env st fr line term rest :
  envs st !! env = Some fr ->
  stdin st = inl (line +:+ term) :: rest ->
  term = LF \/ term = CRLF ->
  last_char line <> Some (ascii_of_nat 13) ->
  Eval host (S fuel) (NStatement (AskStatement target)) env st
  = Done (String_ line)
      (with_envs (with_stdin st rest)
         (<[env := {| store := <[target := String_ line]> (store fr);
                      outer := outer fr |}]> (envs st))).
Proof.
  intros Hfr Hin Hterm Hcr.
  assert (Htrim : trim_suffix_char (ascii_of_nat 13)
                    (trim_suffix_char (ascii_of_nat 10) (line +:+ term)) = line).
  { destruct Hterm as [-> | ->]; unfold LF, CRLF.
    - rewrite trim_suffix_char_snoc. apply trim_suffix_char_other. exact Hcr.
    - rewrite (append_snoc_assoc line (ascii_of_nat 13)).
      rewrite trim_suffix_char_snoc. apply trim_suffix_char_snoc. }
  cbn [Eval Eval_body]. unfold evalAskStatement.
  unfold bind at 1, read_line. rewrite Hin. cbv zeta. rewrite Htrim.
  unfold bind, env_Set, Set_. simpl. rewrite Hfr. reflexivity.
Qed.

Lemma ask_strips_line_terminator_witness :
  Eval no_host 1 (NStatement (AskStatement "name")) 0%nat
    (initial_state [inl ("Ada" +:+ CRLF)])
  = Done (String_ "Ada")
      (with_envs (with_stdin (initial_state [inl ("Ada" +:+ CRLF)]) [])
         [{| store := <["name" := String_ "Ada"]> ∅; outer := None |}]).
Proof.
  refine (ask_strips_line_terminator no_host 0 "name" 0%nat
            (initial_state [inl ("Ada" +:+ CRLF)]) {| store := ∅; outer := None |}
            "Ada" CRLF [] _ _ _ _).
  - reflexivity.
  - reflexivity.
  - right. reflexivity.
  - discriminate.
Defined.

(** ** Sequencing *)

Lemma evalStatements_block_app E pre rest env : forall res st r0 st1,
  evalStatements_block E pre env res st = Done r0 st1 ->
  completes_normally r0 = true ->
  evalStatements_block E (pre ++ rest) env res st
  = evalStatements_block E rest env r0 st1.
Proof.
  induction pre as [|s pre IH]; intros res st r0 st1 Hpre Hnormal; simpl in *.
  - injection Hpre as <- <-. reflexivity.
  - apply bind_Done in Hpre as (x & s1 & Hs & Hpre).
    rewrite (bind_Done_l _ _ _ _ _ Hs).
    destruct x; try (apply (IH _ _ _ _ Hpre Hnormal));
      injection Hpre as <- <-; discriminate Hnormal.
Qed.

(** X9. A block stops at the first statement that ends with an error
    or a pending [return].  When the statements [pre] complete normally and
    the statement [s] after them ends with an error or a [return], the block
    [pre; s; post] ends there, with that result and in the store [s] left:
    nothing of [post] is evaluated. *)
Theorem block_stops_at_error_or_return host fuel pre s post env st r0 st1 r st2 :
  Eval host (S fuel) (NBlock (Block pre)) env st = Done r0 st1 ->
  completes_normally r0 = true ->
  Eval host fuel (NStatement s) env st1 = Done r st2 ->
  completes_normally r = false ->
  Eval host (S fuel) (NBlock (Block (pre ++ s :: post))) env st = Done r st2.
Proof.
  intros Hpre Hnormal Hs Hstop. cbn [Eval Eval_body] in *.
  unfold evalBlockStatement in *. simpl block_statements in *.
  rewrite (evalStatements_block_app _ _ _ _ _ _ _ _ Hpre Hnormal).
  simpl. rewrite (bind_Done_l _ _ _ _ _ Hs).
  destruct r; try discriminate Hstop; reflexivity.
Qed.

Lemma block_stops_at_error_or_return_witness :
  Eval no_host 3
    (NBlock (Block ([SetStatement "a" (IntegerLiteral 1)]
                    ++ ReturnStatement (Identifier "a")
                    :: [SetStatement "a" (IntegerLiteral 2)])))
    0%nat (initial_state [])
  = Done (ReturnValue (Integer 1))
      (state_after (Eval no_host 2 (NStatement (SetStatement "a" (IntegerLiteral 1)))
                      0%nat (initial_state []))).
Proof.
  refine (block_stops_at_error_or_return no_host 2 [SetStatement "a" (IntegerLiteral 1)]
            (ReturnStatement (Identifier "a")) [SetStatement "a" (IntegerLiteral 2)]
            0%nat (initial_state []) (Integer 1) _ (ReturnValue (Integer 1)) _ _ _ _ _).
  - vm_compute. reflexivity.
  - reflexivity.
  - vm_compute. reflexivity.
  - reflexivity.
Defined.

Ltac value_cases Hs v :=
  destruct Hs as [Hs|Hs]; destruct v; try discriminate Hs.

Ltac solved :=
  eexists; split; [reflexivity | first [left; reflexivity | right; reflexivity]].

Ltac sub e f env st Hsc v Hv Hs :=
  let H := fresh in
  assert (H : exists v, Eval _ f (NExpression e) env st = Done v st
                        /\ (scalar v = true \/ isError v = true))
    by (match goal with
        | IH : forall fuel env st, plain e = true -> _ |- _ => apply IH
        end; [assumption | exact Hsc | lia]);
  destruct H as (v & Hv & Hs).

Ltac finish :=
  unfold evalEquals, evalGreater, evalLess, nativeBoolToBooleanObject;
  simpl;
  repeat match goal with
         | |- context [if ?b then _ else _] => destruct b
         end;
  solved.

Lemma plain_evaluates host e : forall fuel env st,
  plain e = true -> scalars_only st env -> (height e < fuel)%nat ->
  exists v, Eval host fuel (NExpression e) env st = Done v st
            /\ (scalar v = true \/ isError v = true).
Proof.
  induction e; intros fuel env st Hplain Hsc Hfuel; try discriminate Hplain;
    (destruct fuel as [|f]; [lia|]); cbn [Eval Eval_body];
    simpl in Hplain, Hfuel.
  - unfold evalIdentifier.
    repeat match goal with
           | |- context [if ?b then _ else _] => destruct b; [solved|]
           end.
    destruct (Hsc Value) as (r & HG & Hr). unfold bind, env_Get. rewrite HG.
    destruct r as [v|]; [|solved].
    exists v. split; [reflexivity | left; apply Hr; reflexivity].
  - solved.
  - solved.
  - destruct Value; solved.
  - apply andb_prop in Hplain as [Hp1 Hp2].
    destruct f as [|f']; [lia|].
    sub e1 (S f') env st Hsc v1 Hv1 Hs1. sub e2 (S f') env st Hsc v2 Hv2 Hs2.
    unfold evalArithmeticExpression, bind. rewrite Hv1.
    value_cases Hs1 v1; cbn [isError]; try solved;
      rewrite Hv2; value_cases Hs2 v2; cbn [isError]; try solved;
      finish.
  - apply andb_prop in Hplain as [Hp1 Hp2].
    sub e1 f env st Hsc v1 Hv1 Hs1. sub e2 f env st Hsc v2 Hv2 Hs2.
    unfold evalComparisonExpression, bind. rewrite Hv1.
    value_cases Hs1 v1; cbn [isError]; try solved;
      rewrite Hv2; value_cases Hs2 v2; cbn [isError]; try solved;
      finish.
  - unfold evalLogicalExpression.
    destruct (String.eqb Operator "not").
    + sub e2 f env st Hsc v2 Hv2 Hs2. unfold bind. rewrite Hv2.
      value_cases Hs2 v2; cbn [isError]; try solved; finish.
    + apply andb_prop in Hplain as [Hp1 Hp2].
      sub e1 f env st Hsc v1 Hv1 Hs1. sub e2 f env st Hsc v2 Hv2 Hs2.
      destruct (String.eqb Operator "and"); [|destruct (String.eqb Operator "or")];
        try solved; unfold bind; rewrite Hv1;
        (value_cases Hs1 v1; cbn [isError]; try solved);
        (match goal with
         | |- context [if ?b then _ else _] => destruct b; try solved
         end);
        rewrite Hv2; value_cases Hs2 v2; cbn [isError]; try solved; finish.
  - sub e f env st Hsc v Hv Hs.
    unfold evalNegativeExpression, bind. rewrite Hv.
    value_cases Hs v; cbn [isError]; try solved; finish.
Qed.

(** X24. Plain expressions always evaluate, and without effect.  In an
    environment from which every bound name resolves to an integer, a
    string, a boolean or null, an expression made of literals, identifiers,
    [minus] and the arithmetic, comparison and logical operators returns
    within a budget of its height plus one; it never panics, it leaves the
    whole store as it was, and its value is again an integer, a string, a
    boolean or null, or else an error. *)
Theorem plain_expression_evaluates host e fuel env st :
  plain e = true -> scalars_only st env -> (height e < fuel)%nat ->
  exists v, Eval host fuel (NExpression e) env st = Done v st
            /\ (scalar v = true \/ isError v = true).
Proof.
  intros Hplain Hsc Hfuel. apply plain_evaluates; assumption.
Qed.


Lemma plain_expression_evaluates_witness :
  exists v,
    Eval no_host 2
      (NExpression (ArithmeticExpression (IntegerLiteral 1) "plus" (Identifier "x")))
      0%nat (initial_state [])
    = Done v (initial_state [])
    /\ (scalar v = true \/ isError v = true).
Proof.
  apply (plain_expression_evaluates no_host
           (ArithmeticExpression (IntegerLiteral 1) "plus" (Identifier "x"))
           2 0%nat (initial_state [])).
  - reflexivity.
  - intros name. exists None. split; [|discriminate].
    unfold Get. simpl. rewrite lookup_empty. reflexivity.
  - simpl. lia.
Defined.

Lemma Get_Set_same h e x v h' : Set_ h e x v = Some h' -> Get h' e x = Some (Some v).
Proof.
  unfold Set_, Get.
  destruct (h !! e) as [fr|] eqn:Hfr; [|discriminate]. intros [= <-].
  destruct e; simpl;
    rewrite list_lookup_insert_eq by (eapply lookup_lt_Some; eassumption);
    simpl; rewrite lookup_insert_eq; reflexivity.
Qed.

Lemma scalars_only_Set st env x v :
  scalars_only st env -> scalar v = true ->
  exists h', Set_ (envs st) env x v = Some h'
             /\ scalars_only (with_envs st h') env.
Proof.
  intros Hsc Hv. destruct (Hsc x) as (r & HG & _).
  destruct (Get_Some_frame _ _ _ _ HG) as (fr & Hfr).
  unfold Set_ at 1. rewrite Hfr. eexists. split; [reflexivity|].
  assert (HSet : Set_ (envs st) env x v
                 = Some (<[env := {| store := <[x := v]> (store fr);
                                     outer := outer fr |}]> (envs st)))
    by (unfold Set_; rewrite Hfr; reflexivity).
  intros name. destruct (decide (name = x)) as [->|Hne].
  - exists (Some v). split; [apply (Get_Set_same _ _ _ _ _ HSet)|].
    intros v' [= <-]. exact Hv.
  - destruct (Hsc name) as (r' & HG' & Hr'). exists r'. split; [|exact Hr'].
    simpl. unfold Get. rewrite (Get_walk_Set_other _ _ _ _ _ _ HSet Hne).
    exact HG'.
Qed.

Ltac exists_done :=
  eexists _, _; split; [reflexivity | assumption].

Lemma nesting_in s ss : In s ss -> (nesting s <= list_max (map nesting ss))%nat.
Proof.
  intros Hin. induction ss as [|s' ss IH]; [destruct Hin|].
  simpl. destruct Hin as [->|Hin]; [lia | specialize (IH Hin); lia].
Qed.

Lemma straight_block_steps host f ss :
  (forall s, In s ss -> forall env st, scalars_only st env ->
     exists v st', Eval host f (NStatement s) env st = Done v st'
                   /\ scalars_only st' env) ->
  forall result env st, scalars_only st env ->
    exists v st', evalStatements_block (Eval host f) ss env result st = Done v st'
                  /\ scalars_only st' env.
Proof.
  induction ss as [|s ss IH]; intros Hall result env st Hsc.
  - exists result, st. split; [reflexivity | exact Hsc].
  - destruct (Hall s (or_introl eq_refl) env st Hsc) as (v & st1 & Hv & Hsc1).
    cbn [evalStatements_block]. unfold bind at 1. rewrite Hv.
    assert (Hrest : exists v' st', evalStatements_block (Eval host f) ss env v st1
                                   = Done v' st' /\ scalars_only st' env).
    { apply IH; [|exact Hsc1]. intros s' Hin. apply Hall. right. exact Hin. }
    destruct v; try exact Hrest; exists_done.
Qed.

Lemma straight_program_steps host f ss :
  (forall s, In s ss -> forall env st, scalars_only st env ->
     exists v st', Eval host f (NStatement s) env st = Done v st'
                   /\ scalars_only st' env) ->
  forall result env st, scalars_only st env ->
    exists v st', evalStatements_program (Eval host f) ss env result st = Done v st'
                  /\ scalars_only st' env.
Proof.
  induction ss as [|s ss IH]; intros Hall result env st Hsc.
  - exists result, st. split; [reflexivity | exact Hsc].
  - destruct (Hall s (or_introl eq_refl) env st Hsc) as (v & st1 & Hv & Hsc1).
    cbn [evalStatements_program]. unfold bind at 1. rewrite Hv.
    assert (Hrest : exists v' st', evalStatements_program (Eval host f) ss env v st1
                                   = Done v' st' /\ scalars_only st' env).
    { apply IH; [|exact Hsc1]. intros s' Hin. apply Hall. right. exact Hin. }
    destruct v; try exact Hrest; exists_done.
Qed.

Ltac operand host e f env st Hsc v Hv Hs :=
  let H := fresh in
  assert (H : exists v, Eval host f (NExpression e) env st = Done v st
                        /\ (scalar v = true \/ isError v = true))
    by (apply plain_evaluates; [assumption | exact Hsc | lia]);
  destruct H as (v & Hv & Hs).

Ltac store_it :=
  match goal with
  | Hsc : scalars_only ?st ?env |- context [env_Set ?env ?x ?v ?st] =>
      let h := fresh "h" in
      let HSet := fresh "HSet" in
      let Hsc' := fresh "Hsc" in
      destruct (scalars_only_Set st env x v Hsc eq_refl) as (h & HSet & Hsc');
      unfold env_Set; rewrite HSet; exists_done
  end.

Lemma straight_runs host : forall fuel,
  (forall s env st,
     straight s = true -> (nesting s < fuel)%nat -> scalars_only st env ->
     exists v st', Eval host fuel (NStatement s) env st = Done v st'
                   /\ scalars_only st' env)
  /\ (forall ss env st,
        forallb straight ss = true ->
        (S (list_max (map nesting ss)) < fuel)%nat -> scalars_only st env ->
        exists v st', Eval host fuel (NBlock (Block ss)) env st = Done v st'
                      /\ scalars_only st' env).
Proof.
  induction fuel as [|f [IHs IHb]]; [split; intros; lia|].
  split.
  - intros s env st Hstraight Hfuel Hsc.
    destruct s; try discriminate Hstraight; cbn [Eval Eval_body];
      simpl in Hstraight, Hfuel.
    + (* set *)
      operand host Value f env st Hsc v Hv Hs.
      unfold evalSetStatement, bind. rewrite Hv.
      destruct Hs as [Hs|Hs]; destruct v; try discriminate Hs; cbn [isError];
        try exists_done; store_it.
    + (* increase *)
      unfold evalIncreaseStatement. unfold bind at 1, env_Get.
      destruct (Hsc Target) as (r & HG & Hr). rewrite HG.
      destruct r as [cur|]; [|exists_done].
      specialize (Hr cur eq_refl).
      destruct cur; try discriminate Hr; try exists_done.
      operand host Amount f env st Hsc v Hv Hs.
      unfold bind. rewrite Hv.
      destruct Hs as [Hs|Hs]; destruct v; try discriminate Hs; cbn [isError];
        try exists_done; store_it.
    + (* decrease *)
      unfold evalDecreaseStatement. unfold bind at 1, env_Get.
      destruct (Hsc Target) as (r & HG & Hr). rewrite HG.
      destruct r as [cur|]; [|exists_done].
      specialize (Hr cur eq_refl).
      destruct cur; try discriminate Hr; try exists_done.
      operand host Amount f env st Hsc v Hv Hs.
      unfold bind. rewrite Hv.
      destruct Hs as [Hs|Hs]; destruct v; try discriminate Hs; cbn [isError];
        try exists_done; store_it.
    + (* if *)
      destruct Consequence as [ss].
      apply andb_prop in Hstraight as [Hstraight Halt].
      apply andb_prop in Hstraight as [Hcond Hthen].
      operand host Condition f env st Hsc v Hv Hs.
      unfold evalIfStatement, bind. rewrite Hv.
      assert (Hyes : exists v' st', Eval host f (NBlock (Block ss)) env st = Done v' st'
                                    /\ scalars_only st' env)
        by (apply IHb; [exact Hthen | lia | exact Hsc]).
      assert (Hno : exists v' st',
                 match Alternative with
                 | Some alt => Eval host f (NBlock alt) env
                 | None => ret NULL
                 end st = Done v' st' /\ scalars_only st' env).
      { destruct Alternative as [[ss']|]; [|exists_done].
        apply IHb; [exact Halt | lia | exact Hsc]. }
      destruct Hs as [Hs|Hs]; destruct v; try discriminate Hs; cbn [isError];
        try exists_done;
        match goal with
        | |- context [if ?b then _ else _] => destruct b; assumption
        end.
    + (* return *)
      match goal with
      | |- context [evalReturnStatement _ ?e _] => rename e into rv
      end.
      assert (Hp : rv = ENil \/ plain rv = true)
        by (destruct rv; auto).
      destruct Hp as [->|Hp]; [exists_done|].
      operand host rv f env st Hsc v Hv Hs.
      assert (Hgo : exists v' st',
                 (val ← Eval host f rv env;
                  if isError val then ret val else ret (object.ReturnValue val)) st
                 = Done v' st' /\ scalars_only st' env).
      { unfold bind. rewrite Hv. destruct (isError v); exists_done. }
      unfold evalReturnStatement. destruct rv; try discriminate Hp; exact Hgo.
    + (* say *)
      destruct f as [|f']; [lia|].
      operand host Value (S f') env st Hsc v Hv Hs.
      unfold evalSayStatement, bind. rewrite Hv.
      destruct Hs as [Hs|Hs]; destruct v; try discriminate Hs; cbn [isError];
        exists_done.
    + (* ask *)
      unfold evalAskStatement, bind, read_line.
      destruct (stdin st) as [|line rest]; [exists_done|].
      destruct line as [input|err]; [|exists_done].
      cbv zeta.
      assert (Hsc' : scalars_only (with_stdin st rest) env) by exact Hsc.
      store_it.
  - intros ss env st Hall Hfuel Hsc. cbn [Eval Eval_body].
    unfold evalBlockStatement. cbn [block_statements].
    apply straight_block_steps; [|exact Hsc].
    intros s Hin env' st' Hsc'. apply IHs; [| |exact Hsc'].
    + rewrite forallb_forall in Hall. apply Hall, Hin.
    + pose proof (nesting_in s ss Hin). lia.
Qed.

(** X25. Programs without loops and calls always run to their end.  A
    program made of [set], [increase], [decrease], [say], [return] and [ask]
    over plain expressions, and of [if] over blocks of such statements,
    started in an environment whose bound names hold integers, strings,
    booleans or null, returns within a budget of its nesting plus two: it
    never panics and it leaves the environment in that same condition, so
    that the next program run in it (the next line of a session) does so
    too. *)
Theorem straight_program_runs host (statements : list Statement) fuel env st :
  forallb straight statements = true ->
  scalars_only st env ->
  (S (list_max (map nesting statements)) < fuel)%nat ->
  exists v st',
    Eval host fuel (NProgram {| Statements := statements |}) env st = Done v st'
    /\ scalars_only st' env.
Proof.
  intros Hall Hsc Hfuel. destruct fuel as [|f]; [lia|].
  cbn [Eval Eval_body]. unfold evalProgram. cbn [Statements].
  apply straight_program_steps; [|exact Hsc].
  intros s Hin env' st' Hsc'.
  apply (proj1 (straight_runs host f)); [| |exact Hsc'].
  - rewrite forallb_forall in Hall. apply Hall, Hin.
  - pose proof (nesting_in s statements Hin). lia.
Qed.

Lemma straight_program_runs_witness :
  exists v st',
    Eval no_host 3
      (NProgram {| Statements := [SetStatement "x" (IntegerLiteral 1);
                                  SayStatement (Identifier "x")] |})
      0%nat (initial_state [])
    = Done v st'
    /\ scalars_only st' 0%nat.
Proof.
  apply (straight_program_runs no_host
           [SetStatement "x" (IntegerLiteral 1); SayStatement (Identifier "x")]
           3 0%nat (initial_state [])).
  - reflexivity.
  - intros name. exists None. split; [|discriminate].
    unfold Get. simpl. rewrite lookup_empty. reflexivity.
  - simpl. lia.
Defined.

End interpreter_facts.
